(** * KnightTour_omp.c: backtracking search for knight tours

    A shallow embedding of [KnightTour_omp.c].  The C arrays are lists read
    and written by index, an access outside an array is a fault ([None]),
    the position of the pointer [k] inside [track] is the index of the
    frame whose cursor it addresses, and the loops of [main] are a
    transition function over the private state of one search. *)

From Stdlib Require Import ZArith Lia Permutation Ascii String.
From stdpp Require Import base tactics option list list_numbers strings pretty.

Local Open Scope Z_scope.

(** ** Configuration: the macros of the file *)

(** The [#define]s at the head of the file, and the start cell that [main]
    stores into [track[0]] (the literals [5], [5] of lines 77-78).
    [MAX_TRY] is a [double] literal in the source; only its value matters
    for the two comparisons it takes part in, and that value is taken
    integral.  In [num_try<MAX_TRY] the counter is converted to [double];
    the conversion is exact up to [2^53] and never exceeds [2^64], so the
    comparison of the values is the comparison the code makes for every
    budget up to [2^53] and for every budget above [2^64].  The [int]s of
    the file (coordinates, cursors, [step], the counters) stay far from the
    limits of [int] and are integers here. *)
Record Config := mkConfig {
  LX : Z;
  LY : Z;
  MAX_START : Z;
  MAX_PATTERN : Z;
  MAX_TRY : Z;
  RANDOM_MOVE_PATTERN : nat;
  START_X : Z;
  START_Y : Z
}.

Definition MAX_MOVE_PATTERN : Z := 8.

(** The configuration the file is distributed with. *)
Definition source_config : Config :=
  {| LX := 6; LY := 6; MAX_START := 5; MAX_PATTERN := 4;
     MAX_TRY := 200000000; RANDOM_MOVE_PATTERN := 10;
     START_X := 5; START_Y := 5 |}.

(** [track[i]] is [{x, y, currently_searched_move_pattern}]. *)
Record Frame := mkFrame { fx : Z; fy : Z; fk : Z }.

(** [Move_t], [Track_t] and [Board_t] ([board[x][y]] is the cell
    [x * LY + y] of the row-major layout). *)
Abbreviation Move_t := (list (Z * Z)).
Abbreviation Track_t := (list Frame).
Abbreviation Board_t := (list Z).

(** ** Arrays *)

(** Reading [a[i]]: defined only inside the array. *)
Definition rd {A} (a : list A) (i : Z) : option A :=
  if decide (0 <= i) then a !! Z.to_nat i else None.

(** Writing [a[i] = v]: defined only inside the array. *)
Definition wr {A} (a : list A) (i : Z) (v : A) : option (list A) :=
  if decide (0 <= i < Z.of_nat (length a)) then Some (<[Z.to_nat i := v]> a)
  else None.

(** The result of a computation that runs on fuel and may touch memory
    outside an array. *)
Inductive Result (A : Type) :=
  | Done (a : A)
  | Undefined   (* an access outside an array *)
  | NoFuel.
Arguments Done {A} a.
Arguments Undefined {A}.
Arguments NoFuel {A}.

Definition rbind {A B} (r : Result A) (f : A → Result B) : Result B :=
  match r with
  | Done a => f a
  | Undefined => Undefined
  | NoFuel => NoFuel
  end.

Definition of_opt {A} (o : option A) : Result A :=
  match o with Some a => Done a | None => Undefined end.

Section Search.

Context (cfg : Config).

Local Abbreviation lx := (LX cfg).
Local Abbreviation ly := (LY cfg).

(** [LX*LY], the number of cells. *)
Definition cells : Z := lx * ly.

Definition in_board (x y : Z) : bool :=
  bool_decide (0 <= x /\ x < lx /\ 0 <= y /\ y < ly).

Definition cell (x y : Z) : Z := x * ly + y.

Definition board_rd (board : Board_t) (x y : Z) : option Z :=
  if in_board x y then rd board (cell x y) else None.

Definition board_wr (board : Board_t) (x y v : Z) : option Board_t :=
  if in_board x y then wr board (cell x y) v else None.

(** ** The four operations of the search *)

(** [TryMove]: the [int] it returns is used as a truth value only. *)
Definition TryMove (step k : Z) (track : Track_t) (board : Board_t)
    (move : Move_t) : option bool :=
  f ← rd track step;
  m ← rd move k;
  let x := fx f + m.1 in
  let y := fy f + m.2 in
  if in_board x y then
    v ← rd board (cell x y); Some (bool_decide (v = 0))
  else Some false.

(** [AcceptMove]: returns the arrays as written and the frame whose cursor
    the returned pointer addresses. *)
Definition AcceptMove (step k : Z) (track : Track_t) (board : Board_t)
    (move : Move_t) : option (Track_t * Board_t * Z) :=
  p ← rd track (step - 1);
  m ← rd move k;
  let f := {| fx := fx p + m.1; fy := fy p + m.2; fk := 0 |} in
  track' ← wr track step f;
  board' ← board_wr board (fx f) (fy f) (step + 1);
  Some (track', board', step).

Definition BackTrace (step : Z) (track : Track_t) (board : Board_t)
    : option (Track_t * Board_t * Z) :=
  f ← rd track step;
  board' ← board_wr board (fx f) (fy f) 0;
  p ← rd track (step - 1);
  track' ← wr track (step - 1) {| fx := fx p; fy := fy p; fk := fk p + 1 |};
  Some (track', board', step - 1).

Definition IsClosedTour (x y a b : Z) : bool :=
  (bool_decide (Z.abs (x - a) = 1) && bool_decide (Z.abs (y - b) = 2))
  || (bool_decide (Z.abs (x - a) = 2) && bool_decide (Z.abs (y - b) = 1)).

(** ** The private state of one search and its transitions *)

(** The loop heads and statements of [main] between which the private
    state is observed (source lines 90, 92, 96, 106, 124 and 125). *)
Inductive Pc :=
  | PcBudget       (* while( num_try<MAX_TRY ) *)
  | PcTry          (* while( !TryMove(step, *k, ...) ) *)
  | PcCascade      (* while( *k==MAX_MOVE_PATTERN ), inside the try loop *)
  | PcFull         (* #pragma omp critical, entered when step == LX*LY-1 *)
  | PcResume       (* k = BackTrace(step--, ...) after the critical region *)
  | PcCascadeFull. (* while( *k==MAX_MOVE_PATTERN ), after a full board *)

(** [k] is the index of the frame of [track] whose third component the
    pointer [k] addresses; [num_try] is an [unsigned long], of 64 bits as
    on the LP64 platforms. *)
Record Local := mkLocal {
  board : Board_t;
  track : Track_t;
  move : Move_t;
  step : Z;
  k : Z;
  num_try : Z;
  pc : Pc
}.

Definition set_pc (l : Local) (p : Pc) : Local :=
  mkLocal (board l) (track l) (move l) (step l) (k l) (num_try l) p.

(** [++num_try] on an [unsigned long]. *)
Definition incr_ulong (n : Z) : Z := (n + 1) mod 2 ^ 64.

(** [*k] *)
Definition deref (track : Track_t) (k : Z) : option Z :=
  f ← rd track k; Some (fk f).

(** [++*k] *)
Definition incr_deref (track : Track_t) (k : Z) : option Track_t :=
  f ← rd track k;
  wr track k {| fx := fx f; fy := fy f; fk := fk f + 1 |}.

(** [k = BackTrace(step--, &track, &board)], then control goes to [p]. *)
Definition back (l : Local) (p : Pc) : option Local :=
  '(track', board', k') ← BackTrace (step l) (track l) (board l);
  Some (mkLocal board' track' (move l) (step l - 1) k' (num_try l) p).

(** The result of one transition: the next private state, the entry of the
    critical region, the exit of the budget loop, or an access outside an
    array. *)
Inductive Next :=
  | Go (l : Local)
  | Critical
  | Halt
  | Fault.

Definition of_option (o : option Local) : Next :=
  match o with Some l => Go l | None => Fault end.

Definition next (l : Local) : Next :=
  match pc l with
  | PcBudget =>
      if bool_decide (num_try l < MAX_TRY cfg) then Go (set_pc l PcTry)
      else Halt
  | PcTry =>
      of_option (
        c ← deref (track l) (k l);
        ok ← TryMove (step l) c (track l) (board l) (move l);
        if ok : bool then
          (* ++num_try; k = AcceptMove(++step, *k, ...); if( step == LX*LY-1 ) *)
          '(track', board', k') ←
            AcceptMove (step l + 1) c (track l) (board l) (move l);
          Some (mkLocal board' track' (move l) (step l + 1) k'
                  (incr_ulong (num_try l))
                  (if bool_decide (step l + 1 = cells - 1) then PcFull
                   else PcBudget))
        else
          (* ++num_try; ++*k; *)
          track' ← incr_deref (track l) (k l);
          Some (mkLocal (board l) track' (move l) (step l) (k l)
                  (incr_ulong (num_try l)) PcCascade))
  | PcCascade =>
      of_option (
        c ← deref (track l) (k l);
        if bool_decide (c = MAX_MOVE_PATTERN) then back l PcCascade
        else Some (set_pc l PcTry))
  | PcFull => Critical
  | PcResume => of_option (back l PcCascadeFull)
  | PcCascadeFull =>
      of_option (
        c ← deref (track l) (k l);
        if bool_decide (c = MAX_MOVE_PATTERN) then back l PcCascadeFull
        else Some (set_pc l PcBudget))
  end.

(** ** The shared state and the critical region *)

(** The three counters of [main], the text appended through [fc] to
    [ClosedTour.txt], and the text printed on the standard output. *)
Record Shared := mkShared {
  num_found : Z;
  num_closed : Z;
  num_opened : Z;
  fc : string;
  console : string
}.

Definition nl : string := String "010"%char EmptyString.

(** [fPrintBoard]: the strings written by its successive [fprintf] calls. *)
Definition fPrintBoard (board : Board_t) : option (list string) :=
  rows ← mapM (λ j,
            row ← mapM (λ i, v ← board_rd board i j;
                             Some (pretty v +:+ " ")) (seqZ 0 lx);
            Some (row ++ [nl]))
          (reverse (seqZ 0 ly));
  Some (concat rows ++ [nl]).

(** The accesses to the shared state inside the critical region.  [++n] on
    a shared [int] is a load followed by a store of the loaded value plus
    one; the loaded value sits in a temporary of the executing thread. *)
Inductive Counter := NumFound | NumClosed | NumOpened.

Inductive Op :=
  | Load (c : Counter)
  | Store (c : Counter)
  | Printf (s : string)
  | Fprintf (s : string).

Definition counter (c : Counter) (sh : Shared) : Z :=
  match c with
  | NumFound => num_found sh
  | NumClosed => num_closed sh
  | NumOpened => num_opened sh
  end.

Definition set_counter (c : Counter) (v : Z) (sh : Shared) : Shared :=
  match c with
  | NumFound => mkShared v (num_closed sh) (num_opened sh) (fc sh) (console sh)
  | NumClosed => mkShared (num_found sh) v (num_opened sh) (fc sh) (console sh)
  | NumOpened => mkShared (num_found sh) (num_closed sh) v (fc sh) (console sh)
  end.

Definition exec_op (st : Shared * Z) (op : Op) : Shared * Z :=
  let '(sh, tmp) := st in
  match op with
  | Load c => (sh, counter c sh)
  | Store c => (set_counter c (tmp + 1) sh, tmp)
  | Printf s =>
      (mkShared (num_found sh) (num_closed sh) (num_opened sh) (fc sh)
         (console sh +:+ s), tmp)
  | Fprintf s =>
      (mkShared (num_found sh) (num_closed sh) (num_opened sh) (fc sh +:+ s)
         (console sh), tmp)
  end.

(** The body of [#pragma omp critical] (lines 108-120), for the thread
    [thread_id] whose private arrays are [track] and [board]. *)
Definition critical_ops (thread_id : Z) (track : Track_t) (board : Board_t)
    : option (list Op) :=
  last ← rd track (cells - 1);
  first ← rd track 0;
  if IsClosedTour (fx last) (fy last) (fx first) (fy first) then
    writes ← fPrintBoard board;
    Some ([Load NumFound; Store NumFound;
           Printf ("Thread " +:+ pretty thread_id
                   +:+ ": Found a closed knight tour." +:+ nl);
           Load NumClosed; Store NumClosed] ++ (Fprintf <$> writes))
  else
    Some [Load NumFound; Store NumFound;
          Printf ("Thread " +:+ pretty thread_id
                  +:+ ": Found an opened knight tour." +:+ nl);
          Load NumOpened; Store NumOpened].

(** The critical region executed without interruption. *)
Definition critical (thread_id : Z) (l : Local) (sh : Shared)
    : option Shared :=
  ops ← critical_ops thread_id (track l) (board l);
  Some (foldl exec_op (sh, 0) ops).1.

(** ** One thread running one search to its end *)

(** The loop [while( num_try<MAX_TRY )] of lines 90-131. *)
Fixpoint run (fuel : nat) (thread_id : Z) (l : Local) (sh : Shared)
    : Result (Local * Shared) :=
  match fuel with
  | O => NoFuel
  | S fuel' =>
      match next l with
      | Go l' => run fuel' thread_id l' sh
      | Critical =>
          rbind (of_opt (critical thread_id l sh))
            (λ sh', run fuel' thread_id (set_pc l PcResume) sh')
      | Halt => Done (l, sh)
      | Fault => Undefined
      end
  end.

(** ** Preparing a search *)

Definition ResetBoard (board : Board_t) : option Board_t :=
  foldl (λ ob ij, b ← ob; board_wr b ij.1 ij.2 0) (Some board)
    (i ← seqZ 0 lx; j ← seqZ 0 ly; [(i, j)]).

(** Lines 82 and 84-89: the state in which the budget loop is entered. *)
Definition attempt_start (board : Board_t) (track : Track_t) (move : Move_t)
    : option Local :=
  board0 ← ResetBoard board;
  f0 ← rd track 0;
  board1 ← board_wr board0 (fx f0) (fy f0) 1;
  track1 ← wr track 0 {| fx := fx f0; fy := fy f0; fk := 0 |};
  Some (mkLocal board1 track1 move 0 0 0 PcBudget).

(** The initialiser of [move] (line 75). *)
Definition knight_moves : Move_t :=
  [(-2, -1); (-2, 1); (-1, -2); (-1, 2); (1, -2); (1, 2); (2, -1); (2, 1)].

(** The body of the loop of [ShuffleMovePattern] for the indexes [a], [b]. *)
Definition swap_moves (move : Move_t) (a b : Z) : option Move_t :=
  save ← rd move a;
  mb ← rd move b;
  move1 ← wr move a mb;
  wr move1 b save.

(** [ShuffleMovePattern].  [rand] is the sequence of values the successive
    calls of [rand()] return (none is negative), [pos] the number of calls
    made so far. *)
Fixpoint shuffle_loop (n : nat) (rand : nat → nat) (pos : nat)
    (move : Move_t) : option (Move_t * nat) :=
  match n with
  | O => Some (move, pos)
  | S n' =>
      let a := Z.of_nat (rand pos) `rem` MAX_MOVE_PATTERN in
      let b := Z.of_nat (rand (S pos)) `rem` MAX_MOVE_PATTERN in
      move' ← swap_moves move a b;
      shuffle_loop n' rand (S (S pos)) move'
  end.

Definition ShuffleMovePattern (rand : nat → nat) (pos : nat) (move : Move_t)
    : option (Move_t * nat) :=
  shuffle_loop (RANDOM_MOVE_PATTERN cfg) rand pos move.

(** ** [main], one thread executing every iteration in order *)

(** The test of line 61.  [pow(MAX_MOVE_PATTERN, LX*LY)] is a power of two
    and [MAX_TRY] a [double]: the comparison is exact. *)
Definition config_error : bool :=
  bool_decide (MAX_TRY cfg >= MAX_MOVE_PATTERN ^ cells).

Definition error_message : string :=
  "Error:: MAX_TRY is larger than the number of all possible sets of moves. Exit."
  +:+ nl.

(** The loop over [num_pattern] (lines 80-133).  [pos] counts the calls of
    [rand()], [units] the searches begun. *)
Fixpoint pattern_loop (n : nat) (fuel : nat) (thread_id : Z)
    (rand : nat → nat) (board0 : Board_t) (track0 : Track_t) (move0 : Move_t)
    (pos : nat) (sh : Shared) (units : nat) : Result (nat * Shared * nat) :=
  match n with
  | O => Done (pos, sh, units)
  | S n' =>
      rbind (of_opt (ShuffleMovePattern rand pos move0)) (λ '(move', pos'),
      rbind (of_opt (attempt_start board0 track0 move')) (λ l,
      rbind (run fuel thread_id l sh) (λ '(l', sh'),
      pattern_loop n' fuel thread_id rand (board l') (track l') move' pos'
        sh' (S units))))
  end.

(** Lines 73-78: the automatic arrays of one iteration of the loop over
    [num_start], whose contents [board0] and [track0] are indeterminate. *)
Definition start_track (track0 : Track_t) : option Track_t :=
  f ← rd track0 0;
  track1 ← wr track0 0 {| fx := START_X cfg; fy := fy f; fk := fk f |};
  f1 ← rd track1 0;
  wr track1 0 {| fx := fx f1; fy := START_Y cfg; fk := fk f1 |}.

(** The loop over [num_start] (lines 70-135). *)
Fixpoint start_loop (n : nat) (fuel : nat) (rand : nat → nat)
    (stack : nat → Board_t * Track_t) (num_start : nat)
    (pos : nat) (sh : Shared) (units : nat) : Result (nat * Shared * nat) :=
  match n with
  | O => Done (pos, sh, units)
  | S n' =>
      rbind (of_opt (start_track (stack num_start).2)) (λ track,
      rbind (pattern_loop (Z.to_nat (MAX_PATTERN cfg)) fuel 0 rand
               (stack num_start).1 track knight_moves pos sh units)
        (λ '(pos', sh', units'),
      start_loop n' fuel rand stack (S num_start) pos' sh' units'))
  end.

Definition totals (sh : Shared) : string :=
  nl +:+ "Totally " +:+ pretty (num_found sh) +:+ " tours were found."
  +:+ nl +:+ "Totally " +:+ pretty (num_opened sh)
  +:+ " opened tours were found."
  +:+ nl +:+ "Totally " +:+ pretty (num_closed sh)
  +:+ " closed tours were found." +:+ nl
  +:+ nl +:+ "Note: Some may be repeated." +:+ nl.

(** What a run leaves behind: the shared state at [return] and the number of
    searches that were begun. *)
Record Exit := mkExit { final : Shared; units_launched : nat }.

(** [main].  [file0] is the text [ClosedTour.txt] holds before the run; the
    file is opened for appending. *)
Definition main (fuel : nat) (rand : nat → nat)
    (stack : nat → Board_t * Track_t) (file0 : string) : Result Exit :=
  let sh0 := mkShared 0 0 0 file0 "" in
  if config_error then
    Done (mkExit (mkShared 0 0 0 file0 error_message) 0)
  else
    rbind (start_loop (Z.to_nat (MAX_START cfg)) fuel rand stack 0 0 sh0 0)
      (λ '(_, sh, units),
       Done (mkExit (mkShared (num_found sh) (num_closed sh) (num_opened sh)
                       (fc sh) (console sh +:+ totals sh)) units)).

(** ** Threads interleaved *)

(** A thread of the parallel loop: its number, the private state of the
    search it is running, the states in which its later searches enter the
    budget loop, the accesses it still has to make inside the critical
    region it is in ([None] outside), and its temporary. *)
Record Thread := mkThread {
  th_id : Z;
  th_local : Local;
  th_later : list Local;
  th_ops : option (list Op);
  th_tmp : Z
}.

(** The shared state, the thread that is inside the critical region, the
    threads, and the history of the critical regions entered so far (the
    accesses of each, oldest first), which no transition reads. *)
Record Global := mkGlobal {
  shared : Shared;
  owner : option nat;
  threads : list Thread;
  entered : list (list Op)
}.

Definition set_thread (g : Global) (i : nat) (t : Thread) : Global :=
  mkGlobal (shared g) (owner g) (<[i := t]> (threads g)) (entered g).

(** One transition of thread [i]: one access inside the critical region,
    leaving the region, one private transition, entering the region, or
    starting its next search.  [#pragma omp critical] lets a thread enter
    only when no thread is inside; until then the thread waits. *)
Definition thread_step (i : nat) (g : Global) : Global :=
  match threads g !! i with
  | None => g
  | Some t =>
      match th_ops t with
      | Some (op :: ops) =>
          let '(sh', tmp') := exec_op (shared g, th_tmp t) op in
          mkGlobal sh' (owner g)
            (<[i := mkThread (th_id t) (th_local t) (th_later t) (Some ops)
                     tmp']> (threads g))
            (entered g)
      | Some [] =>
          mkGlobal (shared g) None
            (<[i := mkThread (th_id t) (set_pc (th_local t) PcResume)
                     (th_later t) None (th_tmp t)]> (threads g))
            (entered g)
      | None =>
          match next (th_local t) with
          | Go l' =>
              set_thread g i
                (mkThread (th_id t) l' (th_later t) None (th_tmp t))
          | Critical =>
              match owner g,
                    critical_ops (th_id t) (track (th_local t))
                      (board (th_local t)) with
              | None, Some ops =>
                  mkGlobal (shared g) (Some i)
                    (<[i := mkThread (th_id t) (th_local t) (th_later t)
                             (Some ops) 0]> (threads g))
                    (entered g ++ [ops])
              | _, _ => g
              end
          | Halt =>
              match th_later t with
              | l' :: ls =>
                  set_thread g i (mkThread (th_id t) l' ls None (th_tmp t))
              | [] => g
              end
          | Fault => g
          end
      end
  end.

(** The threads taking their transitions in the order [schedule]. *)
Definition interleave (schedule : list nat) (g : Global) : Global :=
  foldl (λ g i, thread_step i g) g schedule.

(** The critical regions of a history executed one after the other. *)
Definition one_by_one (sh : Shared) (history : list (list Op)) : Shared :=
  foldl (λ sh ops, (foldl exec_op (sh, 0) ops).1) sh history.

End Search.

(** ** Executions of one search *)

Section Executions.

Context (cfg : Config).

(** One transition of a thread that is alone: the critical region is
    entered and left at once, and touches no private state. *)
Definition advance (l : Local) : option Local :=
  match next cfg l with
  | Go l' => Some l'
  | Critical => Some (set_pc l PcResume)
  | Halt | Fault => None
  end.

Fixpoint advances (n : nat) (l : Local) : option Local :=
  match n with
  | O => Some l
  | S n' => l' ← advance l; advances n' l'
  end.

(** The transitions by kind: entering the body of the budget loop, a try
    that fails, a try that succeeds, leaving a cascade, one [BackTrace]
    (in either cascade, or after the critical region), and the critical
    region. *)
Inductive transition (l : Local) : Local → Prop :=
  | t_enter :
      pc l = PcBudget → num_try l < MAX_TRY cfg →
      transition l (set_pc l PcTry)
  | t_fail c track' :
      pc l = PcTry → deref (track l) (k l) = Some c →
      TryMove cfg (step l) c (track l) (board l) (move l) = Some false →
      incr_deref (track l) (k l) = Some track' →
      transition l
        (mkLocal (board l) track' (move l) (step l) (k l)
           (incr_ulong (num_try l)) PcCascade)
  | t_accept c track' board' k' :
      pc l = PcTry → deref (track l) (k l) = Some c →
      TryMove cfg (step l) c (track l) (board l) (move l) = Some true →
      AcceptMove cfg (step l + 1) c (track l) (board l) (move l)
        = Some (track', board', k') →
      transition l
        (mkLocal board' track' (move l) (step l + 1) k'
           (incr_ulong (num_try l))
           (if bool_decide (step l + 1 = cells cfg - 1) then PcFull
            else PcBudget))
  | t_leave c p :
      (pc l = PcCascade ∧ p = PcTry) ∨ (pc l = PcCascadeFull ∧ p = PcBudget) →
      deref (track l) (k l) = Some c → c ≠ MAX_MOVE_PATTERN →
      transition l (set_pc l p)
  | t_back p l' :
      (pc l = PcCascade ∧ p = PcCascade
       ∧ deref (track l) (k l) = Some MAX_MOVE_PATTERN)
      ∨ (pc l = PcResume ∧ p = PcCascadeFull)
      ∨ (pc l = PcCascadeFull ∧ p = PcCascadeFull
         ∧ deref (track l) (k l) = Some MAX_MOVE_PATTERN) →
      back cfg l p = Some l' →
      transition l l'
  | t_critical :
      pc l = PcFull → transition l (set_pc l PcResume).

(** [n] transitions during which [step] never drops below [m]. *)
Fixpoint advances_above (m : Z) (n : nat) (l : Local) : option Local :=
  if bool_decide (m <= step l) then
    match n with
    | O => Some l
    | S n' => l' ← advance l; advances_above m n' l'
    end
  else None.

(** The values of the cells that are not 0, in the order of the array. *)
Definition nonzero (board : Board_t) : list Z := filter (λ v, v ≠ 0) board.

(** What holds of the private state between any two transitions: the sizes
    of the arrays, [k] addressing the cursor of frame [step], the frames up
    to [step] lying on distinct cells of the board that carry their
    indexes plus one, every other cell holding 0, and the cursors being in
    range. *)
Record wf (l : Local) : Prop := mk_wf {
  wf_board : Z.of_nat (length (board l)) = cells cfg;
  wf_track : Z.of_nat (length (track l)) = cells cfg;
  wf_step : 0 <= step l < cells cfg;
  wf_k : k l = step l;
  wf_num_try : 0 <= num_try l < 2 ^ 64;
  wf_placed : ∀ i f, 0 <= i <= step l → rd (track l) i = Some f →
    in_board cfg (fx f) (fy f) = true ∧
    rd (board l) (cell cfg (fx f) (fy f)) = Some (i + 1);
  wf_free : ∀ c v, rd (board l) c = Some v → v ≠ 0 →
    ∃ i f, 0 <= i <= step l ∧ rd (track l) i = Some f ∧
           cell cfg (fx f) (fy f) = c;
  wf_cursor : ∀ i f, 0 <= i <= step l → rd (track l) i = Some f →
    0 <= fk f <= 8 ∧ (i < step l → fk f < 8);
  wf_top : ∀ f, pc l = PcTry ∨ pc l = PcBudget →
    rd (track l) (step l) = Some f → fk f < 8;
  wf_full : pc l = PcFull ∨ pc l = PcResume → step l = cells cfg - 1;
  wf_values : nonzero (board l) ≡ₚ seqZ 1 (step l + 1)
}.

(** The cursors of the frames read as the digits of a number in base ten
    with as many digits as the board has cells, the first frame the most
    significant; a frame counts as its cursor plus one. *)
Definition digit (track : Track_t) (i : Z) : Z :=
  match rd track i with
  | Some f => fk f + 1
  | None => 0
  end.

Fixpoint odometer (track : Track_t) (n : nat) : Z :=
  match n with
  | O => 0
  | S n' =>
      odometer track n'
      + digit track (Z.of_nat n') * 10 ^ (cells cfg - 1 - Z.of_nat n')
  end.

Definition progress (l : Local) : Z :=
  odometer (track l) (Z.to_nat (step l + 1)).

Definition rank (p : Pc) : Z :=
  match p with
  | PcTry | PcResume => 0
  | PcBudget | PcCascade | PcFull => 1
  | PcCascadeFull => 2
  end.

(** An upper bound of the number of transitions left. *)
Definition potential (l : Local) : Z :=
  3 * (10 ^ cells cfg - progress l) + rank (pc l).

End Executions.

(** ** The text of a board in [ClosedTour.txt] *)

(** The strings of a list one after the other. *)
Definition cat (ss : list string) : string := foldr String.append "" ss.

(** The rows of a board in the order [fPrintBoard] visits them: [y] from
    [LY-1] down to 0, and in each row [x] from 0 up to [LX-1]. *)
Definition board_rows (cfg : Config) (board : Board_t)
    : option (list (list Z)) :=
  mapM (λ j, mapM (λ i, board_rd cfg board i j) (seqZ 0 (LX cfg)))
    (reverse (seqZ 0 (LY cfg))).

(** Every value followed by one space, every row by a newline, and one
    more newline after the last row. *)
Definition text_written (rows : list (list Z)) : string :=
  cat ((λ row, cat ((λ v, pretty v +:+ " ") <$> row) +:+ nl) <$> rows)
  +:+ nl.

(** The text as the specification words it: in every row the values
    separated by single spaces, every row followed by a newline, and one
    blank line after the last row. *)
Definition text_specified (rows : list (list Z)) : string :=
  cat ((λ row, String.concat " " (pretty <$> row) +:+ nl) <$> rows) +:+ nl.

(** ** Concrete inputs *)

(** A closed tour of the 6×6 board from the start cell (5,5): the cells in
    the order of the visit, each with the index in [knight_moves] of the
    move that leaves it (0 for the last cell). *)
Definition closed_tour : list (Z * Z * Z) :=
  [(5, 5, 0); (3, 4, 1); (1, 5, 2); (0, 3, 4); (1, 1, 6); (3, 0, 7);
   (5, 1, 1); (3, 2, 4); (4, 0, 5); (5, 2, 3); (4, 4, 1); (2, 5, 0);
   (0, 4, 6); (2, 3, 0); (0, 2, 4); (1, 0, 7); (3, 1, 6); (5, 0, 3);
   (4, 2, 5); (5, 4, 1); (3, 5, 0); (1, 4, 4); (2, 2, 0); (0, 1, 6);
   (2, 0, 7); (4, 1, 5); (5, 3, 3); (4, 5, 2); (3, 3, 0); (1, 2, 2);
   (0, 0, 7); (2, 1, 3); (1, 3, 3); (0, 5, 6); (2, 4, 6); (4, 3, 0)].

(** The board of that tour, [board[x][y]] at index [6*x + y]. *)
Definition closed_tour_board : Board_t :=
  [31; 24; 15; 4; 13; 34; 16; 5; 30; 33; 22; 3; 25; 32; 23; 14; 35; 12;
   6; 17; 8; 29; 2; 21; 9; 26; 19; 36; 11; 28; 18; 7; 10; 27; 20; 1].

(** The private state of a thread that has just completed that tour. *)
Definition closed_tour_state : Local :=
  mkLocal closed_tour_board ((λ c, mkFrame c.1.1 c.1.2 c.2) <$> closed_tour)
    knight_moves 35 35 36 PcFull.

(** The automatic arrays of [main] holding zeros, and the state in which
    the first search of the distributed configuration begins when the
    shuffle leaves the moves in their initial order. *)
Definition zero_board : Board_t := replicate 36 0.
Definition zero_track : Track_t := replicate 36 (mkFrame 0 0 0).

Definition first_track : Track_t := <[0%nat := mkFrame 5 5 0]> zero_track.

(** The distributed configuration with the budget raised to [1E20], which
    the test of line 61 accepts. *)
Definition budget_1e20 : Config :=
  {| LX := 6; LY := 6; MAX_START := 5; MAX_PATTERN := 4;
     MAX_TRY := 10 ^ 20; RANDOM_MOVE_PATTERN := 10;
     START_X := 5; START_Y := 5 |}.

(** The distributed configuration with the budget set to [8^35]. *)
Definition budget_8_pow_35 : Config :=
  {| LX := 6; LY := 6; MAX_START := 5; MAX_PATTERN := 4;
     MAX_TRY := 8 ^ 35; RANDOM_MOVE_PATTERN := 10;
     START_X := 5; START_Y := 5 |}.

(** A 3×3 board searched from the corner (0,0) with a budget of 1000. *)
Definition small_board : Config :=
  {| LX := 3; LY := 3; MAX_START := 1; MAX_PATTERN := 1;
     MAX_TRY := 1000; RANDOM_MOVE_PATTERN := 10;
     START_X := 0; START_Y := 0 |}.

(** The distributed configuration with the budget lowered to 50. *)
Definition budget_50 : Config :=
  {| LX := 6; LY := 6; MAX_START := 5; MAX_PATTERN := 4;
     MAX_TRY := 50; RANDOM_MOVE_PATTERN := 10;
     START_X := 5; START_Y := 5 |}.

(** The automatic arrays of every iteration holding zeros. *)
Definition zero_stack (num_start : nat) : Board_t * Track_t :=
  (zero_board, zero_track).

(** The counters agree when [num_found] is [num_closed + num_opened]. *)
Definition balanced (sh : Shared) : Prop :=
  num_found sh = num_closed sh + num_opened sh.

(** ** What holds of the interleaved threads *)

Section Coherence.

Context (cfg : Config).

(** The accesses of the critical region of some full board. *)
Definition a_region (ops : list Op) : Prop :=
  ∃ tid (track : Track_t) (board : Board_t),
    critical_ops cfg tid track board = Some ops.

(** The text of some board, whole. *)
Definition a_dump (text : string) : Prop :=
  ∃ (board : Board_t) rows,
    board_rows cfg board = Some rows ∧ text = text_written rows.

(** With [sh0] the shared state at the start: every region entered is the
    region of a full board; when no thread is inside, no thread has
    accesses left and the shared state is the one the regions entered
    produce one by one; when thread [i] is inside, it alone has accesses
    left, and the shared state and its temporary are what the accesses it
    has made produce from the state the earlier regions left. *)
Record coherent (sh0 : Shared) (g : Global) : Prop := mk_coherent {
  coh_history : Forall a_region (entered g);
  coh_state :
    match owner g with
    | None =>
        (∀ j t, threads g !! j = Some t → th_ops t = None) ∧
        shared g = one_by_one sh0 (entered g)
    | Some i =>
        ∃ t past made rest,
          threads g !! i = Some t ∧ th_ops t = Some rest ∧
          entered g = past ++ [made ++ rest] ∧
          (shared g, th_tmp t) = foldl exec_op (one_by_one sh0 past, 0) made ∧
          (∀ j t', j ≠ i → threads g !! j = Some t' → th_ops t' = None)
    end
}.

End Coherence.

(** The threads before any of them has reached a full board. *)
Definition at_start (g : Global) : Prop :=
  owner g = None ∧ entered g = [] ∧ Forall (λ t, th_ops t = None) (threads g).

(** Two threads that have each just completed the tour [closed_tour], and a
    schedule that lets them take turns 120 times. *)
Definition two_threads : Global :=
  mkGlobal (mkShared 0 0 0 "" "") None
    [mkThread 0 closed_tour_state [] None 0;
     mkThread 1 closed_tour_state [] None 0]
    [].

Definition taking_turns : list nat :=
  concat (replicate 120 [0%nat; 1%nat]).

(** ** The rest of the file *)

(** [PrintBoard]: the strings written by its successive [printf] calls. *)
Definition PrintBoard (cfg : Config) (board : Board_t)
    : option (list string) :=
  rows ← mapM (λ j,
            row ← mapM (λ i, v ← board_rd cfg board i j;
                             Some (" " +:+ pretty v +:+ " "))
                    (seqZ 0 (LX cfg));
            Some (row ++ [nl]))
          (reverse (seqZ 0 (LY cfg)));
  Some (concat rows).

(** Every value between two spaces, every row followed by a newline. *)
Definition text_printed (rows : list (list Z)) : string :=
  cat ((λ row, cat ((λ v, " " +:+ pretty v +:+ " ") <$> row) +:+ nl) <$> rows).

(** Frame [g] lies where the move under the cursor of frame [f] leads. *)
Definition follows (move : Move_t) (f g : Frame) : Prop :=
  ∃ m, rd move (fk f) = Some m ∧ fx g = fx f + m.1 ∧ fy g = fy f + m.2.

(** Every frame up to [step] follows the frame before it. *)
Definition on_path (l : Local) : Prop :=
  ∀ i f g, 0 <= i < step l →
    rd (track l) i = Some f → rd (track l) (i + 1) = Some g →
    follows (move l) f g.

(** The shared state [sh'] is [sh] after some critical regions: the file
    has grown by whole dumps, [num_closed] by their number, and
    [num_found] by the number of dumps and of the regions that wrote
    nothing. *)
Definition grown (cfg : Config) (sh sh' : Shared) : Prop :=
  ∃ texts (opened : nat),
    Forall (a_dump cfg) texts ∧
    fc sh' = fc sh +:+ cat texts ∧
    num_closed sh' = num_closed sh + Z.of_nat (length texts) ∧
    num_opened sh' = num_opened sh + Z.of_nat opened ∧
    num_found sh' = num_found sh + Z.of_nat (length texts) + Z.of_nat opened.

(** A board of 7×3 cells searched from the cell (5,1). *)
Definition odd_board : Config :=
  {| LX := 7; LY := 3; MAX_START := 1; MAX_PATTERN := 1;
     MAX_TRY := 1000; RANDOM_MOVE_PATTERN := 10;
     START_X := 5; START_Y := 1 |}.

Definition odd_board_track : Track_t :=
  <[0%nat := mkFrame 5 1 0]> (replicate 21 (mkFrame 0 0 0)).

Definition zero_stack_21 (num_start : nat) : Board_t * Track_t :=
  (replicate 21 0, replicate 21 (mkFrame 0 0 0)).

(** A board of 10×3 cells searched once from the cell (6,2) with a budget
    of 3060, and automatic arrays of 30 entries holding zeros. *)
Definition ten_by_three : Config :=
  {| LX := 10; LY := 3; MAX_START := 1; MAX_PATTERN := 1;
     MAX_TRY := 3060; RANDOM_MOVE_PATTERN := 10;
     START_X := 6; START_Y := 2 |}.

Definition zero_stack_30 (num_start : nat) : Board_t * Track_t :=
  (replicate 30 0, replicate 30 (mkFrame 0 0 0)).

(** The number of calls of [TryMove] during the first [n] transitions
    from [l]. *)
Fixpoint tries_made (cfg : Config) (n : nat) (l : Local) : Z :=
  match n with
  | O => 0
  | S n' =>
      match advance cfg l with
      | Some l' =>
          (match pc l with PcTry => 1 | _ => 0 end) + tries_made cfg n' l'
      | None => 0
      end
  end.

(** The line a critical region prints on the standard output (lines 111
    and 117). *)
Definition found_line (thread_id : Z) (closed : bool) : string :=
  "Thread " +:+ pretty thread_id
  +:+ (if closed then ": Found a closed knight tour."
       else ": Found an opened knight tour.") +:+ nl.

(** The accesses of the critical region of a thread whose number is one
    of [ids]. *)
Definition region_of (cfg : Config) (ids : list Z) (ops : list Op) : Prop :=
  ∃ tid (track : Track_t) (board : Board_t),
    tid ∈ ids ∧ critical_ops cfg tid track board = Some ops.

(** The budgets for which the comparison of line 90, made after the
    conversion of [num_try] to [double], is the comparison of the values:
    those up to [2^53], and those no [unsigned long] reaches. *)
Definition exact_budget (cfg : Config) : Prop :=
  MAX_TRY cfg <= 2 ^ 53 ∨ 2 ^ 64 < MAX_TRY cfg.

(** The array [m'] is the array [m] with the entries at the indexes [a]
    and [b] exchanged. *)
Definition exchanged (a b : nat) (m m' : Move_t) : Prop :=
  length m' = length m ∧
  m' !! a = m !! b ∧ m' !! b = m !! a ∧
  ∀ i, i ≠ a → i ≠ b → m' !! i = m !! i.

(** * Properties *)

(** ** Arrays *)

Section Arrays.
Context {A : Type}.
Implicit Types (a : list A) (i j : Z) (v : A).

Lemma rd_Some a i v : rd a i = Some v ↔ 0 <= i ∧ a !! Z.to_nat i = Some v.
Proof. unfold rd. case_decide; naive_solver. Qed.

Lemma rd_in_range a i v : rd a i = Some v → 0 <= i < Z.of_nat (length a).
Proof.
  intros [? Hl%lookup_lt_Some]%rd_Some. lia.
Qed.

Lemma rd_is_Some a i : 0 <= i < Z.of_nat (length a) → is_Some (rd a i).
Proof.
  intros [? ?]. unfold rd. rewrite decide_True by done.
  apply lookup_lt_is_Some. lia.
Qed.

Lemma rd_None a i : ¬ 0 <= i < Z.of_nat (length a) → rd a i = None.
Proof.
  intros Hn. destruct (rd a i) eqn:E; [|done].
  apply rd_in_range in E. lia.
Qed.

Lemma wr_Some a i v a' :
  wr a i v = Some a' ↔
  0 <= i < Z.of_nat (length a) ∧ a' = <[Z.to_nat i := v]> a.
Proof. unfold wr. case_decide; naive_solver. Qed.

Lemma wr_length a i v a' : wr a i v = Some a' → length a' = length a.
Proof. intros [_ ->]%wr_Some. apply length_insert. Qed.

Lemma rd_wr_eq a i v a' : wr a i v = Some a' → rd a' i = Some v.
Proof.
  intros [[? ?] ->]%wr_Some. apply rd_Some. split; [done|].
  apply list_lookup_insert_eq. lia.
Qed.

Lemma rd_wr_ne a i j v a' : wr a i v = Some a' → i ≠ j → rd a' j = rd a j.
Proof.
  intros [[? ?] ->]%wr_Some Hne. unfold rd. case_decide; [|done].
  apply list_lookup_insert_ne. lia.
Qed.

Lemma rd_wr a i j v a' :
  wr a i v = Some a' → rd a' j = if decide (j = i) then Some v else rd a j.
Proof.
  intros H. case_decide as Hj.
  - subst j. by eapply rd_wr_eq.
  - eapply rd_wr_ne; [done|]. congruence.
Qed.

Lemma wr_is_Some a i v : 0 <= i < Z.of_nat (length a) → is_Some (wr a i v).
Proof. intros ?. unfold wr. rewrite decide_True by done. eauto. Qed.

End Arrays.

Section Operations.
Context (cfg : Config).

Lemma in_board_true x y :
  in_board cfg x y = true ↔ 0 <= x < LX cfg ∧ 0 <= y < LY cfg.
Proof. unfold in_board. rewrite bool_decide_eq_true. lia. Qed.

Lemma cell_in_range x y :
  in_board cfg x y = true → 0 <= cell cfg x y < cells cfg.
Proof. rewrite in_board_true. unfold cell, cells. nia. Qed.

Lemma TryMove_is_Some step k (track : Track_t) (board : Board_t)
    (move : Move_t) f m :
  Z.of_nat (length board) = cells cfg →
  rd track step = Some f →
  rd move k = Some m →
  is_Some (TryMove cfg step k track board move).
Proof.
  intros Hlen Hf Hm. unfold TryMove. rewrite Hf, Hm. simpl.
  destruct (in_board cfg (fx f + m.1) (fy f + m.2)) eqn:Hin; [|by eexists].
  pose proof (cell_in_range _ _ Hin) as Hc.
  destruct (rd_is_Some board (cell cfg (fx f + m.1) (fy f + m.2)))
    as [v Hv]; [lia|].
  rewrite Hv. by eexists.
Qed.


(** C6.  [IsClosedTour] is true exactly when the two cells are a knight
    move apart, and it gives the same answer when the two cells are
    exchanged.  It is a function of its four arguments alone. *)
Theorem IsClosedTour_knight_move_symmetric x y a b :
  (IsClosedTour x y a b = true ↔
     (Z.abs (x - a) = 1 ∧ Z.abs (y - b) = 2) ∨
     (Z.abs (x - a) = 2 ∧ Z.abs (y - b) = 1)) ∧
  IsClosedTour x y a b = IsClosedTour a b x y.
Proof.
  split.
  - unfold IsClosedTour.
    rewrite orb_true_iff, !andb_true_iff, !bool_decide_eq_true. done.
  - unfold IsClosedTour.
    replace (Z.abs (a - x)) with (Z.abs (x - a)) by lia.
    replace (Z.abs (b - y)) with (Z.abs (y - b)) by lia. done.
Qed.

End Operations.

(** ** The values on the board *)

Section Nonzero.
Implicit Types (board : Board_t) (v : Z).

Lemma nonzero_app b1 b2 : nonzero (b1 ++ b2) = nonzero b1 ++ nonzero b2.
Proof. apply filter_app. Qed.

Lemma nonzero_mark board (i : nat) v :
  board !! i = Some 0 → v ≠ 0 →
  nonzero (<[i := v]> board) ≡ₚ nonzero board ++ [v].
Proof.
  intros Hi Hv. pose proof (lookup_lt_Some _ _ _ Hi) as Hlt.
  rewrite insert_take_drop by done.
  rewrite <- (take_drop_middle _ _ _ Hi) at 3.
  unfold nonzero. rewrite !filter_app.
  rewrite filter_cons_True by done. rewrite filter_cons_False by naive_solver.
  rewrite <- app_assoc. apply Permutation_app_head.
  simpl. apply Permutation_cons_append.
Qed.

Lemma nonzero_clear board (i : nat) v :
  board !! i = Some v → v ≠ 0 →
  nonzero board ≡ₚ nonzero (<[i := 0]> board) ++ [v].
Proof.
  intros Hi Hv. pose proof (lookup_lt_Some _ _ _ Hi) as Hlt.
  rewrite insert_take_drop by done.
  rewrite <- (take_drop_middle _ _ _ Hi) at 1.
  unfold nonzero. rewrite !filter_app.
  rewrite filter_cons_True by done. rewrite filter_cons_False by naive_solver.
  rewrite <- app_assoc. apply Permutation_app_head.
  simpl. apply Permutation_cons_append.
Qed.

Lemma nonzero_length_lt board (i : nat) :
  board !! i = Some 0 → (length (nonzero board) < length board)%nat.
Proof.
  intros Hi. rewrite <- (take_drop_middle _ _ _ Hi) at 1 2.
  rewrite nonzero_app, !length_app. unfold nonzero at 2.
  rewrite filter_cons_False by naive_solver. simpl.
  pose proof (length_filter (λ v : Z, v ≠ 0) (take i board)).
  pose proof (length_filter (λ v : Z, v ≠ 0) (drop (S i) board)).
  unfold nonzero. lia.
Qed.

Lemma seqZ_snoc m n : 0 <= n → seqZ m (n + 1) = seqZ m n ++ [m + n].
Proof.
  intros Hn. rewrite seqZ_app by lia. f_equal.
Qed.

End Nonzero.

(** ** The operations, when they return *)

Section Inversion.
Context (cfg : Config).

Lemma board_wr_Some (board : Board_t) x y v b' :
  board_wr cfg board x y v = Some b' ↔
  in_board cfg x y = true ∧ wr board (cell cfg x y) v = Some b'.
Proof. unfold board_wr. destruct (in_board cfg x y); naive_solver. Qed.

Lemma TryMove_true step c (track : Track_t) (board : Board_t) (move : Move_t) :
  TryMove cfg step c track board move = Some true →
  ∃ p m, rd track step = Some p ∧ rd move c = Some m ∧
    in_board cfg (fx p + m.1) (fy p + m.2) = true ∧
    rd board (cell cfg (fx p + m.1) (fy p + m.2)) = Some 0.
Proof.
  unfold TryMove. intros H.
  destruct (rd track step) as [p|] eqn:Hp; [|done].
  destruct (rd move c) as [m|] eqn:Hm; [|done]. simpl in H.
  destruct (in_board cfg _ _) eqn:Hin; [|done].
  destruct (rd board _) as [v|] eqn:Hv; [|done]. simpl in H.
  injection H as H. apply bool_decide_eq_true in H. subst v.
  eauto 10.
Qed.

Lemma AcceptMove_Some step c (track : Track_t) (board : Board_t)
    (move : Move_t) t' b' k' :
  AcceptMove cfg step c track board move = Some (t', b', k') ↔
  ∃ p m, rd track (step - 1) = Some p ∧ rd move c = Some m ∧
    wr track step (mkFrame (fx p + m.1) (fy p + m.2) 0) = Some t' ∧
    in_board cfg (fx p + m.1) (fy p + m.2) = true ∧
    wr board (cell cfg (fx p + m.1) (fy p + m.2)) (step + 1) = Some b' ∧
    k' = step.
Proof.
  unfold AcceptMove. split.
  - intros H.
    destruct (rd track (step - 1)) as [p|] eqn:Hp; [|done].
    destruct (rd move c) as [m|] eqn:Hm; [|done]. simpl in H.
    destruct (wr track step _) as [t1|] eqn:Ht; [|done]. simpl in H.
    destruct (board_wr cfg board _ _ _) as [b1|] eqn:Hb; [|done].
    simpl in H. simplify_eq.
    apply board_wr_Some in Hb as [? ?]. simpl in *.
    exists p, m. done.
  - intros (p & m & Hp & Hm & Ht & Hin & Hb & ->).
    rewrite Hp, Hm. simpl. rewrite Ht. simpl.
    unfold board_wr. simpl. rewrite Hin, Hb. done.
Qed.

Lemma BackTrace_Some step (track : Track_t) (board : Board_t) t' b' k' :
  BackTrace cfg step track board = Some (t', b', k') ↔
  ∃ f p, rd track step = Some f ∧ rd track (step - 1) = Some p ∧
    in_board cfg (fx f) (fy f) = true ∧
    wr board (cell cfg (fx f) (fy f)) 0 = Some b' ∧
    wr track (step - 1) (mkFrame (fx p) (fy p) (fk p + 1)) = Some t' ∧
    k' = step - 1.
Proof.
  unfold BackTrace. split.
  - intros H.
    destruct (rd track step) as [f|] eqn:Hf; [|done]. simpl in H.
    destruct (board_wr cfg board _ _ _) as [b1|] eqn:Hb; [|done].
    simpl in H.
    destruct (rd track (step - 1)) as [p|] eqn:Hp; [|done]. simpl in H.
    destruct (wr track (step - 1) _) as [t1|] eqn:Ht; [|done].
    simpl in H. simplify_eq.
    apply board_wr_Some in Hb as [? ?].
    exists f, p. done.
  - intros (f & p & Hf & Hp & Hin & Hb & Ht & ->).
    rewrite Hf. simpl. unfold board_wr. rewrite Hin, Hb. simpl.
    rewrite Hp. simpl. rewrite Ht. done.
Qed.

Lemma deref_Some (track : Track_t) i c :
  deref track i = Some c ↔ ∃ f, rd track i = Some f ∧ fk f = c.
Proof.
  unfold deref. destruct (rd track i) as [f|]; simpl; naive_solver.
Qed.

Lemma incr_deref_Some (track : Track_t) i t' :
  incr_deref track i = Some t' ↔
  ∃ f, rd track i = Some f ∧
       wr track i (mkFrame (fx f) (fy f) (fk f + 1)) = Some t'.
Proof.
  unfold incr_deref. destruct (rd track i) as [f|]; simpl; naive_solver.
Qed.

End Inversion.

(** ** The invariant of the search *)

Section Invariant.
Context (cfg : Config).

Lemma advance_transition l l' :
  advance cfg l = Some l' ↔ transition cfg l l'.
Proof.
  split.
  - unfold advance, next. destruct (pc l) eqn:Hpc.
    + case_bool_decide; [|done]. intros [= <-]. by constructor.
    + destruct (deref (track l) (k l)) as [c|] eqn:Hc; [|done]. simpl.
      destruct (TryMove cfg _ _ _ _ _) as [[|]|] eqn:HT; [| |done]; simpl.
      * destruct (AcceptMove cfg _ _ _ _ _) as [[[t' b'] k']|] eqn:HA;
          [|done]. simpl. intros [= <-]. by eapply t_accept.
      * destruct (incr_deref (track l) (k l)) as [t'|] eqn:HI; [|done].
        simpl. intros [= <-]. by eapply t_fail.
    + destruct (deref (track l) (k l)) as [c|] eqn:Hc; [|done]. simpl.
      case_bool_decide as Hc8.
      * destruct (back cfg l PcCascade) as [l1|] eqn:Hb; [|done].
        simpl. intros [= <-]. subst c. eapply t_back; [|done]. auto.
      * simpl. intros [= <-]. eapply t_leave; [|done|done]. auto.
    + intros [= <-]. by constructor.
    + destruct (back cfg l PcCascadeFull) as [l1|] eqn:Hb; [|done].
      simpl. intros [= <-]. eapply t_back; [|done]. auto.
    + destruct (deref (track l) (k l)) as [c|] eqn:Hc; [|done]. simpl.
      case_bool_decide as Hc8.
      * destruct (back cfg l PcCascadeFull) as [l1|] eqn:Hb; [|done].
        simpl. intros [= <-]. subst c. eapply t_back; [|done]. auto.
      * simpl. intros [= <-]. eapply t_leave; [|done|done]. auto.
  - unfold advance, next. intros [Hpc Hn|c t' Hpc Hc HT HI|c t' b' k' Hpc Hc HT HA
      |c p Hp Hc Hc8|p l1 Hp Hb|Hpc].
    + rewrite Hpc. by rewrite bool_decide_eq_true_2.
    + rewrite Hpc, Hc. simpl. rewrite HT. simpl. rewrite HI. done.
    + rewrite Hpc, Hc. simpl. rewrite HT. simpl. rewrite HA. done.
    + destruct Hp as [[-> ->]|[-> ->]]; rewrite Hc; simpl;
        by rewrite bool_decide_eq_false_2.
    + destruct Hp as [(-> & -> & Hc)|[(-> & ->)|(-> & -> & Hc)]];
        rewrite ?Hc; simpl; rewrite ?bool_decide_eq_true_2 by done;
        rewrite Hb; done.
    + rewrite Hpc. done.
Qed.

Lemma incr_ulong_range n : 0 <= incr_ulong n < 2 ^ 64.
Proof. unfold incr_ulong. apply Z.mod_pos_bound. lia. Qed.

Lemma wf_set_pc l p :
  wf cfg l →
  (p = PcTry ∨ p = PcBudget →
   ∀ f, rd (track l) (step l) = Some f → fk f < 8) →
  (p = PcFull ∨ p = PcResume → step l = cells cfg - 1) →
  wf cfg (set_pc l p).
Proof.
  intros [wf_board wf_track wf_step wf_k wf_num_try wf_placed wf_free wf_cursor
          wf_top wf_full wf_values] ? ?.
  constructor; simpl; eauto.
Qed.

Lemma wf_fail l t' :
  wf cfg l → pc l = PcTry →
  incr_deref (track l) (k l) = Some t' →
  wf cfg (mkLocal (board l) t' (move l) (step l) (k l)
            (incr_ulong (num_try l)) PcCascade).
Proof.
  intros [wf_board wf_track wf_step wf_k wf_num_try wf_placed wf_free wf_cursor
          wf_top wf_full wf_values]
    Hpc (f & Hf & Hw)%incr_deref_Some.
  rewrite wf_k in *.
  assert (Hrd : ∀ i g, rd t' i = Some g →
            ∃ g0, rd (track l) i = Some g0 ∧ fx g = fx g0 ∧ fy g = fy g0 ∧
                  (fk g = fk g0 ∨ (i = step l ∧ fk g = fk g0 + 1))).
  { intros i g. rewrite (rd_wr _ _ _ _ _ Hw). case_decide.
    - intros [= <-]. subst i. exists f. simpl. split_and!; auto.
    - intros ?. exists g. split_and!; auto. }
  constructor; simpl; try done.
  - rewrite (wr_length _ _ _ _ Hw). done.
  - apply incr_ulong_range.
  - intros i g Hi (g0 & Hg0 & -> & -> & _)%Hrd. by apply wf_placed.
  - intros c v Hc Hv.
    destruct (wf_free c v Hc Hv) as (i & g0 & Hi & Hg0 & Hcell).
    destruct (decide (i = step l)) as [->|Hne].
    + eexists _, _. split; [done|]. split; [by eapply rd_wr_eq|].
      simpl. congruence.
    + exists i, g0. split; [done|]. split; [|done].
      by rewrite (rd_wr _ _ _ _ _ Hw), decide_False.
  - intros i g Hi (g0 & Hg0 & _ & _ & Hk)%Hrd.
    destruct (wf_cursor i g0 Hi Hg0) as [? ?].
    destruct Hk as [->|[-> ->]]; [done|].
    specialize (wf_top g0 (or_introl Hpc) Hg0). lia.
  - intros ? [?|?]; congruence.
  - intros [?|?]; congruence.
Qed.

Lemma wf_accept l c t' b' k' :
  wf cfg l → pc l = PcTry →
  TryMove cfg (step l) c (track l) (board l) (move l) = Some true →
  AcceptMove cfg (step l + 1) c (track l) (board l) (move l)
    = Some (t', b', k') →
  wf cfg (mkLocal b' t' (move l) (step l + 1) k' (incr_ulong (num_try l))
            (if bool_decide (step l + 1 = cells cfg - 1) then PcFull
             else PcBudget)).
Proof.
  intros [wf_board wf_track wf_step wf_k wf_num_try wf_placed wf_free wf_cursor
          wf_top wf_full wf_values]
    Hpc (p & m & Hp & Hm & Hin & Hzero)%TryMove_true
    (p' & m' & Hp' & Hm' & Hwt & _ & Hwb & ->)%AcceptMove_Some.
  replace (step l + 1 - 1) with (step l) in Hp' by lia.
  simplify_eq.
  set (x := fx p + m.1) in *. set (y := fy p + m.2) in *.
  pose proof (rd_in_range _ _ _ Hzero) as Hcand.
  apply wr_Some in Hwt as Hwt'. destruct Hwt' as [Hnew _].
  assert (Hold : ∀ i, i ≠ step l + 1 → rd t' i = rd (track l) i).
  { intros i Hi. by rewrite (rd_wr _ _ _ _ _ Hwt), decide_False. }
  constructor; simpl; try done.
  - rewrite (wr_length _ _ _ _ Hwb). done.
  - rewrite (wr_length _ _ _ _ Hwt). done.
  - lia.
  - apply incr_ulong_range.
  - intros i g Hi Hg. rewrite (rd_wr _ _ _ _ _ Hwt) in Hg.
    case_decide as Hd.
    + simplify_eq. simpl. split; [done|]. by eapply rd_wr_eq.
    + destruct (wf_placed i g) as [Hb Hv]; [lia|done|]. split; [done|].
      rewrite (rd_wr _ _ _ _ _ Hwb). rewrite decide_False; [done|].
      intros Heq. rewrite Heq in Hv. simplify_eq. lia.
  - intros c0 v Hc Hv. rewrite (rd_wr _ _ _ _ _ Hwb) in Hc.
    case_decide as Hd.
    + exists (step l + 1), (mkFrame x y 0). split; [lia|].
      split; [by eapply rd_wr_eq|]. simpl. done.
    + destruct (wf_free c0 v Hc Hv) as (i & g & Hi & Hg & Hcell).
      exists i, g. split; [lia|]. split; [|done]. rewrite Hold by lia. done.
  - intros i g Hi Hg. rewrite (rd_wr _ _ _ _ _ Hwt) in Hg.
    case_decide as Hd.
    + simplify_eq. simpl. lia.
    + destruct (wf_cursor i g) as [? Hlt]; [lia|done|]. split; [done|].
      intros _. destruct (decide (i = step l)) as [->|]; [|apply Hlt; lia].
      eapply wf_top; eauto.
  - intros g _ Hg. rewrite (rd_wr_eq _ _ _ _ Hwt) in Hg. by simplify_eq.
  - case_bool_decide; [done|]. intros [?|?]; congruence.
  - rewrite (proj2 (proj1 (wr_Some _ _ _ _) Hwb)).
    rewrite nonzero_mark; [| |lia].
    + rewrite wf_values. rewrite (seqZ_snoc 1 (step l + 1)) by lia.
      by replace (1 + (step l + 1)) with (step l + 1 + 1) by lia.
    + by apply rd_Some in Hzero as [_ ?].
Qed.

Lemma wf_back l p l' :
  wf cfg l → p = PcCascade ∨ p = PcCascadeFull →
  back cfg l p = Some l' → wf cfg l'.
Proof.
  intros [wf_board wf_track wf_step wf_k wf_num_try wf_placed wf_free wf_cursor
          wf_top wf_full wf_values]
    Hp Hback. unfold back in Hback.
  destruct (BackTrace cfg _ _ _) as [[[t' b'] k']|] eqn:HB; [|done].
  simpl in Hback. simplify_eq.
  apply BackTrace_Some in HB
    as (f & p0 & Hf & Hp0 & Hin & Hwb & Hwt & ->).
  pose proof (rd_in_range _ _ _ Hp0) as Hprev.
  destruct (wf_placed (step l) f) as [_ Hvf]; [lia|done|].
  assert (Hrd : ∀ i g, rd t' i = Some g →
            ∃ g0, rd (track l) i = Some g0 ∧ fx g = fx g0 ∧ fy g = fy g0 ∧
                  (fk g = fk g0 ∨ (i = step l - 1 ∧ fk g = fk g0 + 1))).
  { intros i g. rewrite (rd_wr _ _ _ _ _ Hwt). case_decide.
    - intros [= <-]. subst i. exists p0. simpl. split_and!; auto.
    - intros ?. exists g. split_and!; auto. }
  constructor; simpl; try done.
  - rewrite (wr_length _ _ _ _ Hwb). done.
  - rewrite (wr_length _ _ _ _ Hwt). done.
  - lia.
  - intros i g Hi (g0 & Hg0 & -> & -> & _)%Hrd.
    destruct (wf_placed i g0) as [Hb Hv]; [lia|done|]. split; [done|].
    rewrite (rd_wr _ _ _ _ _ Hwb). rewrite decide_False; [done|].
    intros Heq. rewrite Heq in Hv. simplify_eq. lia.
  - intros c v Hc Hv. rewrite (rd_wr _ _ _ _ _ Hwb) in Hc.
    case_decide as Hd; [by simplify_eq|].
    destruct (wf_free c v Hc Hv) as (i & g & Hi & Hg & Hcell).
    assert (i ≠ step l) by (intros ->; simplify_eq; done).
    destruct (decide (i = step l - 1)) as [->|Hne].
    + exists (step l - 1), (mkFrame (fx p0) (fy p0) (fk p0 + 1)).
      split; [lia|]. split; [by eapply rd_wr_eq|].
      simpl. congruence.
    + exists i, g. split; [lia|]. split; [|done].
      by rewrite (rd_wr _ _ _ _ _ Hwt), decide_False.
  - intros i g Hi (g0 & Hg0 & _ & _ & Hk)%Hrd.
    destruct (wf_cursor i g0) as [? Hlt]; [lia|done|].
    destruct Hk as [->|[-> ->]].
    + split; [done|]. intros ?. apply Hlt. lia.
    + specialize (Hlt ltac:(lia)). lia.
  - intros g [->| ->]; destruct Hp; done.
  - intros [->| ->]; destruct Hp; done.
  - rewrite (proj2 (proj1 (wr_Some _ _ _ _) Hwb)).
    apply (Permutation_app_inv_r [step l + 1]).
    rewrite <- nonzero_clear; [| |lia].
    + rewrite wf_values. replace (step l + 1) with (step l - 1 + 1 + 1) at 1 by lia.
      rewrite (seqZ_snoc 1 (step l - 1 + 1)) by lia.
      by replace (1 + (step l - 1 + 1)) with (step l + 1) by lia.
    + by apply rd_Some in Hvf as [_ ?].
Qed.

Lemma advance_wf l l' : wf cfg l → advance cfg l = Some l' → wf cfg l'.
Proof.
  intros Hwf. unfold advance, next.
  destruct (pc l) eqn:Hpc.
  - case_bool_decide; [|done]. intros [= <-].
    apply wf_set_pc; [done| |intros [?|?]; done].
    intros _ f. apply (wf_top _ _ Hwf). auto.
  - destruct (deref (track l) (k l)) as [c|] eqn:Hc; [|done]. simpl.
    destruct (TryMove cfg _ _ _ _ _) as [[|]|] eqn:HT; [| |done]; simpl.
    + destruct (AcceptMove cfg _ _ _ _ _) as [[[t' b'] k']|] eqn:HA;
        [|done]. simpl. intros [= <-]. by eapply wf_accept.
    + destruct (incr_deref (track l) (k l)) as [t'|] eqn:HI; [|done].
      simpl. intros [= <-]. by apply wf_fail.
  - destruct (deref (track l) (k l)) as [c|] eqn:Hc; [|done]. simpl.
    case_bool_decide as Hc8.
    + destruct (back cfg l PcCascade) as [l1|] eqn:Hb; [|done].
      simpl. intros [= <-]. eapply wf_back; [done| |done]. auto.
    + simpl. intros [= <-].
      apply wf_set_pc; [done| |intros [?|?]; done].
      intros _ f Hf. apply deref_Some in Hc as (f' & Hf' & <-).
      rewrite (wf_k _ _ Hwf) in Hf'. rewrite Hf in Hf'. injection Hf' as <-.
      destruct (wf_cursor _ _ Hwf (step l) f) as [? _]; [|done|].
      * pose proof (wf_step _ _ Hwf). lia.
      * unfold MAX_MOVE_PATTERN in Hc8. lia.
  - intros [= <-]. apply wf_set_pc; [done|intros [?|?]; done|].
    intros _. apply (wf_full _ _ Hwf). auto.
  - destruct (back cfg l PcCascadeFull) as [l1|] eqn:Hb; [|done].
    simpl. intros [= <-]. eapply wf_back; [done| |done]. auto.
  - destruct (deref (track l) (k l)) as [c|] eqn:Hc; [|done]. simpl.
    case_bool_decide as Hc8.
    + destruct (back cfg l PcCascadeFull) as [l1|] eqn:Hb; [|done].
      simpl. intros [= <-]. eapply wf_back; [done| |done]. auto.
    + simpl. intros [= <-].
      apply wf_set_pc; [done| |intros [?|?]; done].
      intros _ f Hf. apply deref_Some in Hc as (f' & Hf' & <-).
      rewrite (wf_k _ _ Hwf) in Hf'. rewrite Hf in Hf'. injection Hf' as <-.
      destruct (wf_cursor _ _ Hwf (step l) f) as [? _]; [|done|].
      * pose proof (wf_step _ _ Hwf). lia.
      * unfold MAX_MOVE_PATTERN in Hc8. lia.
Qed.

Lemma advances_wf n l l' : wf cfg l → advances cfg n l = Some l' → wf cfg l'.
Proof.
  revert l. induction n as [|n IH]; simpl; intros l Hwf.
  - by intros [= <-].
  - destruct (advance cfg l) as [l1|] eqn:Ha; [|done]. simpl.
    apply IH. by eapply advance_wf.
Qed.

(** *** The state in which a search begins *)

Lemma reset_cells (ps : list (Z * Z)) (board : Board_t) :
  Z.of_nat (length board) = cells cfg →
  (∀ ij, ij ∈ ps → in_board cfg ij.1 ij.2 = true) →
  ∃ b', foldl (λ ob ij, b ← ob; board_wr cfg b ij.1 ij.2 0) (Some board) ps
          = Some b' ∧
        length b' = length board ∧
        ∀ c v, rd b' c = Some v →
          v = 0 ∨ (rd board c = Some v ∧ ∀ ij, ij ∈ ps → cell cfg ij.1 ij.2 ≠ c).
Proof.
  revert board. induction ps as [|ij ps IH]; intros board Hlen Hin.
  - exists board. split; [done|]. split; [done|]. intros c v Hc. right.
    split; [done|]. intros ij Hij. by apply elem_of_nil in Hij.
  - simpl. pose proof (Hin ij ltac:(left)) as Hij.
    pose proof (cell_in_range _ _ _ Hij) as Hrange.
    destruct (wr_is_Some board (cell cfg ij.1 ij.2) 0) as [b1 Hb1]; [lia|].
    unfold board_wr at 2. rewrite Hij, Hb1.
    destruct (IH b1) as (b' & Hfold & Hlen' & Hb').
    { rewrite (wr_length _ _ _ _ Hb1). done. }
    { intros ij' ?. apply Hin. by right. }
    exists b'. split; [done|]. split.
    { rewrite Hlen'. by eapply wr_length. }
    intros c v Hc. destruct (Hb' c v Hc) as [?|[Hc1 Hne]]; [by left|].
    rewrite (rd_wr _ _ _ _ _ Hb1) in Hc1. case_decide as Hd.
    + left. congruence.
    + right. split; [done|]. intros ij' [->|?]%elem_of_cons; [congruence|].
      by apply Hne.
Qed.

Lemma ResetBoard_zero (board : Board_t) :
  Z.of_nat (length board) = cells cfg → 0 < LY cfg →
  ∃ b', ResetBoard cfg board = Some b' ∧ length b' = length board ∧
        ∀ c v, rd b' c = Some v → v = 0.
Proof.
  intros Hlen Hly. unfold ResetBoard.
  set (ps := (i ← seqZ 0 (LX cfg); j ← seqZ 0 (LY cfg); [(i, j)])).
  assert (Hps : ∀ i j, (i, j) ∈ ps ↔ 0 <= i < LX cfg ∧ 0 <= j < LY cfg).
  { intros i j. unfold ps. rewrite list_elem_of_bind. split.
    - intros (i' & (j' & Hij & Hj)%list_elem_of_bind & Hi).
      apply list_elem_of_singleton in Hij. simplify_eq.
      apply elem_of_seqZ in Hi, Hj. lia.
    - intros [Hi Hj]. exists i. split; [|apply elem_of_seqZ; lia].
      apply list_elem_of_bind. exists j. split; [|apply elem_of_seqZ; lia].
      by apply list_elem_of_singleton. }
  destruct (reset_cells ps board Hlen) as (b' & Hfold & Hlen' & Hb').
  { intros [i j] Hij. apply in_board_true. by apply Hps. }
  exists b'. split; [done|]. split; [done|].
  intros c v Hc. destruct (Hb' c v Hc) as [?|[Hc1 Hne]]; [done|].
  exfalso. apply rd_in_range in Hc1. rewrite Hlen in Hc1. unfold cells in Hc1.
  apply (Hne (c `div` LY cfg, c `mod` LY cfg)).
  - apply Hps. pose proof (Z.mod_pos_bound c (LY cfg) Hly).
    split; [|done]. split; [apply Z.div_pos; lia|].
    apply Z.div_lt_upper_bound; lia.
  - unfold cell. simpl. pose proof (Z.div_mod c (LY cfg)). lia.
Qed.

Lemma nonzero_all_zero (board : Board_t) :
  (∀ c v, rd board c = Some v → v = 0) → nonzero board = [].
Proof.
  intros Hz. unfold nonzero. induction board as [|v b IH]; [done|].
  rewrite filter_cons_False.
  - apply IH. intros c v' Hc. apply (Hz (c + 1) v').
    apply rd_Some in Hc as [? Hc]. apply rd_Some. split; [lia|].
    replace (Z.to_nat (c + 1)) with (S (Z.to_nat c)) by lia. done.
  - intros Hv. apply Hv. by apply (Hz 0 v).
Qed.

Lemma attempt_start_wf (board0 : Board_t) (track0 : Track_t) (move0 : Move_t)
    l0 :
  Z.of_nat (length board0) = cells cfg →
  Z.of_nat (length track0) = cells cfg →
  attempt_start cfg board0 track0 move0 = Some l0 →
  wf cfg l0.
Proof.
  intros Hb Ht. unfold attempt_start. intros H.
  destruct (ResetBoard cfg board0) as [b0|] eqn:HR; [|done]. simpl in H.
  destruct (rd track0 0) as [f0|] eqn:Hf0; [|done]. simpl in H.
  destruct (board_wr cfg b0 _ _ _) as [b1|] eqn:Hb1; [|done]. simpl in H.
  destruct (wr track0 0 _) as [t1|] eqn:Ht1; [|done]. simpl in H.
  injection H as <-.
  apply board_wr_Some in Hb1 as [Hin Hb1].
  pose proof (cell_in_range _ _ _ Hin) as Hrange.
  apply in_board_true in Hin as Hin'.
  destruct (ResetBoard_zero board0 Hb) as (b0' & HR' & Hlen0 & Hzero); [lia|].
  rewrite HR in HR'. injection HR' as <-.
  constructor; simpl; try done.
  - rewrite (wr_length _ _ _ _ Hb1). lia.
  - rewrite (wr_length _ _ _ _ Ht1). lia.
  - lia.
  - intros i f Hi Hf. assert (i = 0) as -> by lia.
    rewrite (rd_wr_eq _ _ _ _ Ht1) in Hf. injection Hf as <-. simpl.
    split; [done|]. by eapply rd_wr_eq.
  - intros c v Hc Hv. rewrite (rd_wr _ _ _ _ _ Hb1) in Hc.
    case_decide as Hd.
    + eexists 0, _. split; [lia|]. split; [by eapply rd_wr_eq|]. done.
    + apply Hzero in Hc. done.
  - intros i f Hi Hf. assert (i = 0) as -> by lia.
    rewrite (rd_wr_eq _ _ _ _ Ht1) in Hf. injection Hf as <-. simpl. lia.
  - intros f _ Hf.
    rewrite (rd_wr_eq _ _ _ _ Ht1) in Hf. injection Hf as <-. simpl. lia.
  - intros [?|?]; done.
  - rewrite (proj2 (proj1 (wr_Some _ _ _ _) Hb1)).
    rewrite nonzero_mark; [| |lia].
    + by rewrite (nonzero_all_zero _ Hzero).
    + destruct (rd_is_Some b0 (cell cfg (fx f0) (fy f0))) as [v Hv]; [lia|].
      pose proof (Hzero _ _ Hv) as ->. by apply rd_Some in Hv as [_ ?].
Qed.

(** C1.  In every state a search reaches from the state in which it
    begins (the board reset, the start cell marked 1, the cursor of frame
    0 at 0), the cells that are not 0 hold the values 1, ..., step+1, each
    once; where the critical region is entered, step is LX*LY-1 and the
    values are 1, ..., LX*LY, each once. *)
Theorem board_values_one_to_step (board0 : Board_t) (track0 : Track_t)
    (move0 : Move_t) l0 n l :
  Z.of_nat (length board0) = cells cfg →
  Z.of_nat (length track0) = cells cfg →
  attempt_start cfg board0 track0 move0 = Some l0 →
  advances cfg n l0 = Some l →
  nonzero (board l) ≡ₚ seqZ 1 (step l + 1) ∧
  (pc l = PcFull →
   step l = cells cfg - 1 ∧ nonzero (board l) ≡ₚ seqZ 1 (cells cfg)).
Proof.
  intros Hb Ht Hstart Hrun.
  assert (Hwf : wf cfg l).
  { eapply advances_wf; [|done]. by eapply attempt_start_wf. }
  split; [apply (wf_values _ _ Hwf)|].
  intros Hpc. assert (step l = cells cfg - 1) as Hs.
  { apply (wf_full _ _ Hwf). auto. }
  split; [done|]. pose proof (wf_values _ _ Hwf) as Hv.
  rewrite Hs in Hv. by replace (cells cfg - 1 + 1) with (cells cfg) in Hv by lia.
Qed.

End Invariant.

(** ** Every search ends *)

Section Termination.
Context (cfg : Config).

Lemma odometer_ext (t t' : Track_t) n :
  (∀ i, 0 <= i < Z.of_nat n → digit t i = digit t' i) →
  odometer cfg t n = odometer cfg t' n.
Proof.
  induction n as [|n IH]; [done|]. intros H. simpl.
  rewrite IH by (intros; apply H; lia). rewrite (H (Z.of_nat n)) by lia. done.
Qed.

Lemma pow10_step e : 0 <= e → 10 ^ (e + 1) = 10 * 10 ^ e.
Proof. intros. rewrite Z.pow_add_r by lia. lia. Qed.

Lemma odometer_bound (t : Track_t) n :
  Z.of_nat n <= cells cfg →
  (∀ i, 0 <= i < Z.of_nat n → 0 <= digit t i <= 9) →
  0 <= odometer cfg t n <= 10 ^ cells cfg - 10 ^ (cells cfg - Z.of_nat n).
Proof.
  induction n as [|n IH]; intros Hn Hd.
  - simpl. rewrite Z.sub_0_r. lia.
  - simpl odometer. specialize (IH ltac:(lia) ltac:(intros; apply Hd; lia)).
    specialize (Hd (Z.of_nat n) ltac:(lia)).
    replace (cells cfg - Z.of_nat n)
      with (cells cfg - 1 - Z.of_nat n + 1) in IH by lia.
    rewrite pow10_step in IH by lia.
    replace (cells cfg - Z.of_nat (S n))
      with (cells cfg - 1 - Z.of_nat n) by lia.
    assert (0 < 10 ^ (cells cfg - 1 - Z.of_nat n)) by (apply Z.pow_pos_nonneg; lia).
    nia.
Qed.

Lemma digit_wr (t t' : Track_t) i j f :
  wr t j f = Some t' →
  digit t' i = if decide (i = j) then fk f + 1 else digit t i.
Proof.
  intros Hw. unfold digit. rewrite (rd_wr _ _ _ _ _ Hw).
  by case_decide.
Qed.

Lemma wf_digit l i :
  wf cfg l → 0 <= i <= step l → 1 <= digit (track l) i <= 9.
Proof.
  intros Hwf Hi. unfold digit.
  destruct (rd_is_Some (track l) i) as [f Hf].
  { rewrite (wf_track _ _ Hwf). pose proof (wf_step _ _ Hwf). lia. }
  rewrite Hf. destruct (wf_cursor _ _ Hwf i f Hi Hf). lia.
Qed.

Lemma progress_bound l : wf cfg l → 0 <= progress cfg l < 10 ^ cells cfg.
Proof.
  intros Hwf. pose proof (wf_step _ _ Hwf) as Hs. unfold progress.
  pose proof (odometer_bound (track l) (Z.to_nat (step l + 1))) as Hb.
  destruct Hb as [? ?]; [lia| |].
  { intros i Hi. pose proof (wf_digit l i Hwf). lia. }
  assert (0 < 10 ^ (cells cfg - Z.of_nat (Z.to_nat (step l + 1))))
    by (apply Z.pow_pos_nonneg; lia).
  lia.
Qed.

Lemma pow10_pos e : 0 <= e → 0 < 10 ^ e.
Proof. intros. apply Z.pow_pos_nonneg; lia. Qed.

Lemma progress_fail l t' :
  wf cfg l → incr_deref (track l) (k l) = Some t' →
  progress cfg l
  < progress cfg (mkLocal (board l) t' (move l) (step l) (k l)
                    (incr_ulong (num_try l)) PcCascade).
Proof.
  intros Hwf (f & Hf & Hw)%incr_deref_Some.
  pose proof (wf_step _ _ Hwf) as Hs. rewrite (wf_k _ _ Hwf) in *.
  unfold progress. simpl.
  replace (Z.to_nat (step l + 1)) with (S (Z.to_nat (step l))) by lia.
  simpl. rewrite Z2Nat.id by lia.
  rewrite (odometer_ext t' (track l)).
  - rewrite (digit_wr _ _ _ _ _ Hw), decide_True by done. simpl.
    unfold digit at 1. rewrite Hf.
    pose proof (pow10_pos (cells cfg - 1 - step l)). nia.
  - intros i Hi. rewrite (digit_wr _ _ _ _ _ Hw), decide_False; [done|lia].
Qed.

Lemma progress_accept l c t' b' k' p :
  wf cfg l →
  AcceptMove cfg (step l + 1) c (track l) (board l) (move l)
    = Some (t', b', k') →
  progress cfg l
  < progress cfg (mkLocal b' t' (move l) (step l + 1) k'
                    (incr_ulong (num_try l)) p).
Proof.
  intros Hwf (p' & m' & _ & _ & Hw & _ & _ & _)%AcceptMove_Some.
  pose proof (wf_step _ _ Hwf) as Hs.
  apply wr_Some in Hw as Hw'. destruct Hw' as [Hnew _].
  rewrite (wf_track _ _ Hwf) in Hnew.
  unfold progress. simpl.
  replace (Z.to_nat (step l + 1 + 1)) with (S (Z.to_nat (step l + 1))) by lia.
  simpl. rewrite Z2Nat.id by lia.
  rewrite (odometer_ext t' (track l)).
  - rewrite (digit_wr _ _ _ _ _ Hw), decide_True by done. simpl.
    pose proof (pow10_pos (cells cfg - 1 - (step l + 1))). lia.
  - intros i Hi. rewrite (digit_wr _ _ _ _ _ Hw), decide_False; [done|lia].
Qed.

Lemma progress_back l p l' :
  wf cfg l → back cfg l p = Some l' → progress cfg l < progress cfg l'.
Proof.
  intros Hwf Hback. unfold back in Hback.
  destruct (BackTrace cfg _ _ _) as [[[t' b'] k']|] eqn:HB; [|done].
  simpl in Hback. simplify_eq.
  apply BackTrace_Some in HB as (f & p0 & Hf & Hp0 & _ & _ & Hw & ->).
  pose proof (wf_step _ _ Hwf) as Hs.
  pose proof (rd_in_range _ _ _ Hp0) as Hprev.
  pose proof (wf_digit l (step l) Hwf ltac:(lia)) as Hd.
  unfold progress. simpl.
  replace (step l - 1 + 1) with (step l) by lia.
  replace (Z.to_nat (step l + 1)) with (S (Z.to_nat (step l))) by lia.
  replace (Z.to_nat (step l)) with (S (Z.to_nat (step l - 1))) by lia.
  simpl. rewrite !Z2Nat.id by lia.
  replace (Z.of_nat (S (Z.to_nat (step l - 1)))) with (step l) by lia.
  rewrite (odometer_ext t' (track l)).
  - rewrite (digit_wr _ _ _ _ _ Hw), decide_True by done. simpl.
    assert (digit (track l) (step l - 1) = fk p0 + 1) as ->
      by (unfold digit; by rewrite Hp0).
    replace (cells cfg - 1 - (step l - 1))
      with (cells cfg - 1 - step l + 1) by lia.
    rewrite pow10_step by lia.
    pose proof (pow10_pos (cells cfg - 1 - step l)). nia.
  - intros i Hi. rewrite (digit_wr _ _ _ _ _ Hw), decide_False; [done|lia].
Qed.

Lemma potential_nonneg l : wf cfg l → 0 <= potential cfg l.
Proof.
  intros Hwf. pose proof (progress_bound l Hwf). unfold potential.
  destruct (pc l); simpl; lia.
Qed.

Lemma transition_decreases l l' :
  wf cfg l → transition cfg l l' → potential cfg l' < potential cfg l.
Proof.
  intros Hwf [Hpc Hn|c t' Hpc Hc HT HI|c t' b' k' Hpc Hc HT HA
      |c p Hp Hc Hc8|p l1 Hp Hb|Hpc]; unfold potential.
  - rewrite Hpc. simpl. unfold progress. simpl. lia.
  - pose proof (progress_fail l t' Hwf HI). rewrite Hpc. simpl in *. lia.
  - pose proof (progress_accept l c t' b' k'
      (if bool_decide (step l + 1 = cells cfg - 1) then PcFull else PcBudget)
      Hwf HA).
    rewrite Hpc. simpl pc. case_bool_decide; simpl rank; lia.
  - destruct Hp as [[-> ->]|[-> ->]]; simpl; unfold progress; simpl; lia.
  - pose proof (progress_back l p l1 Hwf Hb).
    assert (pc l1 = p) as ->.
    { unfold back in Hb. destruct (BackTrace cfg _ _ _) as [[[? ?] ?]|];
        [|done]. simpl in Hb. by simplify_eq. }
    destruct Hp as [(-> & -> & _)|[(-> & ->)|(-> & -> & _)]]; simpl; lia.
  - rewrite Hpc. simpl. unfold progress. simpl. lia.
Qed.

(** *** Where a search can stop *)

Lemma back_None l p :
  step l = 0 → back cfg l p = None ∧
  BackTrace cfg (step l) (track l) (board l) = None ∧
  rd (track l) (step l - 1) = None.
Proof.
  intros Hs. assert (rd (track l) (step l - 1) = None) as Hn.
  { apply rd_None. lia. }
  assert (BackTrace cfg (step l) (track l) (board l) = None) as HB.
  { destruct (BackTrace cfg _ _ _) as [[[t' b'] k']|] eqn:HB; [|done].
    apply BackTrace_Some in HB as (f & p0 & _ & Hp0 & _). congruence. }
  unfold back. rewrite HB. done.
Qed.

Lemma back_is_Some l p : wf cfg l → 1 <= step l → is_Some (back cfg l p).
Proof.
  intros Hwf Hs. pose proof (wf_step _ _ Hwf) as Hstep.
  pose proof (wf_track _ _ Hwf) as Ht. pose proof (wf_board _ _ Hwf) as Hb.
  destruct (rd_is_Some (track l) (step l)) as [f Hf]; [lia|].
  destruct (rd_is_Some (track l) (step l - 1)) as [p0 Hp0]; [lia|].
  destruct (wf_placed _ _ Hwf (step l) f) as [Hin _]; [lia|done|].
  pose proof (cell_in_range _ _ _ Hin) as Hc.
  destruct (wr_is_Some (board l) (cell cfg (fx f) (fy f)) 0) as [b' Hb'];
    [lia|].
  destruct (wr_is_Some (track l) (step l - 1)
              (mkFrame (fx p0) (fy p0) (fk p0 + 1))) as [t' Ht']; [lia|].
  unfold back.
  rewrite (proj2 (BackTrace_Some cfg (step l) (track l) (board l) t' b'
                    (step l - 1))); [by eexists|].
  exists f, p0. done.
Qed.

Lemma try_is_Some l :
  wf cfg l → length (move l) = 8%nat → pc l = PcTry →
  is_Some (advance cfg l).
Proof.
  intros Hwf Hmove Hpc. pose proof (wf_step _ _ Hwf) as Hstep.
  pose proof (wf_track _ _ Hwf) as Ht. pose proof (wf_board _ _ Hwf) as Hb.
  destruct (rd_is_Some (track l) (step l)) as [f Hf]; [lia|].
  destruct (wf_cursor _ _ Hwf (step l) f) as [Hk _]; [lia|done|].
  pose proof (wf_top _ _ Hwf f (or_introl Hpc) Hf) as Hk8.
  destruct (rd_is_Some (move l) (fk f)) as [m Hm]; [lia|].
  destruct (TryMove_is_Some cfg (step l) (fk f) (track l) (board l)
              (move l) f m Hb Hf Hm) as (ok & HT).
  assert (Hc : deref (track l) (k l) = Some (fk f)).
  { rewrite (wf_k _ _ Hwf). apply deref_Some. eauto. }
  destruct ok.
  - apply TryMove_true in HT as HT'.
    destruct HT' as (f' & m' & Hf' & Hm' & Hin & Hzero). simplify_eq.
    assert (step l + 1 < cells cfg) as Hroom.
    { apply rd_Some in Hzero as [_ Hz].
      pose proof (nonzero_length_lt _ _ Hz) as Hlt.
      rewrite (Permutation_length (wf_values _ _ Hwf)), length_seqZ in Hlt.
      lia. }
    pose proof (cell_in_range _ _ _ Hin) as Hcr.
    destruct (wr_is_Some (track l) (step l + 1)
                (mkFrame (fx f + m.1) (fy f + m.2) 0)) as [t' Ht']; [lia|].
    destruct (wr_is_Some (board l) (cell cfg (fx f + m.1) (fy f + m.2))
                (step l + 1 + 1)) as [b' Hb']; [lia|].
    eexists. apply advance_transition. eapply t_accept; [done..|].
    apply AcceptMove_Some. exists f, m.
    replace (step l + 1 - 1) with (step l) by lia. done.
  - destruct (wr_is_Some (track l) (step l)
                (mkFrame (fx f) (fy f) (fk f + 1))) as [t' Ht']; [lia|].
    eexists. apply advance_transition. eapply t_fail; [done..|].
    rewrite (wf_k _ _ Hwf). apply incr_deref_Some. eauto.
Qed.

(** A search stops only where the budget loop is left, or where
    [BackTrace] is called with [step] 0 and reaches for [track[-1]]. *)
Lemma advance_None l :
  wf cfg l → length (move l) = 8%nat → advance cfg l = None →
  (next cfg l = Halt ∧ pc l = PcBudget ∧ MAX_TRY cfg <= num_try l)
  ∨ (next cfg l = Fault ∧ step l = 0 ∧
     BackTrace cfg (step l) (track l) (board l) = None ∧
     rd (track l) (step l - 1) = None).
Proof.
  intros Hwf Hmove Hnone. pose proof (wf_step _ _ Hwf) as Hstep.
  destruct (pc l) eqn:Hpc.
  - left. unfold advance, next in *. rewrite Hpc in *.
    case_bool_decide; [done|]. split; [done|]. split; [done|]. lia.
  - destruct (try_is_Some l Hwf Hmove Hpc) as [? ?]. congruence.
  - right. destruct (rd_is_Some (track l) (k l)) as [f Hf].
    { rewrite (wf_k _ _ Hwf), (wf_track _ _ Hwf). lia. }
    unfold advance, next, deref in *. rewrite Hpc, Hf in *. simpl in *.
    case_bool_decide; [|done].
    destruct (decide (step l = 0)) as [H0|H0].
    + destruct (back_None l PcCascade H0) as (-> & ? & ?). done.
    + destruct (back_is_Some l PcCascade Hwf) as [l1 Hl1]; [lia|].
      rewrite Hl1 in Hnone. done.
  - unfold advance, next in Hnone. rewrite Hpc in Hnone. done.
  - right. unfold advance, next in *. rewrite Hpc in *.
    destruct (decide (step l = 0)) as [H0|H0].
    + destruct (back_None l PcCascadeFull H0) as (-> & ? & ?). done.
    + destruct (back_is_Some l PcCascadeFull Hwf) as [l1 Hl1]; [lia|].
      rewrite Hl1 in Hnone. done.
  - right. destruct (rd_is_Some (track l) (k l)) as [f Hf].
    { rewrite (wf_k _ _ Hwf), (wf_track _ _ Hwf). lia. }
    unfold advance, next, deref in *. rewrite Hpc, Hf in *. simpl in *.
    case_bool_decide; [|done].
    destruct (decide (step l = 0)) as [H0|H0].
    + destruct (back_None l PcCascadeFull H0) as (-> & ? & ?). done.
    + destruct (back_is_Some l PcCascadeFull Hwf) as [l1 Hl1]; [lia|].
      rewrite Hl1 in Hnone. done.
Qed.

Lemma transition_move l l' : transition cfg l l' → move l' = move l.
Proof.
  intros [Hpc Hn|c t' Hpc Hc HT HI|c t' b' k' Hpc Hc HT HA
      |c p Hp Hc Hc8|p l1 Hp Hb|Hpc]; try done.
  unfold back in Hb. destruct (BackTrace cfg _ _ _) as [[[? ?] ?]|]; [|done].
  simpl in Hb. by simplify_eq.
Qed.

Lemma search_stops_within (m : nat) l :
  wf cfg l → length (move l) = 8%nat → potential cfg l < Z.of_nat m →
  ∃ n l', advances cfg n l = Some l' ∧ advance cfg l' = None.
Proof.
  revert l. induction m as [|m IH]; intros l Hwf Hmove Hpot.
  - pose proof (potential_nonneg l Hwf). lia.
  - destruct (advance cfg l) as [l1|] eqn:Ha.
    + apply advance_transition in Ha as Htr.
      pose proof (transition_decreases l l1 Hwf Htr).
      destruct (IH l1) as (n & l' & Hn & Hl').
      * by eapply advance_wf.
      * by rewrite (transition_move _ _ Htr).
      * lia.
      * exists (S n), l'. simpl. rewrite Ha. done.
    + exists O, l. done.
Qed.

(** Every search ends: after finitely many transitions it stands either at
    the budget test with the budget used up, or at a [BackTrace] called
    with [step] 0, where the code reads and writes [track[-1]]. *)
Lemma search_ends l0 :
  wf cfg l0 → length (move l0) = 8%nat →
  ∃ n l, advances cfg n l0 = Some l ∧
    ((next cfg l = Halt ∧ pc l = PcBudget ∧ MAX_TRY cfg <= num_try l)
     ∨ (next cfg l = Fault ∧ step l = 0 ∧
        BackTrace cfg (step l) (track l) (board l) = None ∧
        rd (track l) (step l - 1) = None)).
Proof.
  intros Hwf Hmove.
  destruct (search_stops_within (S (Z.to_nat (potential cfg l0))) l0)
    as (n & l & Hn & Hl); [done|done| |].
  { pose proof (potential_nonneg l0 Hwf). lia. }
  exists n, l. split; [done|]. apply advance_None; [|  |done].
  - by eapply advances_wf.
  - clear Hl. revert l0 Hwf Hmove Hn. induction n as [|n IH]; simpl.
    + intros l0 _ ? [= <-]. done.
    + intros l0 Hwf Hmove. destruct (advance cfg l0) as [l1|] eqn:Ha; [|done].
      simpl. apply IH; [by eapply advance_wf|].
      apply advance_transition in Ha. by rewrite (transition_move _ _ Ha).
Qed.

End Termination.

(** ** [BackTrace] against [AcceptMove] *)

Section Undo.
Context (cfg : Config).

(** Two searches at the same depth whose frames lie on the same cells have
    the same board. *)
Lemma board_determined l l' :
  wf cfg l → wf cfg l' → step l = step l' →
  (∀ i f f', 0 <= i <= step l →
     rd (track l) i = Some f → rd (track l') i = Some f' →
     fx f = fx f' ∧ fy f = fy f') →
  board l = board l'.
Proof.
  intros Hwf Hwf' Hstep Hpos.
  assert (Hone : ∀ l1 l2, wf cfg l1 → wf cfg l2 → step l1 = step l2 →
    (∀ i f f', 0 <= i <= step l1 →
       rd (track l1) i = Some f → rd (track l2) i = Some f' →
       fx f = fx f' ∧ fy f = fy f') →
    ∀ c v, rd (board l1) c = Some v → v ≠ 0 → rd (board l2) c = Some v).
  { intros l1 l2 H1 H2 Hs HP c v Hc Hv.
    destruct (wf_free _ _ H1 c v Hc Hv) as (i & f & Hi & Hf & Hcell).
    destruct (rd_is_Some (track l2) i) as [f' Hf'].
    { rewrite (wf_track _ _ H2). pose proof (wf_step _ _ H2). lia. }
    destruct (HP i f f' Hi Hf Hf') as [Hx Hy].
    destruct (wf_placed _ _ H1 i f Hi Hf) as [_ Hv1].
    destruct (wf_placed _ _ H2 i f') as [_ Hv2]; [lia|done|].
    rewrite <- Hx, <- Hy, Hcell in Hv2. rewrite Hcell in Hv1. congruence. }
  apply list_eq. intros j.
  destruct (board l !! j) as [v|] eqn:Hv.
  - assert (rd (board l) (Z.of_nat j) = Some v) as Hr.
    { apply rd_Some. split; [lia|]. by rewrite Nat2Z.id. }
    destruct (decide (v = 0)) as [->|Hnz].
    + destruct (rd_is_Some (board l') (Z.of_nat j)) as [v' Hv'].
      { rewrite (wf_board _ _ Hwf'), <- (wf_board _ _ Hwf).
        by eapply rd_in_range. }
      destruct (decide (v' = 0)) as [->|Hnz'].
      * apply rd_Some in Hv' as [_ Hv']. by rewrite Nat2Z.id in Hv'.
      * pose proof (Hone l' l Hwf' Hwf (eq_sym Hstep)) as Hback.
        rewrite Hback with (v := v') in Hr; [congruence| |done|done].
        intros i f f' Hi Hf Hf'. rewrite <- Hstep in Hi.
        destruct (Hpos i f' f Hi Hf' Hf). done.
    + pose proof (Hone l l' Hwf Hwf' Hstep Hpos _ _ Hr Hnz) as Hv'.
      apply rd_Some in Hv' as [_ Hv']. by rewrite Nat2Z.id in Hv'.
  - apply lookup_ge_None in Hv. symmetry. apply lookup_ge_None.
    pose proof (wf_board _ _ Hwf). pose proof (wf_board _ _ Hwf'). lia.
Qed.

(** The frames below [m] are left alone, and frame [m] stays where it is,
    by a transition between two states at depth [m] or more. *)
Lemma transition_above m l l' :
  wf cfg l → transition cfg l l' → m <= step l → m <= step l' →
  (∀ i, i < m → rd (track l') i = rd (track l) i) ∧
  (∀ f, rd (track l) m = Some f →
     ∃ f', rd (track l') m = Some f' ∧ fx f' = fx f ∧ fy f' = fy f).
Proof.
  intros Hwf [Hpc Hn|c t' Hpc Hc HT HI|c t' b' k' Hpc Hc HT HA
      |c p Hp Hc Hc8|p l1 Hp Hb|Hpc] Hm Hm'; simpl in *; try by eauto.
  - apply incr_deref_Some in HI as (f & Hf & Hw).
    rewrite (wf_k _ _ Hwf) in *. split.
    + intros i Hi. rewrite (rd_wr _ _ _ _ _ Hw), decide_False; [done|lia].
    + intros f0 Hf0. rewrite (rd_wr _ _ _ _ _ Hw). case_decide; [|eauto].
      subst m. simplify_eq. eexists. split; [done|]. done.
  - apply AcceptMove_Some in HA as (p' & m' & _ & _ & Hw & _ & _ & _).
    split.
    + intros i Hi. rewrite (rd_wr _ _ _ _ _ Hw), decide_False; [done|lia].
    + intros f0 Hf0. rewrite (rd_wr _ _ _ _ _ Hw), decide_False; [eauto|lia].
  - unfold back in Hb.
    destruct (BackTrace cfg _ _ _) as [[[t' b'] k']|] eqn:HB; [|done].
    simpl in Hb. simplify_eq. simpl in *.
    apply BackTrace_Some in HB as (f & p0 & Hf & Hp0 & _ & _ & Hw & _).
    split.
    + intros i Hi. rewrite (rd_wr _ _ _ _ _ Hw), decide_False; [done|lia].
    + intros f0 Hf0. rewrite (rd_wr _ _ _ _ _ Hw). case_decide; [|eauto].
      subst m. simplify_eq. eexists. split; [done|]. done.
Qed.

Lemma advances_above_spec m n l l' :
  wf cfg l → advances_above cfg m n l = Some l' →
  wf cfg l' ∧ m <= step l' ∧
  (∀ i, i < m → rd (track l') i = rd (track l) i) ∧
  (∀ f, rd (track l) m = Some f →
     ∃ f', rd (track l') m = Some f' ∧ fx f' = fx f ∧ fy f' = fy f).
Proof.
  revert l. induction n as [|n IH]; intros l Hwf; simpl.
  - case_bool_decide; [|done]. intros [= <-]. eauto 10.
  - case_bool_decide as Hm; [|done].
    destruct (advance cfg l) as [l1|] eqn:Ha; [|done]. simpl. intros Hrest.
    assert (m <= step l1) as Hm1.
    { destruct n; simpl in Hrest; by case_bool_decide. }
    apply advance_transition in Ha as Htr.
    destruct (transition_above m l l1 Hwf Htr Hm Hm1) as [Hlow Hat].
    destruct (IH l1) as (Hwf' & Hm' & Hlow' & Hat'); [by eapply advance_wf|done|].
    split; [done|]. split; [done|]. split.
    + intros i Hi. rewrite Hlow' by done. by apply Hlow.
    + intros f Hf. destruct (Hat f Hf) as (f1 & Hf1 & Hx & Hy).
      destruct (Hat' f1 Hf1) as (f2 & Hf2 & Hx2 & Hy2).
      exists f2. split; [done|]. split; congruence.
Qed.

Lemma transition_step l l' :
  transition cfg l l' →
  (step l' = step l + 1 ∧ pc l = PcTry ∧ ∃ c t' b' k',
     TryMove cfg (step l) c (track l) (board l) (move l) = Some true ∧
     AcceptMove cfg (step l + 1) c (track l) (board l) (move l)
       = Some (t', b', k') ∧ track l' = t' ∧ board l' = b')
  ∨ step l' = step l
  ∨ (step l' = step l - 1 ∧ ∃ t' b' k',
       BackTrace cfg (step l) (track l) (board l) = Some (t', b', k') ∧
       track l' = t' ∧ board l' = b').
Proof.
  intros [Hpc Hn|c t' Hpc Hc HT HI|c t' b' k' Hpc Hc HT HA
      |c p Hp Hc Hc8|p l1 Hp Hb|Hpc]; simpl; auto.
  - left. split; [done|]. split; [done|]. by exists c, t', b', k'.
  - right. right. unfold back in Hb.
    destruct (BackTrace cfg _ _ _) as [[[t' b'] k']|] eqn:HB; [|done].
    simpl in Hb. simplify_eq. simpl. split; [done|]. by exists t', b', k'.
Qed.

(** C5.  Take a state reached by a search, from which [AcceptMove] places a
    cell, any number of transitions that stay at the new depth or deeper,
    and the transition that then returns below it.  [AcceptMove] marked a
    free cell with step+2; the returning transition is a [BackTrace] that
    writes 0 into that cell and into no other; the board is then the one
    [AcceptMove] started from; and the cursor of the parent frame is one
    more than it was just before that [BackTrace]. *)
Theorem BackTrace_undoes_AcceptMove (board0 : Board_t) (track0 : Track_t)
    (move0 : Move_t) li m l0 l1 n ln l' :
  Z.of_nat (length board0) = cells cfg →
  Z.of_nat (length track0) = cells cfg →
  attempt_start cfg board0 track0 move0 = Some li →
  advances cfg m li = Some l0 →
  advance cfg l0 = Some l1 → step l1 = step l0 + 1 →
  advances_above cfg (step l1) n l1 = Some ln →
  advance cfg ln = Some l' → step l' < step l1 →
  ∃ f c0,
    rd (track l1) (step l1) = Some f ∧
    rd (board l0) (cell cfg (fx f) (fy f)) = Some 0 ∧
    board l1 = <[Z.to_nat (cell cfg (fx f) (fy f)) := step l0 + 2]> (board l0) ∧
    board l' = <[Z.to_nat (cell cfg (fx f) (fy f)) := 0]> (board ln) ∧
    board l' = board l0 ∧
    step l' = step l0 ∧
    deref (track ln) (step l0) = Some c0 ∧
    deref (track l') (step l0) = Some (c0 + 1).
Proof.
  intros Hb Ht Hstart Hreach Hacc Hs1 Habove Hret Hbelow.
  assert (Hwf0 : wf cfg l0).
  { eapply advances_wf; [|done]. by eapply attempt_start_wf. }
  assert (Hwf1 : wf cfg l1) by (by eapply advance_wf).
  apply advance_transition in Hacc as Htr0.
  destruct (transition_step _ _ Htr0)
    as [(_ & Hpc & c & t1 & b1 & k1 & HT & HA & Ht1 & Hb1)|[?|[? _]]];
    [|lia|lia].
  apply TryMove_true in HT as (p & mv & Hp & Hmv & Hin & Hzero).
  apply AcceptMove_Some in HA as (p' & mv' & Hp' & Hmv' & Hwt & _ & Hwb & _).
  replace (step l0 + 1 - 1) with (step l0) in Hp' by lia. simplify_eq.
  set (f := mkFrame (fx p + mv.1) (fy p + mv.2) 0) in *.
  destruct (advances_above_spec _ _ _ _ Hwf1 Habove)
    as (Hwfn & Hdeep & Hlow & Hat).
  assert (Hwf' : wf cfg l') by (by eapply advance_wf).
  apply advance_transition in Hret as Htr.
  destruct (transition_step _ _ Htr)
    as [(? & _)|[?|(Hs' & t' & b' & k' & HB & Ht' & Hb')]]; [lia|lia|].
  assert (step ln = step l0 + 1) as Hsn by lia. subst t' b'.
  apply BackTrace_Some in HB as (fB & p0 & HfB & Hp0 & _ & HwB & HwT & _).
  rewrite Hsn in HfB, Hp0, HwT.
  replace (step l0 + 1 - 1) with (step l0) in Hp0, HwT by lia.
  assert (Hf1 : rd (track l1) (step l1) = Some f).
  { rewrite Hs1. by eapply rd_wr_eq. }
  destruct (Hat f Hf1) as (f' & Hf' & Hx & Hy).
  rewrite Hs1 in Hf'. rewrite HfB in Hf'. injection Hf' as <-.
  rewrite Hx, Hy in HwB.
  exists f, (fk p0). split; [done|]. split; [done|]. split.
  { apply wr_Some in Hwb as [_ ->].
    by replace (step l0 + 1 + 1) with (step l0 + 2) by lia. }
  split. { apply wr_Some in HwB as [_ ->]. done. }
  split.
  { apply board_determined; [done|done|lia|].
    intros i g g' Hi Hg Hg'. rewrite Hs', Hsn in Hi.
    assert (rd (track ln) i = rd (track l0) i) as Hsame.
    { rewrite Hlow by lia. rewrite (rd_wr _ _ _ _ _ Hwt).
      rewrite decide_False; [done|lia]. }
    rewrite (rd_wr _ _ _ _ _ HwT) in Hg. case_decide.
    - subst i. rewrite <- Hsame, Hp0 in Hg'. by simplify_eq.
    - rewrite Hsame in Hg. by simplify_eq. }
  split; [lia|]. split.
  - apply deref_Some. eauto.
  - apply deref_Some. eexists. split; [by eapply rd_wr_eq|]. done.
Qed.

End Undo.

(** ** [ShuffleMovePattern] *)

Section Shuffle.
Context (cfg : Config).

Lemma insert_Permutation_delete {A} (l : list A) (i : nat) x y :
  l !! i = Some x → <[i := y]> l ≡ₚ y :: delete i l.
Proof.
  intros Hi. pose proof (lookup_lt_Some _ _ _ Hi) as Hlt.
  rewrite insert_take_drop by done. rewrite delete_take_drop.
  symmetry. apply Permutation_middle.
Qed.

Lemma swap_Permutation {A} (l : list A) (a b : nat) x y :
  l !! a = Some x → l !! b = Some y →
  <[b := x]> (<[a := y]> l) ≡ₚ l.
Proof.
  intros Ha Hb. destruct (decide (a = b)) as [->|Hne].
  - simplify_eq. rewrite list_insert_insert_eq. by rewrite list_insert_id.
  - assert (<[a := y]> l !! b = Some y) as Hb1.
    { by rewrite list_lookup_insert_ne. }
    apply (Permutation_cons_inv (a := y)).
    rewrite (insert_Permutation_delete _ b y x Hb1).
    rewrite Permutation_swap.
    rewrite <- (delete_Permutation _ b y Hb1).
    rewrite (insert_Permutation_delete _ a x y Ha).
    rewrite Permutation_swap.
    by rewrite <- (delete_Permutation _ a x Ha).
Qed.

Lemma swap_moves_Permutation (move : Move_t) a b :
  0 <= a < Z.of_nat (length move) → 0 <= b < Z.of_nat (length move) →
  ∃ move', swap_moves move a b = Some move' ∧ move' ≡ₚ move.
Proof.
  intros Ha Hb. unfold swap_moves.
  destruct (rd_is_Some move a Ha) as [x Hx].
  destruct (rd_is_Some move b Hb) as [y Hy].
  rewrite Hx, Hy. simpl.
  destruct (wr_is_Some move a y Ha) as [m1 Hm1]. rewrite Hm1. simpl.
  apply wr_Some in Hm1 as [_ ->].
  destruct (wr_is_Some (<[Z.to_nat a := y]> move) b x) as [m2 Hm2].
  { by rewrite length_insert. }
  rewrite Hm2. exists m2. split; [done|].
  apply wr_Some in Hm2 as [_ ->].
  apply rd_Some in Hx as [_ Hx]. apply rd_Some in Hy as [_ Hy].
  by eapply swap_Permutation.
Qed.

Lemma rem_MAX_MOVE_PATTERN (n : nat) :
  0 <= Z.of_nat n `rem` MAX_MOVE_PATTERN < 8 ∧
  Z.to_nat (Z.of_nat n `rem` MAX_MOVE_PATTERN) = (n mod 8)%nat.
Proof.
  unfold MAX_MOVE_PATTERN. rewrite Z.rem_mod_nonneg by lia.
  split; [apply Z.mod_pos_bound; lia|].
  change 8 with (Z.of_nat 8). rewrite <- Nat2Z.inj_mod. apply Nat2Z.id.
Qed.

Lemma swap_moves_exchanged (move move' : Move_t) a b :
  swap_moves move a b = Some move' →
  exchanged (Z.to_nat a) (Z.to_nat b) move move'.
Proof.
  unfold swap_moves. intros H.
  destruct (rd move a) as [x|] eqn:Hx; [|done].
  destruct (rd move b) as [y|] eqn:Hy; [|done]. simpl in H.
  destruct (wr move a y) as [m1|] eqn:Hm1; [|done]. simpl in H.
  apply wr_Some in Hm1 as [Ha ->]. apply wr_Some in H as [Hb ->].
  rewrite length_insert in Hb.
  apply rd_Some in Hx as [_ Hx]. apply rd_Some in Hy as [_ Hy].
  split; [by rewrite !length_insert|]. split; [|split].
  - destruct (decide (Z.to_nat a = Z.to_nat b)) as [Hab|Hab].
    + rewrite Hab. rewrite list_lookup_insert_eq
        by (rewrite length_insert; lia).
      rewrite Hab in Hx. congruence.
    + rewrite list_lookup_insert_ne by done.
      rewrite list_lookup_insert_eq by lia. done.
  - rewrite list_lookup_insert_eq by (rewrite length_insert; lia). done.
  - intros i Hia Hib. by rewrite !list_lookup_insert_ne by done.
Qed.

Lemma exchanged_same (a : nat) (m m' : Move_t) : exchanged a a m m' → m' = m.
Proof.
  intros (_ & Ha & _ & Hothers). apply list_eq. intros i.
  destruct (decide (i = a)) as [->|Hne]; [done|]. by apply Hothers.
Qed.

Lemma exchanged_changes (a b : nat) (m m' : Move_t) :
  exchanged a b m m' → NoDup m → (a < length m)%nat → a ≠ b → m' ≠ m.
Proof.
  intros (_ & Ha & _ & _) HND Hlt Hab ->.
  destruct (lookup_lt_is_Some_2 m a Hlt) as [x Hx].
  rewrite Hx in Ha. symmetry in Ha.
  by apply Hab, (NoDup_lookup m a b x).
Qed.

(** The arrays a call of the loop goes through, one swap after the
    other. *)
Lemma shuffle_loop_orders n (rand : nat → nat) pos (move : Move_t) :
  length move = 8%nat →
  ∃ orders : list Move_t,
    length orders = S n ∧
    orders !! 0%nat = Some move ∧
    (∀ i m m', orders !! i = Some m → orders !! S i = Some m' →
       exchanged (rand (pos + 2 * i) mod 8)%nat
         (rand (pos + 2 * i + 1) mod 8)%nat m m' ∧ m ≡ₚ move) ∧
    ∃ move',
      orders !! n = Some move' ∧
      shuffle_loop n rand pos move = Some (move', (pos + 2 * n)%nat) ∧
      move' ≡ₚ move.
Proof.
  revert pos move. induction n as [|n IH]; intros pos move Hlen;
    cbn [shuffle_loop].
  - exists [move]. split; [done|]. split; [done|]. split; [by intros [|i]|].
    exists move. split; [done|]. split; [|done]. do 2 f_equal. lia.
  - destruct (rem_MAX_MOVE_PATTERN (rand pos)) as [Ha Ha'].
    destruct (rem_MAX_MOVE_PATTERN (rand (S pos))) as [Hb Hb'].
    destruct (swap_moves_Permutation move
      (Z.of_nat (rand pos) `rem` MAX_MOVE_PATTERN)
      (Z.of_nat (rand (S pos)) `rem` MAX_MOVE_PATTERN))
      as (m1 & Hm1 & Hp1); [rewrite Hlen; lia..|].
    rewrite Hm1. cbn [mbind option_bind].
    apply swap_moves_exchanged in Hm1 as Hex. rewrite Ha', Hb' in Hex.
    destruct (IH (S (S pos)) m1) as (orders & Hl & H0 & Hstep & m2 & Hn & Hm2 & Hp2).
    { by rewrite (Permutation_length Hp1). }
    exists (move :: orders). split; [simpl; by rewrite Hl|].
    split; [done|]. split.
    + intros [|i] m m' Hm Hm'; simpl in Hm, Hm'.
      * injection Hm as <-. rewrite H0 in Hm'. injection Hm' as <-.
        replace (pos + 2 * 0)%nat with pos by lia.
        replace (pos + 1)%nat with (S pos) by lia. by split.
      * destruct (Hstep i m m' Hm Hm') as [Hex' Hp'].
        replace (pos + 2 * S i)%nat with (S (S pos) + 2 * i)%nat by lia.
        split; [done|]. by rewrite Hp'.
    + exists m2. split; [done|]. split; [|by rewrite Hp2].
      rewrite Hm2. do 2 f_equal. lia.
Qed.

(** C8, as the code has it.  Whatever [rand()] returns, a call of
    [ShuffleMovePattern] on the eight moves returns after
    [2*RANDOM_MOVE_PATTERN] calls of [rand()], and makes
    [RANDOM_MOVE_PATTERN] swaps one after the other: swap [i] exchanges
    the entries at the indexes that the calls [2i] and [2i+1] of [rand()]
    give modulo 8.  A swap whose indexes are equal leaves the order as it
    is; a swap whose indexes differ changes the order of moves that are
    all different.  The array after the call is a rearrangement of the
    array before. *)
Theorem ShuffleMovePattern_rearranges (rand : nat → nat) pos (move : Move_t) :
  length move = 8%nat →
  ∃ orders : list Move_t,
    length orders = S (RANDOM_MOVE_PATTERN cfg) ∧
    orders !! 0%nat = Some move ∧
    (∀ i m m', orders !! i = Some m → orders !! S i = Some m' →
       exchanged (rand (pos + 2 * i) mod 8)%nat
         (rand (pos + 2 * i + 1) mod 8)%nat m m' ∧
       ((rand (pos + 2 * i) mod 8)%nat = (rand (pos + 2 * i + 1) mod 8)%nat →
        m' = m) ∧
       (NoDup move →
        (rand (pos + 2 * i) mod 8)%nat ≠ (rand (pos + 2 * i + 1) mod 8)%nat →
        m' ≠ m)) ∧
    ∃ move',
      orders !! RANDOM_MOVE_PATTERN cfg = Some move' ∧
      ShuffleMovePattern cfg rand pos move
        = Some (move', (pos + 2 * RANDOM_MOVE_PATTERN cfg)%nat) ∧
      move' ≡ₚ move.
Proof.
  intros Hlen. unfold ShuffleMovePattern.
  destruct (shuffle_loop_orders (RANDOM_MOVE_PATTERN cfg) rand pos move Hlen)
    as (orders & Hl & H0 & Hstep & Hlast).
  exists orders. split; [done|]. split; [done|]. split; [|done].
  intros i m m' Hm Hm'. destruct (Hstep i m m' Hm Hm') as [Hex Hp].
  split; [done|]. split.
  - intros Heq. rewrite Heq in Hex. by eapply exchanged_same.
  - intros HND Hne. eapply exchanged_changes; [done| | |done].
    + by rewrite Hp.
    + rewrite (Permutation_length Hp), Hlen. apply Nat.mod_upper_bound. lia.
Qed.

End Shuffle.

(** C8, as stated, fails: with [rand()] returning 0 at every call, and
    also with [rand()] returning 1, 2, 1, 2, ..., the ten swaps leave the
    order of the moves as it was. *)
Lemma ShuffleMovePattern_may_keep_order :
  ShuffleMovePattern source_config (λ _, 0%nat) 0 knight_moves
    = Some (knight_moves, 20%nat) ∧
  ShuffleMovePattern source_config (λ i, if Nat.even i then 1%nat else 2%nat)
    0 knight_moves = Some (knight_moves, 20%nat).
Proof. split; vm_compute; reflexivity. Qed.

Lemma ShuffleMovePattern_rearranges_witness :
  ShuffleMovePattern source_config (λ i, i) 0 knight_moves
    = Some ([(-2, 1); (-2, -1); (-1, 2); (-1, -2);
             (1, -2); (1, 2); (2, -1); (2, 1)], 20%nat) ∧
  ∃ orders : list Move_t,
    length orders = S (RANDOM_MOVE_PATTERN source_config) ∧
    orders !! 0%nat = Some knight_moves ∧
    (∀ i m m', orders !! i = Some m → orders !! S i = Some m' →
       exchanged ((0 + 2 * i) mod 8)%nat ((0 + 2 * i + 1) mod 8)%nat m m' ∧
       (((0 + 2 * i) mod 8)%nat = ((0 + 2 * i + 1) mod 8)%nat → m' = m) ∧
       (NoDup knight_moves →
        ((0 + 2 * i) mod 8)%nat ≠ ((0 + 2 * i + 1) mod 8)%nat → m' ≠ m)) ∧
    ∃ move',
      orders !! RANDOM_MOVE_PATTERN source_config = Some move' ∧
      ShuffleMovePattern source_config (λ i, i) 0 knight_moves
        = Some (move', (0 + 2 * RANDOM_MOVE_PATTERN source_config)%nat) ∧
      move' ≡ₚ knight_moves.
Proof.
  split; [vm_compute; reflexivity|].
  apply (ShuffleMovePattern_rearranges source_config (λ i, i) 0%nat
           knight_moves).
  reflexivity.
Defined.

(** ** The text written for a closed tour *)

Section Text.

Lemma append_cons ch (a b : string) :
  String ch a +:+ b = String ch (a +:+ b).
Proof. reflexivity. Qed.

Lemma append_empty_l (b : string) : "" +:+ b = b.
Proof. reflexivity. Qed.

Lemma append_assoc (a b c : string) : (a +:+ b) +:+ c = a +:+ (b +:+ c).
Proof.
  induction a as [|ch a IH]; [done|]. rewrite !append_cons. by f_equal.
Qed.

Lemma append_empty_r (a : string) : a +:+ "" = a.
Proof.
  induction a as [|ch a IH]; [done|]. rewrite append_cons. by f_equal.
Qed.

Lemma cat_app (xs ys : list string) : cat (xs ++ ys) = cat xs +:+ cat ys.
Proof.
  induction xs as [|x xs IH]; simpl; [done|].
  by rewrite IH, append_assoc.
Qed.

Lemma cat_singleton (s : string) : cat [s] = s.
Proof. simpl. apply append_empty_r. Qed.

Lemma cat_concat (xss : list (list string)) :
  cat (concat xss) = cat (cat <$> xss).
Proof.
  induction xss as [|xs xss IH]; simpl; [done|].
  by rewrite cat_app, IH.
Qed.

Lemma mapM_ext {A B} (f g : A → option B) (l : list A) :
  (∀ x, f x = g x) → mapM f l = mapM g l.
Proof.
  intros Hfg. induction l as [|x l IH]; simpl; [done|].
  by rewrite Hfg, IH.
Qed.

Lemma mapM_bind_Some {A B C} (g : A → option B) (h : B → C) (l : list A) :
  mapM (λ x, y ← g x; Some (h y)) l = (fmap h) <$> mapM g l.
Proof.
  induction l as [|x l IH]; simpl; [done|].
  destruct (g x) as [y|]; simpl; [|done].
  rewrite IH. by destruct (mapM g l).
Qed.

Lemma exec_Fprintf (ws : list string) (sh : Shared) (tmp : Z) :
  foldl exec_op (sh, tmp) (Fprintf <$> ws)
  = (mkShared (num_found sh) (num_closed sh) (num_opened sh)
       (fc sh +:+ cat ws) (console sh), tmp).
Proof.
  revert sh. induction ws as [|w ws IH]; intros sh; simpl.
  - rewrite append_empty_r. by destruct sh.
  - rewrite IH. simpl. by rewrite append_assoc.
Qed.

Context (cfg : Config).

Lemma fPrintBoard_rows (board : Board_t) :
  fPrintBoard cfg board
  = (λ rows, concat ((λ row, ((λ v, pretty v +:+ " ") <$> row) ++ [nl])
                       <$> rows) ++ [nl])
    <$> board_rows cfg board.
Proof.
  unfold fPrintBoard, board_rows.
  rewrite (mapM_ext _ (λ j, row ← mapM (λ i, board_rd cfg board i j)
                                   (seqZ 0 (LX cfg));
                            Some (((λ v, pretty v +:+ " ") <$> row) ++ [nl]))).
  - rewrite mapM_bind_Some.
    by destruct (mapM _ (reverse (seqZ 0 (LY cfg)))).
  - intros j. rewrite mapM_bind_Some.
    by destruct (mapM _ (seqZ 0 (LX cfg))).
Qed.

Lemma cat_fPrintBoard (rows : list (list Z)) :
  cat (concat ((λ row, ((λ v, pretty v +:+ " ") <$> row) ++ [nl]) <$> rows)
       ++ [nl])
  = text_written rows.
Proof.
  unfold text_written. rewrite cat_app, cat_singleton, cat_concat.
  f_equal. rewrite <- list_fmap_compose. f_equal.
  apply list_fmap_ext. intros _ row _. simpl.
  by rewrite cat_app, cat_singleton.
Qed.

(** The rows of a board of [LX*LY] cells: there are [LY] of them, each of
    [LX] values, and value [i] of row [r] is [board[i][LY-1-r]]. *)
Lemma board_rows_spec (board : Board_t) :
  Z.of_nat (length board) = cells cfg →
  ∃ rows, board_rows cfg board = Some rows ∧
    length rows = Z.to_nat (LY cfg) ∧
    ∀ r row, rows !! r = Some row →
      length row = Z.to_nat (LX cfg) ∧
      ∀ i v, row !! i = Some v →
        board_rd cfg board (Z.of_nat i) (LY cfg - 1 - Z.of_nat r) = Some v.
Proof.
  intros Hlen. unfold board_rows.
  destruct (mapM_is_Some_2
    (λ j, mapM (λ i, board_rd cfg board i j) (seqZ 0 (LX cfg)))
    (reverse (seqZ 0 (LY cfg)))) as [rows Hrows].
  { apply Forall_forall. intros j Hj. apply elem_of_reverse, elem_of_seqZ in Hj.
    apply mapM_is_Some_2. apply Forall_forall. intros i Hi.
    apply elem_of_seqZ in Hi. simpl. unfold board_rd.
    assert (in_board cfg i j = true) as Hin by (apply in_board_true; lia).
    rewrite Hin. apply rd_is_Some. rewrite Hlen.
    by apply cell_in_range. }
  exists rows. split; [done|].
  apply mapM_Some in Hrows.
  pose proof (Forall2_length _ _ _ Hrows) as Hl.
  rewrite length_reverse, length_seqZ in Hl. split; [done|].
  intros r row Hr.
  destruct (Forall2_lookup_r _ _ _ _ _ Hrows Hr) as (j & Hj & Hrow).
  assert (j = LY cfg - 1 - Z.of_nat r) as ->.
  { pose proof (lookup_lt_Some _ _ _ Hr) as Hlt.
    rewrite reverse_lookup in Hj by (rewrite length_seqZ; lia).
    rewrite length_seqZ in Hj. apply lookup_seqZ in Hj. lia. }
  apply mapM_Some in Hrow.
  pose proof (Forall2_length _ _ _ Hrow) as Hl'.
  rewrite length_seqZ in Hl'. split; [done|].
  intros i v Hi.
  destruct (Forall2_lookup_r _ _ _ _ _ Hrow Hi) as (i' & Hi' & Hv).
  apply lookup_seqZ in Hi' as [-> _]. by rewrite Z.add_0_l in Hv.
Qed.

End Text.

(** ** The critical region *)

Section Critical.
Context (cfg : Config).

(** What the accesses of one critical region do when no other thread
    interferes, whatever the temporary holds on entry. *)
Lemma critical_ops_effect tid (track : Track_t) (board : Board_t) ops sh tmp :
  critical_ops cfg tid track board = Some ops →
  ∃ last first (closed : bool) text msg,
    rd track (cells cfg - 1) = Some last ∧ rd track 0 = Some first ∧
    closed = IsClosedTour (fx last) (fy last) (fx first) (fy first) ∧
    (if closed then ∃ rows, board_rows cfg board = Some rows ∧
                            text = text_written rows
     else text = "") ∧
    (foldl exec_op (sh, tmp) ops).1
    = mkShared (num_found sh + 1)
        (num_closed sh + (if closed then 1 else 0))
        (num_opened sh + (if closed then 0 else 1))
        (fc sh +:+ text) (console sh +:+ msg).
Proof.
  unfold critical_ops. intros H.
  destruct (rd track (cells cfg - 1)) as [last|] eqn:Hlast; [|done].
  destruct (rd track 0) as [first|] eqn:Hfirst; [|done]. simpl in H.
  exists last, first, (IsClosedTour (fx last) (fy last) (fx first) (fy first)).
  destruct (IsClosedTour _ _ _ _).
  - rewrite fPrintBoard_rows in H.
    destruct (board_rows cfg board) as [rows|] eqn:Hrows; [|done].
    simpl in H. injection H as <-.
    eexists (text_written rows), _. split; [done|]. split; [done|].
    split; [done|]. split; [by exists rows|].
    cbn [foldl app exec_op counter set_counter num_found num_closed
         num_opened fc console].
    rewrite exec_Fprintf. cbn [fst num_found num_closed num_opened fc console].
    rewrite cat_fPrintBoard, Z.add_0_r. reflexivity.
  - injection H as <-. eexists "", _. split; [done|]. split; [done|].
    split; [done|]. split; [done|]. simpl.
    rewrite append_empty_r, Z.add_0_r. reflexivity.
Qed.

(** C7, as the code has it.  With [track] and [board] of [LX*LY] entries,
    the critical region returns; it appends to [ClosedTour.txt] exactly
    when [IsClosedTour] holds of the last and the first cell of [track],
    and then it appends the [LY] rows of the board, row [LY-1] first and
    row 0 last, each as its [LX] values each followed by one space, then a
    newline, and one more newline after the last row. *)
Theorem closed_tour_text_appended tid l sh :
  Z.of_nat (length (board l)) = cells cfg →
  Z.of_nat (length (track l)) = cells cfg →
  0 < cells cfg →
  ∃ last first rows sh',
    rd (track l) (cells cfg - 1) = Some last ∧
    rd (track l) 0 = Some first ∧
    length rows = Z.to_nat (LY cfg) ∧
    (∀ r row, rows !! r = Some row →
       length row = Z.to_nat (LX cfg) ∧
       ∀ i v, row !! i = Some v →
         board_rd cfg (board l) (Z.of_nat i) (LY cfg - 1 - Z.of_nat r)
           = Some v) ∧
    critical cfg tid l sh = Some sh' ∧
    fc sh' = if IsClosedTour (fx last) (fy last) (fx first) (fy first)
             then fc sh +:+ text_written rows else fc sh.
Proof.
  intros Hb Ht Hpos.
  destruct (board_rows_spec cfg (board l) Hb) as (rows & Hrows & Hlen & Hrow).
  destruct (rd_is_Some (track l) (cells cfg - 1)) as [last Hlast]; [lia|].
  destruct (rd_is_Some (track l) 0) as [first Hfirst]; [lia|].
  assert (is_Some (critical_ops cfg tid (track l) (board l))) as [ops Hops].
  { unfold critical_ops. rewrite Hlast, Hfirst. simpl.
    rewrite fPrintBoard_rows, Hrows. simpl. by destruct (IsClosedTour _ _ _ _). }
  destruct (critical_ops_effect tid _ _ ops sh 0 Hops)
    as (last' & first' & closed & text & msg & Hl & Hf & -> & Htext & Heff).
  simplify_eq.
  exists last, first, rows. eexists. split; [done|]. split; [done|].
  split; [done|]. split; [done|]. split.
  { unfold critical. rewrite Hops. simpl. by rewrite Heff. }
  simpl. destruct (IsClosedTour _ _ _ _).
  - destruct Htext as (rows' & Hrows' & ->). by simplify_eq.
  - subst text. by rewrite append_empty_r.
Qed.

End Critical.

Lemma closed_tour_text_appended_witness :
  ∃ last first rows sh',
    rd (track closed_tour_state) (cells source_config - 1) = Some last ∧
    rd (track closed_tour_state) 0 = Some first ∧
    length rows = Z.to_nat (LY source_config) ∧
    (∀ r row, rows !! r = Some row →
       length row = Z.to_nat (LX source_config) ∧
       ∀ i v, row !! i = Some v →
         board_rd source_config (board closed_tour_state) (Z.of_nat i)
           (LY source_config - 1 - Z.of_nat r) = Some v) ∧
    critical source_config 0 closed_tour_state (mkShared 0 0 0 "" "")
      = Some sh' ∧
    fc sh' = if IsClosedTour (fx last) (fy last) (fx first) (fy first)
             then fc (mkShared 0 0 0 "" "") +:+ text_written rows
             else fc (mkShared 0 0 0 "" "").
Proof.
  apply (closed_tour_text_appended source_config 0 closed_tour_state
           (mkShared 0 0 0 "" "")); vm_compute; reflexivity.
Defined.

(** C7, as stated, fails: for the closed tour [closed_tour] of the 6×6
    board the critical region appends a text whose rows end in a space
    before the newline, which is not the rows with their values separated
    by single spaces. *)
Lemma closed_tour_text_not_space_separated :
  IsClosedTour 4 3 5 5 = true ∧
  ∃ rows,
    board_rows source_config closed_tour_board = Some rows ∧
    fc <$> critical source_config 0 closed_tour_state (mkShared 0 0 0 "" "")
      = Some (text_written rows) ∧
    text_written rows ≠ text_specified rows.
Proof.
  split; [reflexivity|]. eexists. split; [vm_compute; reflexivity|].
  split; [vm_compute; reflexivity|]. vm_compute. discriminate.
Qed.

(** ** [main] *)

Section Main.
Context (cfg : Config).

Lemma critical_counts tid l sh sh' :
  critical cfg tid l sh = Some sh' →
  num_found sh' = num_found sh + 1 ∧
  (num_closed sh' = num_closed sh + 1 ∧ num_opened sh' = num_opened sh
   ∨ num_closed sh' = num_closed sh ∧ num_opened sh' = num_opened sh + 1).
Proof.
  unfold critical. intros H.
  destruct (critical_ops cfg tid (track l) (board l)) as [ops|] eqn:Hops;
    [|done].
  simpl in H. injection H as <-.
  destruct (critical_ops_effect cfg tid _ _ ops sh 0 Hops)
    as (last & first & closed & text & msg & _ & _ & _ & _ & ->).
  simpl. destruct closed; lia.
Qed.

Lemma run_balanced fuel tid l sh l' sh' :
  run cfg fuel tid l sh = Done (l', sh') → balanced sh → balanced sh'.
Proof.
  revert l sh. induction fuel as [|fuel IH]; intros l sh; simpl; [done|].
  destruct (next cfg l) as [l1| | |]; try done.
  - apply IH.
  - destruct (critical cfg tid l sh) as [sh1|] eqn:Hc; [|done]. simpl.
    intros Hrun Hbal. eapply IH; [done|].
    apply critical_counts in Hc. unfold balanced in *. lia.
  - by intros [= <- <-].
Qed.

Lemma pattern_loop_result n fuel tid rand (b : Board_t) (t : Track_t)
    (mv : Move_t) pos sh units pos' sh' units' :
  pattern_loop cfg n fuel tid rand b t mv pos sh units
    = Done (pos', sh', units') →
  units' = (units + n)%nat ∧ (balanced sh → balanced sh').
Proof.
  revert b t mv pos sh units. induction n as [|n IH];
    intros b t mv pos sh units; simpl.
  - intros [= <- <- <-]. split; [lia|done].
  - destruct (ShuffleMovePattern cfg rand pos mv) as [[mv1 pos1]|]; [|done].
    simpl. destruct (attempt_start cfg b t mv1) as [l|]; [|done]. simpl.
    destruct (run cfg fuel tid l sh) as [[l1 sh1]| |] eqn:Hrun; [|done..].
    simpl. intros Hrest. apply IH in Hrest as [-> Hbal].
    split; [lia|]. intros ?. apply Hbal. by eapply run_balanced.
Qed.

Lemma start_loop_result n fuel rand stack num_start pos sh units
    pos' sh' units' :
  start_loop cfg n fuel rand stack num_start pos sh units
    = Done (pos', sh', units') →
  units' = (units + n * Z.to_nat (MAX_PATTERN cfg))%nat ∧
  (balanced sh → balanced sh').
Proof.
  revert num_start pos sh units. induction n as [|n IH];
    intros num_start pos sh units; simpl.
  - intros [= <- <- <-]. split; [lia|done].
  - destruct (start_track cfg (stack num_start).2) as [t|]; [|done]. simpl.
    destruct (pattern_loop cfg _ fuel 0 rand _ t knight_moves pos sh units)
      as [[[pos1 sh1] units1]| |] eqn:Hpat; [|done..].
    simpl. intros Hrest. apply IH in Hrest as [-> Hbal].
    apply pattern_loop_result in Hpat as [-> Hbal1].
    split; [lia|]. auto.
Qed.

Lemma main_Done fuel rand stack file0 e :
  config_error cfg = false →
  main cfg fuel rand stack file0 = Done e →
  units_launched e
    = (Z.to_nat (MAX_START cfg) * Z.to_nat (MAX_PATTERN cfg))%nat ∧
  balanced (final e).
Proof.
  unfold main. intros -> H.
  destruct (start_loop cfg _ fuel rand stack 0 0 _ 0)
    as [[[pos1 sh1] units1]| |] eqn:Hloop; [|done..].
  simpl in H. injection H as <-. simpl.
  apply start_loop_result in Hloop as [-> Hbal]. split; [lia|].
  unfold balanced in *. simpl in *. apply Hbal. lia.
Qed.

(** C3, as the code has it.  The budget is tested against [8^(LX*LY)].
    When the budget is not below it, [main] returns at once: the error
    message is all that was printed, no search was begun and the file holds
    what it held.  When the budget is below it, [main] goes on to the loops
    over the start positions and the move patterns, and whenever it
    returns, [MAX_START*MAX_PATTERN] searches have been begun. *)
Theorem main_tests_budget_against_8_pow_cells fuel rand stack file0 :
  (MAX_MOVE_PATTERN ^ cells cfg <= MAX_TRY cfg ∧
   main cfg fuel rand stack file0
     = Done (mkExit (mkShared 0 0 0 file0 error_message) 0))
  ∨ (MAX_TRY cfg < MAX_MOVE_PATTERN ^ cells cfg ∧
     main cfg fuel rand stack file0
       = rbind (start_loop cfg (Z.to_nat (MAX_START cfg)) fuel rand stack
                  0 0 (mkShared 0 0 0 file0 "") 0)
           (λ '(_, sh, units),
              Done (mkExit (mkShared (num_found sh) (num_closed sh)
                              (num_opened sh) (fc sh)
                              (console sh +:+ totals sh)) units)) ∧
     ∀ e, main cfg fuel rand stack file0 = Done e →
       units_launched e
       = (Z.to_nat (MAX_START cfg) * Z.to_nat (MAX_PATTERN cfg))%nat).
Proof.
  destruct (config_error cfg) eqn:Herr.
  - left. unfold config_error in Herr. apply bool_decide_eq_true in Herr.
    split; [lia|]. unfold main, config_error.
    by rewrite bool_decide_eq_true_2.
  - right. pose proof Herr as Herr'.
    unfold config_error in Herr. apply bool_decide_eq_false in Herr.
    split; [lia|]. split.
    + unfold main, config_error. by rewrite bool_decide_eq_false_2.
    + intros e He. by destruct (main_Done fuel rand stack file0 e Herr' He).
Qed.

End Main.

(** C3, as stated, fails: with the budget [8^35] on the 6×6 board, which
    is not below [8^(LX*LY-1)], the test of line 61 passes and [main]
    enters the first search (here it runs out of the fuel given). *)
Lemma budget_8_pow_35_is_accepted :
  MAX_MOVE_PATTERN ^ (cells budget_8_pow_35 - 1) <= MAX_TRY budget_8_pow_35 ∧
  config_error budget_8_pow_35 = false ∧
  main budget_8_pow_35 0 (λ _, 0%nat) zero_stack "" = NoFuel.
Proof. split; [|split]; vm_compute; by try discriminate. Qed.

Lemma main_tests_budget_witness :
  ∃ e,
    main budget_50 1000 (λ i, (i * 7 + 3)%nat) zero_stack "" = Done e ∧
    units_launched e = 20%nat.
Proof.
  destruct (main_tests_budget_against_8_pow_cells budget_50 1000
              (λ i, (i * 7 + 3)%nat) zero_stack "")
    as [[Hle _]|(_ & _ & Hunits)].
  - vm_compute in Hle. by exfalso.
  - destruct (main budget_50 1000 _ zero_stack "") as [e| |] eqn:He.
    + exists e. split; [reflexivity|]. by apply Hunits.
    + vm_compute in He. discriminate.
    + vm_compute in He. discriminate.
Defined.

(** ** A search that uses up its moves *)

Lemma budget_beyond_ulong cfg l :
  2 ^ 64 <= MAX_TRY cfg → wf cfg l → next cfg l ≠ Halt.
Proof.
  intros Hbig Hwf. pose proof (wf_num_try _ _ Hwf) as Hn.
  unfold next. destruct (pc l); try done.
  - rewrite bool_decide_eq_true_2 by lia. done.
  - by destruct (_ ≫= _).
  - by destruct (_ ≫= _).
  - by destruct (back cfg l PcCascadeFull).
  - by destruct (_ ≫= _).
Qed.

(** C2 on the code.  With [MAX_TRY] defined as [1E20] the test of line 61
    passes, and the search that starts from (5,5) on the 6×6 board with
    the moves in their initial order never leaves the budget loop: after
    finitely many transitions it calls [BackTrace] with [step] 0, which
    reads and writes [track[-1]]. *)
Theorem budget_1e20_search_leaves_track :
  config_error budget_1e20 = false ∧
  ∃ l0 n l,
    attempt_start budget_1e20 zero_board first_track knight_moves = Some l0 ∧
    advances budget_1e20 n l0 = Some l ∧
    next budget_1e20 l = Fault ∧
    step l = 0 ∧
    BackTrace budget_1e20 0 (track l) (board l) = None ∧
    rd (track l) (-1) = None.
Proof.
  split; [vm_compute; reflexivity|].
  destruct (attempt_start budget_1e20 zero_board first_track knight_moves)
    as [l0|] eqn:Hstart; [|vm_compute in Hstart; discriminate].
  assert (Hwf : wf budget_1e20 l0).
  { by apply (attempt_start_wf budget_1e20 zero_board first_track
                knight_moves). }
  assert (Hmove : length (move l0) = 8%nat).
  { vm_compute in Hstart. by injection Hstart as <-. }
  destruct (search_ends budget_1e20 l0 Hwf Hmove)
    as (n & l & Hn & [(Hhalt & _)|(Hfault & Hs & HB & Hrd)]).
  - exfalso. eapply (budget_beyond_ulong budget_1e20 l); [|by eapply advances_wf|done].
    vm_compute. discriminate.
  - exists l0, n, l. rewrite Hs in HB, Hrd. done.
Qed.

(** The same on a 3×3 board searched from the corner (0,0) with a budget
    of 1000: after 254 transitions and 120 moves tried every move order has
    been explored, and [BackTrace] is called with [step] 0. *)
Example small_board_search_leaves_track :
  ∃ l0 l,
    attempt_start small_board (replicate 9 0) (replicate 9 (mkFrame 0 0 0))
      knight_moves = Some l0 ∧
    advances small_board 254 l0 = Some l ∧
    num_try l = 120 ∧ step l = 0 ∧ pc l = PcCascade ∧
    deref (track l) (k l) = Some 8 ∧
    next small_board l = Fault.
Proof.
  do 2 eexists.
  split; [vm_compute; reflexivity|].
  split; [vm_compute; reflexivity|].
  split_and!; vm_compute; reflexivity.
Qed.

(** ** Threads interleaved *)

Section Interleaving.
Context (cfg : Config).

Lemma one_by_one_snoc sh past ops :
  one_by_one sh (past ++ [ops])
  = (foldl exec_op (one_by_one sh past, 0) ops).1.
Proof. unfold one_by_one. by rewrite foldl_app. Qed.

Lemma inside_is_owner sh0 g i t rest :
  coherent cfg sh0 g → threads g !! i = Some t → th_ops t = Some rest →
  ∃ past made,
    owner g = Some i ∧ entered g = past ++ [made ++ rest] ∧
    (shared g, th_tmp t) = foldl exec_op (one_by_one sh0 past, 0) made ∧
    (∀ j t', j ≠ i → threads g !! j = Some t' → th_ops t' = None).
Proof.
  intros [_ Hstate] Hti Hops. destruct (owner g) as [o|].
  - destruct Hstate
      as (t0 & past & made & rest0 & Ht0 & Hrest & Hent & Hsh & Hoth).
    assert (o = i) as ->.
    { destruct (decide (o = i)); [done|].
      specialize (Hoth i t ltac:(done) Hti). congruence. }
    rewrite Hti in Ht0. injection Ht0 as <-.
    rewrite Hops in Hrest. injection Hrest as <-.
    by exists past, made.
  - destruct Hstate as [Hall _]. specialize (Hall i t Hti). congruence.
Qed.

Lemma thread_step_coherent sh0 i g :
  coherent cfg sh0 g → coherent cfg sh0 (thread_step cfg i g).
Proof.
  intros Hcoh. unfold thread_step.
  destruct (threads g !! i) as [t|] eqn:Hti; [|done].
  pose proof (lookup_lt_Some _ _ _ Hti) as Hlt.
  destruct (th_ops t) as [[|op ops]|] eqn:Hops.
  - (* leaving the region *)
    destruct (inside_is_owner sh0 g i t [] Hcoh Hti Hops)
      as (past & made & Ho & Hent & Hsh & Hoth).
    destruct Hcoh as [Hhist _].
    constructor; simpl; [done|]. split.
    + intros j t' Hj. destruct (decide (j = i)) as [->|Hne].
      * rewrite list_lookup_insert_eq in Hj by done.
        by injection Hj as <-.
      * rewrite list_lookup_insert_ne in Hj by done. by eapply Hoth.
    + rewrite Hent, app_nil_r, one_by_one_snoc. by rewrite <- Hsh.
  - (* one access inside the region *)
    destruct (inside_is_owner sh0 g i t (op :: ops) Hcoh Hti Hops)
      as (past & made & Ho & Hent & Hsh & Hoth).
    destruct Hcoh as [Hhist _].
    destruct (exec_op (shared g, th_tmp t) op) as [sh' tmp'] eqn:Hexec.
    constructor; simpl; [done|]. rewrite Ho.
    eexists _, past, (made ++ [op]), ops.
    split; [by apply list_lookup_insert_eq|]. simpl.
    split; [done|]. split; [by rewrite <- app_assoc|]. split.
    + rewrite foldl_app. simpl. by rewrite <- Hsh.
    + intros j t' Hne Hj. rewrite list_lookup_insert_ne in Hj by done.
      by eapply Hoth.
  - (* outside the region *)
    destruct Hcoh as [Hhist Hstate].
    assert (Hkeep : ∀ t1, th_ops t1 = None →
              coherent cfg sh0 (set_thread g i t1)).
    { intros t1 Ht1. constructor; simpl; [done|].
      destruct (owner g) as [o|] eqn:Ho.
      - destruct Hstate
          as (t0 & past & made & rest & Ht0 & Hrest & Hent & Hsh & Hoth).
        assert (o ≠ i) as Hne by (intros ->; congruence).
        exists t0, past, made, rest.
        split; [by rewrite list_lookup_insert_ne|].
        split; [done|]. split; [done|]. split; [done|].
        intros j t' Hj Hlook. destruct (decide (j = i)) as [->|Hji].
        + rewrite list_lookup_insert_eq in Hlook by done.
          by injection Hlook as <-.
        + rewrite list_lookup_insert_ne in Hlook by done. by eapply Hoth.
      - destruct Hstate as [Hall Hsh]. split; [|done].
        intros j t' Hlook. destruct (decide (j = i)) as [->|Hji].
        + rewrite list_lookup_insert_eq in Hlook by done.
          by injection Hlook as <-.
        + rewrite list_lookup_insert_ne in Hlook by done. by eapply Hall. }
    destruct (next cfg (th_local t)) as [l'| | |] eqn:Hnext.
    + by apply Hkeep.
    + destruct (owner g) as [o|] eqn:Ho; [by constructor; rewrite ?Ho|].
      destruct (critical_ops cfg _ _ _) as [ops|] eqn:Hcrit;
        [|by constructor; rewrite ?Ho].
      destruct Hstate as [Hall Hsh]. constructor; simpl.
      * apply Forall_app. split; [done|]. apply Forall_singleton.
        by eexists _, _, _.
      * eexists _, (entered g), [], ops.
        split; [by apply list_lookup_insert_eq|]. simpl.
        split; [done|]. split; [done|]. split; [by rewrite Hsh|].
        intros j t' Hne Hj. rewrite list_lookup_insert_ne in Hj by done.
        by eapply Hall.
    + destruct (th_later t) as [|l' ls]; [by constructor|]. by apply Hkeep.
    + by constructor.
Qed.

Lemma interleave_coherent sh0 schedule g :
  coherent cfg sh0 g → coherent cfg sh0 (interleave cfg schedule g).
Proof.
  revert g. induction schedule as [|i schedule IH]; intros g Hg; [done|].
  simpl. apply IH. by apply thread_step_coherent.
Qed.

(** The regions of a history executed one by one: each adds one to
    [num_found], and the file grows by whole dumps. *)
Lemma one_by_one_effect sh history :
  Forall (a_region cfg) history →
  ∃ texts,
    Forall (a_dump cfg) texts ∧
    num_found (one_by_one sh history)
      = num_found sh + Z.of_nat (length history) ∧
    num_closed (one_by_one sh history)
      = num_closed sh + Z.of_nat (length texts) ∧
    num_opened (one_by_one sh history)
      = num_opened sh + Z.of_nat (length history) - Z.of_nat (length texts) ∧
    fc (one_by_one sh history) = fc sh +:+ cat texts.
Proof.
  induction history as [|ops history IH] using rev_ind; intros Hall.
  - exists []. split; [done|]. simpl. rewrite append_empty_r.
    split_and!; [lia..|done].
  - apply Forall_app in Hall as [Hall Hops].
    apply Forall_singleton in Hops as (tid & track & board & Hops).
    destruct (IH Hall) as (texts & Hdumps & Hf & Hc & Ho & Hfc).
    rewrite one_by_one_snoc.
    destruct (critical_ops_effect cfg tid track board ops
                (one_by_one sh history) 0 Hops)
      as (last & first & closed & text & msg & _ & _ & _ & Htext & ->).
    rewrite length_app. simpl. destruct closed.
    + destruct Htext as (rows & Hrows & ->).
      exists (texts ++ [text_written rows]). split.
      { apply Forall_app. split; [done|]. apply Forall_singleton.
        by exists board, rows. }
      rewrite length_app, cat_app, cat_singleton. simpl.
      rewrite Hfc, append_assoc. split_and!; [lia..|done].
    + subst text. exists texts. split; [done|]. simpl.
      rewrite append_empty_r. split_and!; [lia..|done].
Qed.

Lemma at_start_coherent g : at_start g → coherent cfg (shared g) g.
Proof.
  intros (Ho & He & Hall). constructor.
  - rewrite He. constructor.
  - rewrite Ho, He. split; [|done]. intros j t Hj.
    by eapply (proj1 (Forall_lookup _ _) Hall).
Qed.

Lemma regions_entered_effect schedule g0 :
  at_start g0 → owner (interleave cfg schedule g0) = None →
  ∃ texts,
    Forall (a_dump cfg) texts ∧
    num_found (shared (interleave cfg schedule g0))
      = num_found (shared g0)
        + Z.of_nat (length (entered (interleave cfg schedule g0))) ∧
    num_closed (shared (interleave cfg schedule g0))
      = num_closed (shared g0) + Z.of_nat (length texts) ∧
    num_opened (shared (interleave cfg schedule g0))
      = num_opened (shared g0)
        + Z.of_nat (length (entered (interleave cfg schedule g0)))
        - Z.of_nat (length texts) ∧
    fc (shared (interleave cfg schedule g0))
      = fc (shared g0) +:+ cat texts.
Proof.
  intros Hstart Ho.
  pose proof (interleave_coherent (shared g0) schedule g0
                (at_start_coherent g0 Hstart)) as Hcoh.
  pose proof (coh_state _ _ _ Hcoh) as Hstate.
  rewrite Ho in Hstate. destruct Hstate as [_ Hsh]. rewrite Hsh.
  apply one_by_one_effect. apply (coh_history _ _ _ Hcoh).
Qed.

(** C9.  Let the threads take their transitions in any order, each access
    to the shared state inside a critical region being a transition of its
    own.  At every moment at most one thread is inside a critical region.
    Whenever none is inside, the shared state is the one the regions
    entered so far produce when executed whole, one after the other, in
    the order they were entered: [num_found] has grown by their number,
    [num_closed] by the number of dumps and [num_opened] by the rest, and
    the file has grown by whole dumps, one after the other. *)
Theorem critical_regions_one_at_a_time schedule g0 :
  at_start g0 →
  (∀ i j ti tj,
     threads (interleave cfg schedule g0) !! i = Some ti →
     threads (interleave cfg schedule g0) !! j = Some tj →
     is_Some (th_ops ti) → is_Some (th_ops tj) → i = j) ∧
  Forall (a_region cfg) (entered (interleave cfg schedule g0)) ∧
  (owner (interleave cfg schedule g0) = None →
   shared (interleave cfg schedule g0)
     = one_by_one (shared g0) (entered (interleave cfg schedule g0)) ∧
   ∃ texts,
     Forall (a_dump cfg) texts ∧
     num_found (shared (interleave cfg schedule g0))
       = num_found (shared g0)
         + Z.of_nat (length (entered (interleave cfg schedule g0))) ∧
     num_closed (shared (interleave cfg schedule g0))
       = num_closed (shared g0) + Z.of_nat (length texts) ∧
     num_opened (shared (interleave cfg schedule g0))
       = num_opened (shared g0)
         + Z.of_nat (length (entered (interleave cfg schedule g0)))
         - Z.of_nat (length texts) ∧
     fc (shared (interleave cfg schedule g0))
       = fc (shared g0) +:+ cat texts).
Proof.
  intros Hstart.
  pose proof (interleave_coherent (shared g0) schedule g0
                (at_start_coherent g0 Hstart)) as Hcoh.
  set (g := interleave cfg schedule g0) in *.
  split; [|split].
  - intros i j ti tj Hi Hj [ri Hri] [rj Hrj].
    destruct (inside_is_owner _ _ _ _ _ Hcoh Hi Hri) as (_ & _ & Hoi & _).
    destruct (inside_is_owner _ _ _ _ _ Hcoh Hj Hrj) as (_ & _ & Hoj & _).
    congruence.
  - apply (coh_history _ _ _ Hcoh).
  - intros Ho. split.
    + pose proof (coh_state _ _ _ Hcoh) as Hstate.
      rewrite Ho in Hstate. by destruct Hstate as [_ Hsh].
    + by apply regions_entered_effect.
Qed.

(** Between critical regions the counters agree. *)
Lemma interleave_balanced schedule g0 :
  at_start g0 → balanced (shared g0) →
  owner (interleave cfg schedule g0) = None →
  balanced (shared (interleave cfg schedule g0)).
Proof.
  intros Hstart Hbal Ho.
  destruct (regions_entered_effect schedule g0 Hstart Ho)
    as (texts & _ & Hf & Hc & Hop & _).
  unfold balanced in *. lia.
Qed.

End Interleaving.

(** ** The critical region of a thread *)

Section Regions.
Context (cfg : Config).

Lemma critical_returns tid l sh :
  Z.of_nat (length (board l)) = cells cfg →
  Z.of_nat (length (track l)) = cells cfg →
  0 < cells cfg →
  is_Some (critical cfg tid l sh).
Proof.
  intros Hb Ht Hpos.
  destruct (board_rows_spec cfg (board l) Hb) as (rows & Hrows & _).
  destruct (rd_is_Some (track l) (cells cfg - 1)) as [last Hlast]; [lia|].
  destruct (rd_is_Some (track l) 0) as [first Hfirst]; [lia|].
  unfold critical, critical_ops. rewrite Hlast, Hfirst. simpl.
  rewrite fPrintBoard_rows, Hrows. simpl.
  by destruct (IsClosedTour _ _ _ _).
Qed.

(** A thread inside the critical region that takes the transitions of
    the accesses it has left makes them on the shared state, whatever the
    other threads are. *)
Lemma accesses_made i ops g t :
  threads g !! i = Some t → th_ops t = Some ops →
  ∃ t',
    interleave cfg (replicate (length ops) i) g
    = mkGlobal (foldl exec_op (shared g, th_tmp t) ops).1 (owner g)
        (<[i := t']> (threads g)) (entered g) ∧
    th_ops t' = Some [] ∧ th_id t' = th_id t ∧ th_local t' = th_local t ∧
    th_later t' = th_later t.
Proof.
  revert g t. induction ops as [|op ops IH]; intros g t Hti Hops.
  - exists t. simpl. rewrite list_insert_id by done. by destruct g.
  - pose proof (lookup_lt_Some _ _ _ Hti) as Hlt.
    cbn [length replicate interleave foldl].
    change (foldl (λ g i, thread_step cfg i g) (thread_step cfg i g)
              (replicate (length ops) i))
      with (interleave cfg (replicate (length ops) i) (thread_step cfg i g)).
    assert (Hstep : thread_step cfg i g
      = mkGlobal (exec_op (shared g, th_tmp t) op).1 (owner g)
          (<[i := mkThread (th_id t) (th_local t) (th_later t) (Some ops)
                   (exec_op (shared g, th_tmp t) op).2]> (threads g))
          (entered g)).
    { unfold thread_step. rewrite Hti, Hops.
      by destruct (exec_op (shared g, th_tmp t) op). }
    rewrite Hstep.
    set (t1 := mkThread (th_id t) (th_local t) (th_later t) (Some ops)
                 (exec_op (shared g, th_tmp t) op).2).
    set (g1 := mkGlobal (exec_op (shared g, th_tmp t) op).1 (owner g)
                 (<[i := t1]> (threads g)) (entered g)).
    destruct (IH g1 t1) as (t' & Hrun & Hops' & Hid & Hloc & Hlater).
    { simpl. by apply list_lookup_insert_eq. }
    { done. }
    exists t'. rewrite Hrun. subst g1 t1.
    cbn [shared owner threads entered th_tmp th_id th_local th_later] in *.
    rewrite list_insert_insert_eq. split; [|done].
    by rewrite <- surjective_pairing.
Qed.

(** A thread that stands at a full board while no thread is inside the
    critical region enters it at its next transition, makes its accesses
    and leaves it: the shared state is then the one the region executed
    whole produces. *)
Lemma region_runs_whole i g t :
  threads g !! i = Some t → th_ops t = None → owner g = None →
  pc (th_local t) = PcFull →
  Z.of_nat (length (board (th_local t))) = cells cfg →
  Z.of_nat (length (track (th_local t))) = cells cfg →
  0 < cells cfg →
  ∃ (n : nat) sh',
    critical cfg (th_id t) (th_local t) (shared g) = Some sh' ∧
    shared (interleave cfg (replicate n i) g) = sh' ∧
    owner (interleave cfg (replicate n i) g) = None ∧
    length (entered (interleave cfg (replicate n i) g))
      = S (length (entered g)).
Proof.
  intros Hti Hops Ho Hpc Hb Ht Hpos.
  pose proof (lookup_lt_Some _ _ _ Hti) as Hlt.
  destruct (critical_returns (th_id t) (th_local t) (shared g) Hb Ht Hpos)
    as [sh' Hc].
  unfold critical in Hc.
  destruct (critical_ops cfg (th_id t) (track (th_local t))
              (board (th_local t))) as [ops|] eqn:Hcr; [|done].
  simpl in Hc. injection Hc as <-.
  exists (S (length ops + 1)). eexists. split.
  { unfold critical. rewrite Hcr. reflexivity. }
  assert (Henter : thread_step cfg i g
    = mkGlobal (shared g) (Some i)
        (<[i := mkThread (th_id t) (th_local t) (th_later t) (Some ops) 0]>
           (threads g))
        (entered g ++ [ops])).
  { unfold thread_step. rewrite Hti, Hops. unfold next. rewrite Hpc.
    by rewrite Ho, Hcr. }
  cbn [replicate interleave foldl]. rewrite Henter.
  change (foldl (λ g i, thread_step cfg i g) ?g0 ?s)
    with (interleave cfg s g0).
  rewrite replicate_add. unfold interleave. rewrite foldl_app.
  change (foldl (λ g i, thread_step cfg i g) ?g0 (replicate (length ops) i))
    with (interleave cfg (replicate (length ops) i) g0).
  edestruct (accesses_made i ops
               (mkGlobal (shared g) (Some i)
                  (<[i := mkThread (th_id t) (th_local t) (th_later t)
                           (Some ops) 0]> (threads g))
                  (entered g ++ [ops])))
    as (t' & Hrun & Hops' & _).
  { simpl. by apply list_lookup_insert_eq. }
  { done. }
  rewrite Hrun. cbn [replicate foldl]. unfold thread_step.
  cbn [threads shared owner entered th_tmp].
  rewrite list_lookup_insert_eq by (by rewrite length_insert).
  rewrite Hops'. cbn [shared owner entered].
  split; [done|]. split; [done|]. rewrite length_app. simpl. lia.
Qed.

End Regions.

(** ** The counters *)

(** C10.  With arrays of [LX*LY] entries, as at every full board, the
    critical region returns, and it adds one to [num_found] and one to
    exactly one of [num_closed] and [num_opened].  So [num_found] is
    [num_closed + num_opened] when [main] returns; and, with the threads
    interleaved in any order, whenever no thread is inside a critical
    region [num_found] has grown by the number of the regions entered and
    is [num_closed + num_opened].  A thread that stands at a full board
    while no thread is inside enters the region with its next transition
    and, given the transitions of its accesses, leaves it with
    [num_found] one more and one of [num_closed] and [num_opened] one
    more. *)
Theorem num_found_is_closed_plus_opened cfg :
  (∀ tid l sh,
     Z.of_nat (length (board l)) = cells cfg →
     Z.of_nat (length (track l)) = cells cfg →
     0 < cells cfg →
     ∃ sh', critical cfg tid l sh = Some sh' ∧
       num_found sh' = num_found sh + 1 ∧
       (num_closed sh' = num_closed sh + 1 ∧ num_opened sh' = num_opened sh
        ∨ num_closed sh' = num_closed sh
          ∧ num_opened sh' = num_opened sh + 1))
  ∧ (∀ fuel rand stack file0 e,
       main cfg fuel rand stack file0 = Done e →
       num_found (final e) = num_closed (final e) + num_opened (final e))
  ∧ (∀ schedule g0,
       at_start g0 →
       num_found (shared g0) = num_closed (shared g0) + num_opened (shared g0) →
       owner (interleave cfg schedule g0) = None →
       num_found (shared (interleave cfg schedule g0))
       = num_found (shared g0)
         + Z.of_nat (length (entered (interleave cfg schedule g0))) ∧
       num_found (shared (interleave cfg schedule g0))
       = num_closed (shared (interleave cfg schedule g0))
         + num_opened (shared (interleave cfg schedule g0)))
  ∧ (∀ i g t,
       threads g !! i = Some t → th_ops t = None → owner g = None →
       pc (th_local t) = PcFull →
       Z.of_nat (length (board (th_local t))) = cells cfg →
       Z.of_nat (length (track (th_local t))) = cells cfg →
       0 < cells cfg →
       ∃ n : nat,
         owner (interleave cfg (replicate n i) g) = None ∧
         length (entered (interleave cfg (replicate n i) g))
           = S (length (entered g)) ∧
         num_found (shared (interleave cfg (replicate n i) g))
           = num_found (shared g) + 1 ∧
         (num_closed (shared (interleave cfg (replicate n i) g))
            = num_closed (shared g) + 1
          ∧ num_opened (shared (interleave cfg (replicate n i) g))
            = num_opened (shared g)
          ∨ num_closed (shared (interleave cfg (replicate n i) g))
            = num_closed (shared g)
          ∧ num_opened (shared (interleave cfg (replicate n i) g))
            = num_opened (shared g) + 1)).
Proof.
  split; [|split; [|split]].
  - intros tid l sh Hb Ht Hpos.
    destruct (critical_returns cfg tid l sh Hb Ht Hpos) as [sh' Hc].
    exists sh'. split; [done|]. by apply critical_counts in Hc.
  - intros fuel rand stack file0 e He.
    destruct (config_error cfg) eqn:Herr.
    + unfold main in He. rewrite Herr in He. by injection He as <-.
    + by destruct (main_Done cfg fuel rand stack file0 e Herr He).
  - intros schedule g0 Hstart Hbal Ho. split.
    + by destruct (regions_entered_effect cfg schedule g0 Hstart Ho)
        as (texts & _ & Hf & _).
    + by apply interleave_balanced.
  - intros i g t Hti Hops Ho Hpc Hb Ht Hpos.
    destruct (region_runs_whole cfg i g t Hti Hops Ho Hpc Hb Ht Hpos)
      as (n & sh' & Hc & Hsh & Ho' & Hent).
    exists n. rewrite Hsh. split; [done|]. split; [done|].
    by apply critical_counts in Hc.
Qed.

(** ** The properties at concrete inputs *)

Lemma two_threads_at_start : at_start two_threads.
Proof. split; [done|]. split; [done|]. by repeat constructor. Qed.

Lemma num_found_is_closed_plus_opened_witness :
  (∃ l,
     advances odd_board 184 (mkLocal (<[16%nat := 1]> (replicate 21 0))
       odd_board_track knight_moves 0 0 0 PcBudget) = Some l ∧
     pc l = PcFull ∧
     critical odd_board 0 l (mkShared 0 0 0 "" "")
       = Some (mkShared 1 0 1 "" (found_line 0 false)) ∧
     ∃ sh', critical odd_board 0 l (mkShared 0 0 0 "" "") = Some sh' ∧
       num_found sh' = 0 + 1 ∧
       (num_closed sh' = 0 + 1 ∧ num_opened sh' = 0
        ∨ num_closed sh' = 0 ∧ num_opened sh' = 0 + 1))
  ∧ (∃ e,
       main odd_board 5000 (λ _, 0%nat) zero_stack_21 "" = Done e ∧
       num_found (final e) = 6 ∧ num_closed (final e) = 0 ∧
       num_opened (final e) = 6 ∧
       num_found (final e) = num_closed (final e) + num_opened (final e))
  ∧ (num_found (shared (interleave source_config taking_turns two_threads))
       = 2 ∧
     num_closed (shared (interleave source_config taking_turns two_threads))
       = 2 ∧
     num_opened (shared (interleave source_config taking_turns two_threads))
       = 0 ∧
     length (entered (interleave source_config taking_turns two_threads))
       = 2%nat ∧
     num_found (shared (interleave source_config taking_turns two_threads))
     = num_found (shared two_threads)
       + Z.of_nat
           (length (entered (interleave source_config taking_turns
                               two_threads))) ∧
     num_found (shared (interleave source_config taking_turns two_threads))
     = num_closed (shared (interleave source_config taking_turns two_threads))
       + num_opened
           (shared (interleave source_config taking_turns two_threads)))
  ∧ (∃ n : nat,
       owner (interleave source_config (replicate n 0%nat) two_threads)
         = None ∧
       length (entered (interleave source_config (replicate n 0%nat)
                          two_threads))
         = S (length (entered two_threads)) ∧
       num_found (shared (interleave source_config (replicate n 0%nat)
                            two_threads))
         = num_found (shared two_threads) + 1 ∧
       (num_closed (shared (interleave source_config (replicate n 0%nat)
                              two_threads))
          = num_closed (shared two_threads) + 1
        ∧ num_opened (shared (interleave source_config (replicate n 0%nat)
                                two_threads))
          = num_opened (shared two_threads)
        ∨ num_closed (shared (interleave source_config (replicate n 0%nat)
                                two_threads))
          = num_closed (shared two_threads)
        ∧ num_opened (shared (interleave source_config (replicate n 0%nat)
                                two_threads))
          = num_opened (shared two_threads) + 1)).
Proof.
  split; [|split; [|split]].
  - eexists. split; [vm_compute; reflexivity|]. split; [reflexivity|].
    split; [vm_compute; reflexivity|].
    apply (proj1 (num_found_is_closed_plus_opened odd_board) 0 _
             (mkShared 0 0 0 "" "")).
    + reflexivity.
    + reflexivity.
    + reflexivity.
  - eexists. split; [vm_compute; reflexivity|].
    split; [reflexivity|]. split; [reflexivity|]. split; [reflexivity|].
    apply (proj1 (proj2 (num_found_is_closed_plus_opened odd_board))
             5000%nat (λ _, 0%nat) zero_stack_21 "").
    vm_compute. reflexivity.
  - split; [vm_compute; reflexivity|]. split; [vm_compute; reflexivity|].
    split; [vm_compute; reflexivity|]. split; [vm_compute; reflexivity|].
    apply (proj1 (proj2 (proj2
             (num_found_is_closed_plus_opened source_config)))).
    + apply two_threads_at_start.
    + reflexivity.
    + vm_compute. reflexivity.
  - apply (proj2 (proj2 (proj2
             (num_found_is_closed_plus_opened source_config)))
             0%nat two_threads (mkThread 0 closed_tour_state [] None 0)).
    + reflexivity.
    + reflexivity.
    + reflexivity.
    + reflexivity.
    + reflexivity.
    + reflexivity.
    + reflexivity.
Defined.

Lemma critical_regions_one_at_a_time_witness :
  owner (interleave source_config taking_turns two_threads) = None ∧
  length (entered (interleave source_config taking_turns two_threads)) = 2%nat ∧
  shared (interleave source_config taking_turns two_threads)
  = one_by_one (shared two_threads)
      (entered (interleave source_config taking_turns two_threads)).
Proof.
  split; [vm_compute; reflexivity|]. split; [vm_compute; reflexivity|].
  apply (critical_regions_one_at_a_time source_config taking_turns
           two_threads two_threads_at_start).
  vm_compute. reflexivity.
Defined.


Lemma board_values_one_to_step_witness :
  ∃ l,
    advances source_config 265 (mkLocal (<[35%nat := 1]> zero_board)
      first_track knight_moves 0 0 0 PcBudget) = Some l ∧
    nonzero (board l) ≡ₚ seqZ 1 (step l + 1) ∧
    (pc l = PcFull →
     step l = cells source_config - 1 ∧
     nonzero (board l) ≡ₚ seqZ 1 (cells source_config)).
Proof.
  eexists. split; [vm_compute; reflexivity|].
  eapply (board_values_one_to_step source_config zero_board first_track
            knight_moves _ 265 _).
  - reflexivity.
  - reflexivity.
  - vm_compute. reflexivity.
  - vm_compute. reflexivity.
Defined.

Lemma BackTrace_undoes_AcceptMove_witness :
  ∃ l0 l1 ln l' f c0,
    advances source_config 264 (mkLocal (<[35%nat := 1]> zero_board)
      first_track knight_moves 0 0 0 PcBudget) = Some l0 ∧
    rd (track l1) (step l1) = Some f ∧
    rd (board l0) (cell source_config (fx f) (fy f)) = Some 0 ∧
    board l1
      = <[Z.to_nat (cell source_config (fx f) (fy f)) := step l0 + 2]>
          (board l0) ∧
    board l' = <[Z.to_nat (cell source_config (fx f) (fy f)) := 0]> (board ln) ∧
    board l' = board l0 ∧
    step l' = step l0 ∧
    deref (track ln) (step l0) = Some c0 ∧
    deref (track l') (step l0) = Some (c0 + 1).
Proof.
  do 4 eexists.
  assert (∀ (P : Prop) (Q : Frame → Z → Prop),
            P → (∃ f c0, Q f c0) → ∃ f c0, P ∧ Q f c0) as Hput.
  { intros P Q HP (f & c0 & HQ). by exists f, c0. }
  apply Hput; [vm_compute; reflexivity|].
  eapply (BackTrace_undoes_AcceptMove source_config zero_board first_track
            knight_moves _ 264 _ _ 16 _ _).
  - reflexivity.
  - reflexivity.
  - vm_compute. reflexivity.
  - vm_compute. reflexivity.
  - vm_compute. reflexivity.
  - vm_compute. reflexivity.
  - vm_compute. reflexivity.
  - vm_compute. reflexivity.
  - vm_compute. reflexivity.
Defined.

(** * Further properties *)

(** ** [ResetBoard] and [PrintBoard] *)

Section Boards.
Context (cfg : Config).

(** X1.  [ResetBoard] on a board of [LX*LY] cells returns, keeps the size
    of the board and leaves 0 in every cell, whatever the board held. *)
Theorem ResetBoard_zeroes_every_cell (board : Board_t) :
  Z.of_nat (length board) = cells cfg → 0 < LY cfg →
  ResetBoard cfg board = Some (replicate (length board) 0).
Proof.
  intros Hlen Hly.
  destruct (ResetBoard_zero cfg board Hlen Hly) as (b' & -> & Hl & Hz).
  f_equal. apply list_eq. intros i.
  destruct (decide (i < length board)%nat) as [Hi|Hi].
  - rewrite lookup_replicate_2 by done.
    destruct (lookup_lt_is_Some_2 b' i) as [v Hv]; [lia|].
    rewrite Hv. f_equal. apply (Hz (Z.of_nat i)).
    apply rd_Some. split; [lia|]. by rewrite Nat2Z.id.
  - rewrite (lookup_ge_None_2 b') by lia.
    symmetry. apply lookup_replicate_None. lia.
Qed.

Lemma PrintBoard_rows (board : Board_t) :
  PrintBoard cfg board
  = (λ rows, concat ((λ row, ((λ v, " " +:+ pretty v +:+ " ") <$> row)
                               ++ [nl]) <$> rows))
    <$> board_rows cfg board.
Proof.
  unfold PrintBoard, board_rows.
  rewrite (mapM_ext _ (λ j, row ← mapM (λ i, board_rd cfg board i j)
                                   (seqZ 0 (LX cfg));
                            Some (((λ v, " " +:+ pretty v +:+ " ") <$> row)
                                  ++ [nl]))).
  - rewrite mapM_bind_Some.
    by destruct (mapM _ (reverse (seqZ 0 (LY cfg)))).
  - intros j. rewrite mapM_bind_Some.
    by destruct (mapM _ (seqZ 0 (LX cfg))).
Qed.

(** X2.  [PrintBoard] on a board of [LX*LY] cells returns and prints the
    [LY] rows of the board, row [LY-1] first and row 0 last, each as its
    [LX] values each between two spaces, then a newline; unlike
    [fPrintBoard] it prints no empty line after the last row. *)
Theorem PrintBoard_prints_rows_top_down (board : Board_t) :
  Z.of_nat (length board) = cells cfg →
  ∃ rows writes,
    length rows = Z.to_nat (LY cfg) ∧
    (∀ r row, rows !! r = Some row →
       length row = Z.to_nat (LX cfg) ∧
       ∀ i v, row !! i = Some v →
         board_rd cfg board (Z.of_nat i) (LY cfg - 1 - Z.of_nat r) = Some v) ∧
    PrintBoard cfg board = Some writes ∧
    cat writes = text_printed rows.
Proof.
  intros Hlen.
  destruct (board_rows_spec cfg board Hlen) as (rows & Hrows & Hl & Hrow).
  exists rows. eexists. split; [done|]. split; [done|]. split.
  { rewrite PrintBoard_rows, Hrows. reflexivity. }
  unfold text_printed. rewrite cat_concat. f_equal.
  rewrite <- list_fmap_compose. apply list_fmap_ext. intros _ row _. simpl.
  by rewrite cat_app, cat_singleton.
Qed.

End Boards.

(** ** The swap of [ShuffleMovePattern] *)

Lemma insert_swap_back {A} (l : list A) (a b : nat) x y :
  l !! a = Some x → l !! b = Some y →
  <[b := y]> (<[a := x]> (<[b := x]> (<[a := y]> l))) = l.
Proof.
  intros Ha Hb. apply list_eq. intros i.
  pose proof (lookup_lt_Some _ _ _ Ha). pose proof (lookup_lt_Some _ _ _ Hb).
  destruct (decide (i = b)) as [->|Hib].
  - rewrite list_lookup_insert_eq by (rewrite !length_insert; lia). done.
  - rewrite list_lookup_insert_ne by done.
    destruct (decide (i = a)) as [->|Hia].
    + rewrite list_lookup_insert_eq by (rewrite !length_insert; lia). done.
    + by rewrite !list_lookup_insert_ne by done.
Qed.

(** X3.  The swap that [ShuffleMovePattern] makes for two indexes undoes
    itself: made a second time for the same indexes it gives back the
    array it started from. *)
Theorem swap_moves_twice (move move1 : Move_t) a b :
  swap_moves move a b = Some move1 → swap_moves move1 a b = Some move.
Proof.
  unfold swap_moves. intros H.
  destruct (rd move a) as [x|] eqn:Hx; [|done].
  destruct (rd move b) as [y|] eqn:Hy; [|done]. simpl in H.
  destruct (wr move a y) as [m1|] eqn:Hm1; [|done]. simpl in H.
  apply wr_Some in Hm1 as [Ha ->]. apply wr_Some in H as [Hb ->].
  rewrite length_insert in Hb.
  apply rd_Some in Hx as [_ Hx]. apply rd_Some in Hy as [_ Hy].
  remember (<[Z.to_nat b := x]> (<[Z.to_nat a := y]> move)) as m2 eqn:Hm2.
  assert (Hlen : length m2 = length move).
  { subst m2. by rewrite !length_insert. }
  assert (rd m2 a = Some (if decide (a = b) then x else y)) as ->.
  { apply rd_Some. split; [lia|]. subst m2. case_decide as Hab.
    - subst. apply list_lookup_insert_eq. rewrite length_insert. lia.
    - rewrite list_lookup_insert_ne by lia.
      apply list_lookup_insert_eq. lia. }
  assert (rd m2 b = Some x) as ->.
  { apply rd_Some. split; [lia|]. subst m2.
    apply list_lookup_insert_eq. rewrite length_insert. lia. }
  simpl.
  destruct (wr_is_Some m2 a x) as [m3 Hm3]; [lia|]. rewrite Hm3. simpl.
  apply wr_Some in Hm3 as [_ ->].
  destruct (wr_is_Some (<[Z.to_nat a := x]> m2) b
              (if decide (a = b) then x else y)) as [m4 Hm4].
  { rewrite length_insert. lia. }
  rewrite Hm4. f_equal. apply wr_Some in Hm4 as [_ ->]. subst m2.
  case_decide as Hab.
  - subst b. rewrite Hx in Hy. injection Hy as <-.
    rewrite !list_insert_insert_eq. by apply list_insert_id.
  - by apply insert_swap_back.
Qed.

(** ** More about one search *)

Section Searches.
Context (cfg : Config).

Lemma advances_move n l l' : advances cfg n l = Some l' → move l' = move l.
Proof.
  revert l. induction n as [|n IH]; simpl; intros l.
  - by intros [= <-].
  - destruct (advance cfg l) as [l1|] eqn:Ha; [|done]. simpl. intros H.
    apply advance_transition in Ha. rewrite (IH _ H).
    by eapply transition_move.
Qed.

Lemma advances_frame_0 n l l' f0 :
  wf cfg l → rd (track l) 0 = Some f0 → advances cfg n l = Some l' →
  ∃ f, rd (track l') 0 = Some f ∧ fx f = fx f0 ∧ fy f = fy f0.
Proof.
  revert l f0. induction n as [|n IH]; simpl; intros l f0 Hwf Hf0.
  - intros [= <-]. by exists f0.
  - destruct (advance cfg l) as [l1|] eqn:Ha; [|done]. simpl. intros H.
    assert (Hwf1 : wf cfg l1) by (by eapply advance_wf).
    apply advance_transition in Ha.
    destruct (transition_above cfg 0 l l1 Hwf Ha) as [_ Hat].
    { apply (wf_step _ _ Hwf). }
    { apply (wf_step _ _ Hwf1). }
    destruct (Hat f0 Hf0) as (f1 & Hf1 & Hx & Hy).
    destruct (IH l1 f1 Hwf1 Hf1 H) as (f & Hf & Hx' & Hy').
    exists f. split; [done|]. split; congruence.
Qed.

(** X4.  Frame 0 never moves: in every state a search reaches, [track[0]]
    is the cell the search started from, and the board holds 1 there. *)
Theorem start_cell_stays_in_frame_0 (board0 : Board_t) (track0 : Track_t)
    (move0 : Move_t) f0 l0 n l :
  Z.of_nat (length board0) = cells cfg →
  Z.of_nat (length track0) = cells cfg →
  rd track0 0 = Some f0 →
  attempt_start cfg board0 track0 move0 = Some l0 →
  advances cfg n l0 = Some l →
  ∃ f, rd (track l) 0 = Some f ∧ fx f = fx f0 ∧ fy f = fy f0 ∧
       board_rd cfg (board l) (fx f0) (fy f0) = Some 1.
Proof.
  intros Hb Ht Hf0 Hstart Hrun.
  assert (Hwf0 : wf cfg l0) by (by eapply attempt_start_wf).
  assert (Hwf : wf cfg l) by (by eapply advances_wf).
  assert (∃ g, rd (track l0) 0 = Some g ∧ fx g = fx f0 ∧ fy g = fy f0)
    as (g & Hg & Hgx & Hgy).
  { unfold attempt_start in Hstart. rewrite Hf0 in Hstart.
    destruct (ResetBoard cfg board0) as [b0|]; [|done]. simpl in Hstart.
    destruct (board_wr cfg b0 _ _ _) as [b1|]; [|done]. simpl in Hstart.
    destruct (wr track0 0 _) as [t1|] eqn:Ht1; [|done]. simpl in Hstart.
    injection Hstart as <-. simpl. eexists. split; [by eapply rd_wr_eq|].
    done. }
  destruct (advances_frame_0 n l0 l g Hwf0 Hg Hrun) as (f & Hf & Hx & Hy).
  exists f. split; [done|]. split; [congruence|]. split; [congruence|].
  destruct (wf_placed _ _ Hwf 0 f) as [Hin Hv]; [|done|].
  { pose proof (wf_step _ _ Hwf). lia. }
  rewrite Hx, Hgx, Hy, Hgy in Hin, Hv. unfold board_rd. by rewrite Hin.
Qed.

Lemma search_stops_within_bound (m : nat) l :
  wf cfg l → length (move l) = 8%nat → potential cfg l < Z.of_nat m →
  ∃ n l', (n <= m)%nat ∧ advances cfg n l = Some l' ∧ advance cfg l' = None.
Proof.
  revert l. induction m as [|m IH]; intros l Hwf Hmove Hpot.
  - pose proof (potential_nonneg cfg l Hwf). lia.
  - destruct (advance cfg l) as [l1|] eqn:Ha.
    + apply advance_transition in Ha as Htr.
      pose proof (transition_decreases cfg l l1 Hwf Htr).
      destruct (IH l1) as (n & l' & Hle & Hn & Hl').
      * by eapply advance_wf.
      * by rewrite (transition_move cfg _ _ Htr).
      * lia.
      * exists (S n), l'. split; [lia|]. simpl. rewrite Ha. done.
    + exists O, l. split; [lia|]. done.
Qed.

(** X5.  Every search ends, and touches no memory outside its arrays on
    the way.  The budget is one that line 90 compares exactly: at most
    [2^53], or above [2^64].  From the state in which it begins the
    search makes at most [3 * 10^(LX*LY) + 3] transitions, each of them
    defined, and then stands either at the test of the budget with
    [num_try] not below [MAX_TRY], or at a [BackTrace] called with [step]
    0, whose [track[step-1]] is outside [track]. *)
Theorem every_search_ends (board0 : Board_t) (track0 : Track_t)
    (move0 : Move_t) l0 :
  Z.of_nat (length board0) = cells cfg →
  Z.of_nat (length track0) = cells cfg →
  length move0 = 8%nat →
  exact_budget cfg →
  attempt_start cfg board0 track0 move0 = Some l0 →
  ∃ n l,
    Z.of_nat n <= 3 * 10 ^ cells cfg + 3 ∧
    advances cfg n l0 = Some l ∧
    ((next cfg l = Halt ∧ pc l = PcBudget ∧ MAX_TRY cfg <= num_try l)
     ∨ (next cfg l = Fault ∧ step l = 0 ∧
        BackTrace cfg (step l) (track l) (board l) = None ∧
        rd (track l) (step l - 1) = None)).
Proof.
  intros Hb Ht Hm _ Hstart.
  assert (Hwf0 : wf cfg l0) by (by eapply attempt_start_wf).
  assert (Hmove0 : move l0 = move0).
  { unfold attempt_start in Hstart.
    destruct (ResetBoard cfg board0) as [b0|]; [|done]. simpl in Hstart.
    destruct (rd track0 0) as [f0|]; [|done]. simpl in Hstart.
    destruct (board_wr cfg b0 _ _ _) as [b1|]; [|done]. simpl in Hstart.
    destruct (wr track0 0 _) as [t1|]; [|done]. simpl in Hstart.
    by injection Hstart as <-. }
  pose proof (potential_nonneg cfg l0 Hwf0) as Hpos.
  pose proof (progress_bound cfg l0 Hwf0) as Hprog.
  assert (potential cfg l0 <= 3 * 10 ^ cells cfg + 2) as Hpot.
  { unfold potential. destruct (pc l0); simpl; lia. }
  destruct (search_stops_within_bound (S (Z.to_nat (potential cfg l0))) l0)
    as (n & l & Hle & Hn & Hl); [done|by rewrite Hmove0|lia|].
  exists n, l. split; [lia|]. split; [done|].
  apply advance_None; [by eapply advances_wf| |done].
  rewrite (advances_move _ _ _ Hn). by rewrite Hmove0.
Qed.

End Searches.

(** ** The track as a path of knight moves *)

Section Paths.
Context (cfg : Config).

Lemma transition_on_path l l' :
  wf cfg l → on_path l → transition cfg l l' → on_path l'.
Proof.
  intros Hwf Hpath Htr. pose proof (wf_step _ _ Hwf) as Hstep.
  destruct Htr as [Hpc Hn|c t' Hpc Hc HT HI|c t' b' k' Hpc Hc HT HA
      |c p Hp Hc Hc8|p l1 Hp Hb|Hpc]; try done.
  - (* a try that fails: the cursor of the last frame changes *)
    apply incr_deref_Some in HI as (f0 & Hf0 & Hw).
    rewrite (wf_k _ _ Hwf) in *.
    intros i f g Hi Hf Hg. simpl in *.
    rewrite (rd_wr _ _ _ _ _ Hw) in Hf. rewrite (rd_wr _ _ _ _ _ Hw) in Hg.
    rewrite decide_False in Hf by lia.
    case_decide as Hd.
    + injection Hg as <-. simpl. rewrite <- Hd in Hf0.
      by apply (Hpath i f f0).
    + by apply (Hpath i f g).
  - (* a try that succeeds: a frame is added *)
    apply deref_Some in Hc as (fc0 & Hfc0 & <-).
    rewrite (wf_k _ _ Hwf) in Hfc0.
    apply AcceptMove_Some in HA as (p' & m' & Hp' & Hm' & Hw & _ & _ & _).
    replace (step l + 1 - 1) with (step l) in Hp' by lia.
    rewrite Hfc0 in Hp'. injection Hp' as <-.
    intros i f g Hi Hf Hg. simpl in *.
    rewrite (rd_wr _ _ _ _ _ Hw) in Hf. rewrite (rd_wr _ _ _ _ _ Hw) in Hg.
    rewrite decide_False in Hf by lia.
    case_decide as Hd.
    + injection Hg as <-. simpl.
      assert (i = step l) as -> by lia.
      rewrite Hfc0 in Hf. injection Hf as <-. by exists m'.
    + apply (Hpath i f g); [lia|done|done].
  - (* BackTrace: the last frame is dropped, a cursor below changes *)
    unfold back in Hb.
    destruct (BackTrace cfg _ _ _) as [[[t' b'] k']|] eqn:HB; [|done].
    simpl in Hb. injection Hb as <-.
    apply BackTrace_Some in HB as (f0 & p0 & Hf0 & Hp0 & _ & _ & Hw & _).
    intros i f g Hi Hf Hg. simpl in *.
    rewrite (rd_wr _ _ _ _ _ Hw) in Hf. rewrite (rd_wr _ _ _ _ _ Hw) in Hg.
    rewrite decide_False in Hf by lia.
    case_decide as Hd.
    + injection Hg as <-. simpl. rewrite <- Hd in Hp0.
      apply (Hpath i f p0); [lia|done|done].
    + apply (Hpath i f g); [lia|done|done].
Qed.

Lemma advances_on_path n l l' :
  wf cfg l → on_path l → advances cfg n l = Some l' → on_path l'.
Proof.
  revert l. induction n as [|n IH]; simpl; intros l Hwf Hpath.
  - by intros [= <-].
  - destruct (advance cfg l) as [l1|] eqn:Ha; [|done]. simpl.
    apply IH; [by eapply advance_wf|].
    apply advance_transition in Ha. by eapply transition_on_path.
Qed.

Lemma attempt_start_state (board0 : Board_t) (track0 : Track_t)
    (move0 : Move_t) l0 :
  attempt_start cfg board0 track0 move0 = Some l0 →
  step l0 = 0 ∧ move l0 = move0 ∧ pc l0 = PcBudget ∧ num_try l0 = 0.
Proof.
  unfold attempt_start. intros H.
  destruct (ResetBoard cfg board0) as [b0|]; [|done]. simpl in H.
  destruct (rd track0 0) as [f0|]; [|done]. simpl in H.
  destruct (board_wr cfg b0 _ _ _) as [b1|]; [|done]. simpl in H.
  destruct (wr track0 0 _) as [t1|]; [|done]. simpl in H.
  by injection H as <-.
Qed.

Lemma reached_on_path (board0 : Board_t) (track0 : Track_t)
    (move0 : Move_t) l0 n l :
  Z.of_nat (length board0) = cells cfg →
  Z.of_nat (length track0) = cells cfg →
  attempt_start cfg board0 track0 move0 = Some l0 →
  advances cfg n l0 = Some l →
  wf cfg l ∧ on_path l ∧ move l = move0.
Proof.
  intros Hb Ht Hstart Hrun.
  assert (Hwf0 : wf cfg l0) by (by eapply attempt_start_wf).
  destruct (attempt_start_state _ _ _ _ Hstart) as (Hs0 & Hm0 & _).
  split; [by eapply advances_wf|]. split.
  - eapply advances_on_path; [done| |done].
    intros i f g Hi. lia.
  - by rewrite (advances_move cfg _ _ _ Hrun).
Qed.

Lemma IsClosedTour_shift x y a b :
  IsClosedTour (x + a) (y + b) x y = IsClosedTour a b 0 0.
Proof.
  unfold IsClosedTour.
  replace (x + a - x) with (a - 0) by lia.
  by replace (y + b - y) with (b - 0) by lia.
Qed.

Lemma knight_moves_are_knight_moves (move0 : Move_t) m :
  move0 ≡ₚ knight_moves → m ∈ move0 → IsClosedTour m.1 m.2 0 0 = true.
Proof.
  intros Hperm Hm. rewrite Hperm in Hm.
  assert (Forall (λ m, IsClosedTour m.1 m.2 0 0 = true) knight_moves) as Hall.
  { repeat constructor. }
  by apply (proj1 (Forall_forall _ _) Hall).
Qed.

Lemma IsClosedTour_odd x y a b :
  IsClosedTour x y a b = true → Z.odd (x + y - a - b) = true.
Proof.
  unfold IsClosedTour.
  rewrite orb_true_iff, !andb_true_iff, !bool_decide_eq_true.
  intros H.
  assert (x + y - a - b = 3 ∨ x + y - a - b = 1
          ∨ x + y - a - b = -1 ∨ x + y - a - b = -3) as Hsum by lia.
  destruct Hsum as [->|[->|[->| ->]]]; reflexivity.
Qed.

(** X6.  With the move array a rearrangement of the eight knight moves,
    the track is a path of the knight in every state a search reaches:
    every frame up to [step] is a knight move away from the frame before
    it, namely the move under the cursor of that frame. *)
Theorem track_is_a_knight_path (board0 : Board_t) (track0 : Track_t)
    (move0 : Move_t) l0 n l :
  Z.of_nat (length board0) = cells cfg →
  Z.of_nat (length track0) = cells cfg →
  move0 ≡ₚ knight_moves →
  attempt_start cfg board0 track0 move0 = Some l0 →
  advances cfg n l0 = Some l →
  ∀ i, 0 <= i < step l →
    ∃ f g m,
      rd (track l) i = Some f ∧ rd (track l) (i + 1) = Some g ∧
      rd move0 (fk f) = Some m ∧
      fx g = fx f + m.1 ∧ fy g = fy f + m.2 ∧
      IsClosedTour (fx g) (fy g) (fx f) (fy f) = true.
Proof.
  intros Hb Ht Hperm Hstart Hrun i Hi.
  destruct (reached_on_path _ _ _ _ _ _ Hb Ht Hstart Hrun)
    as (Hwf & Hpath & Hmove).
  pose proof (wf_step _ _ Hwf) as Hstep.
  destruct (rd_is_Some (track l) i) as [f Hf].
  { rewrite (wf_track _ _ Hwf). lia. }
  destruct (rd_is_Some (track l) (i + 1)) as [g Hg].
  { rewrite (wf_track _ _ Hwf). lia. }
  destruct (Hpath i f g Hi Hf Hg) as (m & Hm & Hx & Hy).
  rewrite Hmove in Hm. exists f, g, m.
  split; [done|]. split; [done|]. split; [done|]. split; [done|].
  split; [done|]. rewrite Hx, Hy, IsClosedTour_shift.
  apply (knight_moves_are_knight_moves move0); [done|].
  apply rd_Some in Hm as [_ Hm]. by eapply list_elem_of_lookup_2.
Qed.

Lemma cell_inj x y x' y' :
  in_board cfg x y = true → in_board cfg x' y' = true →
  cell cfg x y = cell cfg x' y' → x = x' ∧ y = y'.
Proof.
  rewrite !in_board_true. unfold cell. intros Hxy Hxy' Heq.
  assert (x = x') as -> by nia. split; [done|]. lia.
Qed.

Lemma full_board_no_zero (board : Board_t) c :
  length (nonzero board) = length board → rd board c ≠ Some 0.
Proof.
  intros Hlen [_ Hc]%rd_Some.
  pose proof (nonzero_length_lt _ _ Hc). lia.
Qed.

(** X7.  No cell is visited twice, and a full board is a visit of every
    cell: in every state a search reaches, the frames up to [step] lie on
    pairwise distinct cells, and when [step] is [LX*LY-1] every cell of
    the board is the cell of one of them. *)
Theorem frames_visit_distinct_cells (board0 : Board_t) (track0 : Track_t)
    (move0 : Move_t) l0 n l :
  Z.of_nat (length board0) = cells cfg →
  Z.of_nat (length track0) = cells cfg →
  attempt_start cfg board0 track0 move0 = Some l0 →
  advances cfg n l0 = Some l →
  (∀ i j f g, 0 <= i <= step l → 0 <= j <= step l →
     rd (track l) i = Some f → rd (track l) j = Some g →
     fx f = fx g → fy f = fy g → i = j) ∧
  (step l = cells cfg - 1 →
   ∀ x y, 0 <= x < LX cfg → 0 <= y < LY cfg →
     ∃ i f, 0 <= i <= step l ∧ rd (track l) i = Some f ∧
            fx f = x ∧ fy f = y).
Proof.
  intros Hb Ht Hstart Hrun.
  assert (Hwf : wf cfg l).
  { eapply advances_wf; [|done]. by eapply attempt_start_wf. }
  split.
  - intros i j f g Hi Hj Hf Hg Hx Hy.
    destruct (wf_placed _ _ Hwf i f Hi Hf) as [_ Hvi].
    destruct (wf_placed _ _ Hwf j g Hj Hg) as [_ Hvj].
    rewrite Hx, Hy, Hvj in Hvi. injection Hvi. lia.
  - intros Hfull x y Hx Hy.
    assert (Hin : in_board cfg x y = true) by (by apply in_board_true).
    pose proof (cell_in_range cfg _ _ Hin) as Hc.
    destruct (rd_is_Some (board l) (cell cfg x y)) as [v Hv].
    { rewrite (wf_board _ _ Hwf). lia. }
    assert (v ≠ 0) as Hnz.
    { intros ->. revert Hv. apply full_board_no_zero.
      rewrite (Permutation_length (wf_values _ _ Hwf)), length_seqZ.
      pose proof (wf_board _ _ Hwf). lia. }
    destruct (wf_free _ _ Hwf _ _ Hv Hnz) as (i & f & Hi & Hf & Hcell).
    destruct (wf_placed _ _ Hwf i f Hi Hf) as [Hinf _].
    destruct (cell_inj _ _ _ _ Hinf Hin Hcell) as [Hfx Hfy].
    by exists i, f.
Qed.

Lemma frames_alternate (l : Local) f0 :
  wf cfg l → on_path l → move l ≡ₚ knight_moves →
  rd (track l) 0 = Some f0 →
  ∀ (n : nat) f, Z.of_nat n <= step l → rd (track l) (Z.of_nat n) = Some f →
    Z.odd (fx f + fy f - fx f0 - fy f0) = Z.odd (Z.of_nat n).
Proof.
  intros Hwf Hpath Hperm Hf0. induction n as [|n IH]; intros f Hn Hf.
  - change (Z.of_nat 0) with 0 in Hf. rewrite Hf0 in Hf. injection Hf as <-.
    by replace (fx f0 + fy f0 - fx f0 - fy f0) with 0 by lia.
  - pose proof (wf_step _ _ Hwf) as Hstep.
    destruct (rd_is_Some (track l) (Z.of_nat n)) as [p Hp].
    { rewrite (wf_track _ _ Hwf). lia. }
    replace (Z.of_nat (S n)) with (Z.of_nat n + 1) in * by lia.
    destruct (Hpath (Z.of_nat n) p f ltac:(lia) Hp Hf) as (m & Hm & Hx & Hy).
    assert (IsClosedTour m.1 m.2 0 0 = true) as Hk.
    { apply (knight_moves_are_knight_moves (move l)); [done|].
      apply rd_Some in Hm as [_ Hm]. by eapply list_elem_of_lookup_2. }
    apply IsClosedTour_odd in Hk.
    replace (fx f + fy f - fx f0 - fy f0)
      with ((fx p + fy p - fx f0 - fy f0) + (m.1 + m.2 - 0 - 0)) by lia.
    rewrite !Z.odd_add, (IH p ltac:(lia) Hp), Hk. done.
Qed.

Lemma critical_on_odd_board l tid sh :
  wf cfg l → on_path l → move l ≡ₚ knight_moves →
  Z.odd (cells cfg) = true → step l = cells cfg - 1 →
  ∃ sh', critical cfg tid l sh = Some sh' ∧
    fc sh' = fc sh ∧
    num_closed sh' = num_closed sh ∧
    num_opened sh' = num_opened sh + 1 ∧
    num_found sh' = num_found sh + 1.
Proof.
  intros Hwf Hpath Hperm Hodd Hfull.
  pose proof (wf_step _ _ Hwf) as Hstep.
  destruct (rd_is_Some (track l) (cells cfg - 1)) as [last Hlast].
  { rewrite (wf_track _ _ Hwf). lia. }
  destruct (rd_is_Some (track l) 0) as [first Hfirst].
  { rewrite (wf_track _ _ Hwf). lia. }
  assert (IsClosedTour (fx last) (fy last) (fx first) (fy first) = false)
    as Hopen.
  { destruct (IsClosedTour _ _ _ _) eqn:Hc; [|done].
    apply IsClosedTour_odd in Hc.
    pose proof (frames_alternate l first Hwf Hpath Hperm Hfirst
                  (Z.to_nat (cells cfg - 1)) last) as Halt.
    rewrite Z2Nat.id in Halt by lia.
    rewrite Halt in Hc; [|lia|done].
    replace (cells cfg) with (cells cfg - 1 + 1) in Hodd by lia.
    rewrite Z.odd_add, Hc in Hodd. done. }
  assert (is_Some (critical_ops cfg tid (track l) (board l))) as [ops Hops].
  { unfold critical_ops. rewrite Hlast, Hfirst. simpl. by rewrite Hopen. }
  destruct (critical_ops_effect cfg tid _ _ ops sh 0 Hops)
    as (last' & first' & closed & text & msg & Hl & Hf & -> & Htext & Heff).
  rewrite Hlast in Hl. injection Hl as <-.
  rewrite Hfirst in Hf. injection Hf as <-.
  rewrite Hopen in Htext, Heff. subst text.
  eexists. split.
  { unfold critical. rewrite Hops. simpl. by rewrite Heff. }
  simpl. rewrite append_empty_r. split; [done|]. split; lia.
Qed.

(** X8.  On a board with an odd number of cells no full board is a closed
    tour: with the move array a rearrangement of the eight knight moves
    and [LX*LY] odd, every critical region a search enters finds
    [IsClosedTour] false, counts an opened tour and leaves the file as it
    is. *)
Theorem odd_board_has_no_closed_tour (board0 : Board_t) (track0 : Track_t)
    (move0 : Move_t) l0 n l tid sh :
  Z.of_nat (length board0) = cells cfg →
  Z.of_nat (length track0) = cells cfg →
  move0 ≡ₚ knight_moves →
  Z.odd (cells cfg) = true →
  attempt_start cfg board0 track0 move0 = Some l0 →
  advances cfg n l0 = Some l →
  pc l = PcFull →
  ∃ sh', critical cfg tid l sh = Some sh' ∧
    fc sh' = fc sh ∧
    num_closed sh' = num_closed sh ∧
    num_opened sh' = num_opened sh + 1 ∧
    num_found sh' = num_found sh + 1.
Proof.
  intros Hb Ht Hperm Hodd Hstart Hrun Hpc.
  destruct (reached_on_path _ _ _ _ _ _ Hb Ht Hstart Hrun)
    as (Hwf & Hpath & Hmove).
  apply critical_on_odd_board; [done|done|by rewrite Hmove|done|].
  apply (wf_full _ _ Hwf). auto.
Qed.

End Paths.

(** ** What [main] leaves in the file *)

Section File.
Context (cfg : Config).

Lemma grown_refl sh : grown cfg sh sh.
Proof.
  exists [], O. split; [done|]. simpl. rewrite append_empty_r.
  split_and!; [done|lia..].
Qed.

Lemma grown_trans sh1 sh2 sh3 :
  grown cfg sh1 sh2 → grown cfg sh2 sh3 → grown cfg sh1 sh3.
Proof.
  intros (t1 & o1 & Hd1 & Hf1 & Hc1 & Ho1 & Hn1)
         (t2 & o2 & Hd2 & Hf2 & Hc2 & Ho2 & Hn2).
  exists (t1 ++ t2), (o1 + o2)%nat. split; [by apply Forall_app|].
  rewrite cat_app, length_app, Hf2, Hf1, append_assoc.
  split_and!; [done|lia..].
Qed.

Lemma critical_grown tid l sh sh' :
  critical cfg tid l sh = Some sh' → grown cfg sh sh'.
Proof.
  unfold critical. intros H.
  destruct (critical_ops cfg tid (track l) (board l)) as [ops|] eqn:Hops;
    [|done].
  simpl in H. injection H as <-.
  destruct (critical_ops_effect cfg tid _ _ ops sh 0 Hops)
    as (last & first & closed & text & msg & _ & _ & _ & Htext & ->).
  destruct closed.
  - destruct Htext as (rows & Hrows & ->).
    exists [text_written rows], O. split.
    { apply Forall_singleton. by exists (board l), rows. }
    simpl. rewrite append_empty_r. split_and!; [done|lia..].
  - subst text. exists [], 1%nat. split; [done|]. simpl.
    split_and!; [done|lia..].
Qed.

Lemma run_grown fuel tid l sh l' sh' :
  run cfg fuel tid l sh = Done (l', sh') → grown cfg sh sh'.
Proof.
  revert l sh. induction fuel as [|fuel IH]; intros l sh; simpl; [done|].
  destruct (next cfg l) as [l1| | |]; try done.
  - apply IH.
  - destruct (critical cfg tid l sh) as [sh1|] eqn:Hc; [|done]. simpl.
    intros Hrun. eapply grown_trans; [by eapply critical_grown|].
    by eapply IH.
  - intros [= <- <-]. apply grown_refl.
Qed.

Lemma pattern_loop_grown n fuel tid rand (b : Board_t) (t : Track_t)
    (mv : Move_t) pos sh units pos' sh' units' :
  pattern_loop cfg n fuel tid rand b t mv pos sh units
    = Done (pos', sh', units') →
  grown cfg sh sh'.
Proof.
  revert b t mv pos sh units. induction n as [|n IH];
    intros b t mv pos sh units; simpl.
  - intros [= <- <- <-]. apply grown_refl.
  - destruct (ShuffleMovePattern cfg rand pos mv) as [[mv1 pos1]|]; [|done].
    simpl. destruct (attempt_start cfg b t mv1) as [l|]; [|done]. simpl.
    destruct (run cfg fuel tid l sh) as [[l1 sh1]| |] eqn:Hrun; [|done..].
    simpl. intros Hrest. eapply grown_trans; [by eapply run_grown|].
    by eapply IH.
Qed.

Lemma start_loop_grown n fuel rand stack num_start pos sh units
    pos' sh' units' :
  start_loop cfg n fuel rand stack num_start pos sh units
    = Done (pos', sh', units') →
  grown cfg sh sh'.
Proof.
  revert num_start pos sh units. induction n as [|n IH];
    intros num_start pos sh units; simpl.
  - intros [= <- <- <-]. apply grown_refl.
  - destruct (start_track cfg (stack num_start).2) as [t|]; [|done]. simpl.
    destruct (pattern_loop cfg _ fuel 0 rand _ t knight_moves pos sh units)
      as [[[pos1 sh1] units1]| |] eqn:Hpat; [|done..].
    simpl. intros Hrest.
    eapply grown_trans; [by eapply pattern_loop_grown|]. by eapply IH.
Qed.

(** X9.  When [main] returns, [ClosedTour.txt] holds the text it held
    before the run followed by whole board dumps, one after the other, as
    many as [num_closed] counts; nothing else is ever written to it. *)
Theorem main_appends_num_closed_dumps fuel rand stack file0 e :
  main cfg fuel rand stack file0 = Done e →
  ∃ texts,
    Forall (a_dump cfg) texts ∧
    fc (final e) = file0 +:+ cat texts ∧
    num_closed (final e) = Z.of_nat (length texts).
Proof.
  unfold main. destruct (config_error cfg).
  - intros [= <-]. exists []. simpl. by rewrite append_empty_r.
  - destruct (start_loop cfg _ fuel rand stack 0 0 _ 0)
      as [[[pos1 sh1] units1]| |] eqn:Hloop; [|done..].
    simpl. intros [= <-]. simpl.
    apply start_loop_grown in Hloop
      as (texts & opened & Hd & Hf & Hc & _ & _).
    exists texts. simpl in *. split; [done|]. split; [done|]. lia.
Qed.

End File.

(** ** The board of a search, and its counter *)

Section BoardAndCounter.
Context (cfg : Config).

(** X10.  The numbers on the board trace the moves of the knight: with the
    move array a rearrangement of the eight knight moves, in every state a
    search reaches the cell that holds [v+1] is a knight move away from
    the cell that holds [v], for every [v] from 1 on. *)
Theorem board_numbers_trace_knight_moves (board0 : Board_t)
    (track0 : Track_t) (move0 : Move_t) l0 n l x y x' y' v :
  Z.of_nat (length board0) = cells cfg →
  Z.of_nat (length track0) = cells cfg →
  move0 ≡ₚ knight_moves →
  attempt_start cfg board0 track0 move0 = Some l0 →
  advances cfg n l0 = Some l →
  1 <= v →
  board_rd cfg (board l) x y = Some v →
  board_rd cfg (board l) x' y' = Some (v + 1) →
  IsClosedTour x' y' x y = true.
Proof.
  intros Hb Ht Hperm Hstart Hrun Hv Hxy Hxy'.
  destruct (reached_on_path _ _ _ _ _ _ _ Hb Ht Hstart Hrun)
    as (Hwf & Hpath & Hmove).
  assert (Hframe : ∀ a b w, 1 <= w → board_rd cfg (board l) a b = Some w →
            ∃ f, 0 <= w - 1 <= step l ∧ rd (track l) (w - 1) = Some f ∧
                 fx f = a ∧ fy f = b).
  { intros a b w Hw Hab. unfold board_rd in Hab.
    destruct (in_board cfg a b) eqn:Hin; [|done].
    destruct (wf_free _ _ Hwf _ _ Hab) as (i & f & Hi & Hf & Hcell); [lia|].
    destruct (wf_placed _ _ Hwf i f Hi Hf) as [Hinf Hval].
    rewrite Hcell, Hab in Hval. injection Hval as ->.
    destruct (cell_inj _ _ _ _ _ Hinf Hin Hcell) as [Hx Hy].
    exists f. replace (i + 1 - 1) with i by lia. done. }
  destruct (Hframe x y v Hv Hxy) as (f & Hi & Hf & <- & <-).
  destruct (Hframe x' y' (v + 1) ltac:(lia) Hxy') as (g & Hj & Hg & <- & <-).
  replace (v + 1 - 1) with (v - 1 + 1) in Hj, Hg by lia.
  destruct (Hpath (v - 1) f g ltac:(lia) Hf Hg) as (m & Hm & -> & ->).
  rewrite IsClosedTour_shift.
  apply (knight_moves_are_knight_moves (move l)); [by rewrite Hmove|].
  apply rd_Some in Hm as [_ Hm]. by eapply list_elem_of_lookup_2.
Qed.

Lemma transition_num_try l l' :
  transition cfg l l' →
  num_try l' = match pc l with
               | PcTry => incr_ulong (num_try l)
               | _ => num_try l
               end.
Proof.
  intros [Hpc Hn|c t' Hpc Hc HT HI|c t' b' k' Hpc Hc HT HA
      |c p Hp Hc Hc8|p l1 Hp Hb|Hpc]; simpl; rewrite ?Hpc; try done.
  - by destruct Hp as [[-> _]|[-> _]].
  - unfold back in Hb.
    destruct (BackTrace cfg _ _ _) as [[[? ?] ?]|]; [|done].
    simpl in Hb. injection Hb as <-. simpl.
    by destruct Hp as [(-> & _)|[(-> & _)|(-> & _)]].
Qed.

Lemma advances_num_try n l l' :
  0 <= num_try l < 2 ^ 64 → advances cfg n l = Some l' →
  num_try l' = (num_try l + tries_made cfg n l) mod 2 ^ 64.
Proof.
  revert l. induction n as [|n IH]; simpl; intros l Hrange.
  - intros [= <-]. rewrite Z.add_0_r. symmetry. by apply Z.mod_small.
  - destruct (advance cfg l) as [l1|] eqn:Ha; [|done]. simpl. intros H.
    apply advance_transition in Ha.
    pose proof (transition_num_try _ _ Ha) as Hl1.
    rewrite (IH l1); [|destruct (pc l); rewrite Hl1;
                        try done; apply incr_ulong_range|done].
    rewrite Hl1. destruct (pc l); try (f_equal; lia).
    unfold incr_ulong. rewrite Z.add_mod_idemp_l by lia. f_equal. lia.
Qed.

(** X11.  [num_try] counts the calls of [TryMove], those that fail and
    those that succeed alike: in every state a search reaches it is the
    number of calls made so far, modulo [2^64]. *)
Theorem num_try_counts_TryMove_calls (board0 : Board_t) (track0 : Track_t)
    (move0 : Move_t) l0 n l :
  attempt_start cfg board0 track0 move0 = Some l0 →
  advances cfg n l0 = Some l →
  num_try l = tries_made cfg n l0 mod 2 ^ 64.
Proof.
  intros Hstart Hrun.
  destruct (attempt_start_state _ _ _ _ _ Hstart) as (_ & _ & _ & H0).
  rewrite (advances_num_try n l0 l); [by rewrite H0|rewrite H0; lia|done].
Qed.

(** X12.  A search that completes no board leaves the shared state as it
    was: when the budget loop is left with [num_found] unchanged, the
    counters, the file and the console are unchanged. *)
Theorem search_without_full_board_changes_nothing fuel tid l sh l' sh' :
  run cfg fuel tid l sh = Done (l', sh') →
  num_found sh' = num_found sh →
  sh' = sh.
Proof.
  revert l sh. induction fuel as [|fuel IH]; intros l sh; simpl; [done|].
  destruct (next cfg l) as [l1| | |]; try done.
  - apply IH.
  - destruct (critical cfg tid l sh) as [sh1|] eqn:Hc; [|done]. simpl.
    intros Hrun Hsame. exfalso.
    apply critical_counts in Hc as [Hc _].
    apply run_grown in Hrun as (texts & opened & _ & _ & _ & _ & Hn).
    lia.
  - by intros [= <- <-].
Qed.

End BoardAndCounter.

(** ** A whole run on a board with an odd number of cells *)

Section OddBoards.
Context (cfg : Config).
Hypothesis odd_cells : Z.odd (cells cfg) = true.

Lemma swap_moves_rearranges (move move' : Move_t) a b :
  swap_moves move a b = Some move' → move' ≡ₚ move.
Proof.
  intros H.
  assert (0 <= a < Z.of_nat (length move) ∧ 0 <= b < Z.of_nat (length move))
    as [Ha Hb].
  { unfold swap_moves in H.
    destruct (rd move a) as [x|] eqn:Hx; [|done].
    destruct (rd move b) as [y|] eqn:Hy; [|done].
    apply rd_in_range in Hx. apply rd_in_range in Hy. split; lia. }
  destruct (swap_moves_Permutation move a b Ha Hb) as (m & Hm & Hp).
  rewrite H in Hm. by injection Hm as <-.
Qed.

Lemma shuffle_loop_rearranges n rand pos (move move' : Move_t) pos' :
  shuffle_loop n rand pos move = Some (move', pos') → move' ≡ₚ move.
Proof.
  revert pos move. induction n as [|n IH]; intros pos move; simpl.
  - by intros [= <- <-].
  - destruct (swap_moves move _ _) as [m1|] eqn:Hm1; [|done]. simpl.
    intros H. rewrite (IH _ _ H). by eapply swap_moves_rearranges.
Qed.

Lemma run_on_odd_board fuel tid l sh l' sh' :
  wf cfg l → on_path l → move l ≡ₚ knight_moves →
  run cfg fuel tid l sh = Done (l', sh') →
  wf cfg l' ∧ fc sh' = fc sh ∧ num_closed sh' = num_closed sh.
Proof.
  revert l sh. induction fuel as [|fuel IH]; intros l sh Hwf Hpath Hperm;
    simpl; [done|].
  destruct (next cfg l) as [l1| | |] eqn:Hnext; try done.
  - assert (Ha : advance cfg l = Some l1) by (unfold advance; by rewrite Hnext).
    apply advance_transition in Ha as Htr.
    apply IH.
    + by eapply advance_wf.
    + by eapply transition_on_path.
    + by rewrite (transition_move cfg _ _ Htr).
  - assert (Ha : advance cfg l = Some (set_pc l PcResume))
      by (unfold advance; by rewrite Hnext).
    apply advance_transition in Ha as Htr.
    assert (Hpc : pc l = PcFull).
    { unfold next in Hnext. destruct (pc l); try done.
      - by case_bool_decide.
      - by destruct (_ ≫= _).
      - by destruct (_ ≫= _).
      - by destruct (back cfg l PcCascadeFull).
      - by destruct (_ ≫= _). }
    destruct (critical_on_odd_board cfg l tid sh Hwf Hpath Hperm odd_cells)
      as (sh1 & Hc & Hfc & Hnc & _).
    { apply (wf_full _ _ Hwf). auto. }
    rewrite Hc. simpl. intros Hrun.
    destruct (IH (set_pc l PcResume) sh1) as (Hwf' & Hfc' & Hnc').
    + by eapply advance_wf.
    + by eapply transition_on_path.
    + done.
    + done.
    + split; [done|]. split; congruence.
  - by intros [= <- <-].
Qed.

Lemma pattern_loop_on_odd_board n fuel tid rand (b : Board_t) (t : Track_t)
    (mv : Move_t) pos sh units pos' sh' units' :
  Z.of_nat (length b) = cells cfg → Z.of_nat (length t) = cells cfg →
  mv ≡ₚ knight_moves →
  pattern_loop cfg n fuel tid rand b t mv pos sh units
    = Done (pos', sh', units') →
  fc sh' = fc sh ∧ num_closed sh' = num_closed sh.
Proof.
  revert b t mv pos sh units. induction n as [|n IH];
    intros b t mv pos sh units Hb Ht Hperm; simpl.
  - by intros [= <- <- <-].
  - destruct (ShuffleMovePattern cfg rand pos mv) as [[mv1 pos1]|] eqn:Hsh;
      [|done].
    simpl. destruct (attempt_start cfg b t mv1) as [l|] eqn:Hstart; [|done].
    simpl.
    destruct (run cfg fuel tid l sh) as [[l1 sh1]| |] eqn:Hrun; [|done..].
    simpl. intros Hrest.
    apply shuffle_loop_rearranges in Hsh.
    destruct (reached_on_path cfg b t mv1 l O l Hb Ht Hstart eq_refl)
      as (Hwf & Hpath & Hmove).
    assert (Hperm1 : mv1 ≡ₚ knight_moves) by (by rewrite Hsh).
    rewrite <- Hmove in Hperm1.
    destruct (run_on_odd_board _ _ _ _ _ _ Hwf Hpath Hperm1 Hrun)
      as (Hwf1 & Hfc & Hnc).
    rewrite Hmove in Hperm1.
    destruct (IH _ _ _ _ _ _ (wf_board _ _ Hwf1) (wf_track _ _ Hwf1)
                Hperm1 Hrest) as [Hfc' Hnc'].
    split; congruence.
Qed.

Lemma start_track_length (track0 track1 : Track_t) :
  start_track cfg track0 = Some track1 → length track1 = length track0.
Proof.
  unfold start_track. intros H.
  destruct (rd track0 0) as [f|]; [|done]. simpl in H.
  destruct (wr track0 0 _) as [t1|] eqn:Ht1; [|done]. simpl in H.
  destruct (rd t1 0) as [f1|]; [|done]. simpl in H.
  apply wr_Some in Ht1 as [_ ->]. apply wr_Some in H as [_ ->].
  by rewrite !length_insert.
Qed.

Lemma start_loop_on_odd_board n fuel rand stack num_start pos sh units
    pos' sh' units' :
  (∀ s, Z.of_nat (length (stack s).1) = cells cfg
        ∧ Z.of_nat (length (stack s).2) = cells cfg) →
  start_loop cfg n fuel rand stack num_start pos sh units
    = Done (pos', sh', units') →
  fc sh' = fc sh ∧ num_closed sh' = num_closed sh.
Proof.
  intros Hstack. revert num_start pos sh units. induction n as [|n IH];
    intros num_start pos sh units; simpl.
  - by intros [= <- <- <-].
  - destruct (start_track cfg (stack num_start).2) as [t|] eqn:Ht; [|done].
    simpl.
    destruct (pattern_loop cfg _ fuel 0 rand _ t knight_moves pos sh units)
      as [[[pos1 sh1] units1]| |] eqn:Hpat; [|done..].
    simpl. intros Hrest.
    destruct (Hstack num_start) as [Hb Hl].
    apply pattern_loop_on_odd_board in Hpat as [Hfc Hnc];
      [|done|by rewrite (start_track_length _ _ Ht)|done].
    apply IH in Hrest as [Hfc' Hnc']. split; congruence.
Qed.

(** X13.  On a board with an odd number of cells a run finds no closed
    tour: with automatic arrays of [LX*LY] entries, whatever they hold and
    whatever [rand()] returns, when [main] returns [ClosedTour.txt] holds
    what it held before the run, [num_closed] is 0, and every tour found
    was counted as an opened one. *)
Theorem main_on_odd_board_writes_nothing fuel rand stack file0 e :
  (∀ s, Z.of_nat (length (stack s).1) = cells cfg
        ∧ Z.of_nat (length (stack s).2) = cells cfg) →
  main cfg fuel rand stack file0 = Done e →
  fc (final e) = file0 ∧ num_closed (final e) = 0 ∧
  num_opened (final e) = num_found (final e).
Proof.
  intros Hstack. unfold main. destruct (config_error cfg).
  - by intros [= <-].
  - destruct (start_loop cfg _ fuel rand stack 0 0 _ 0)
      as [[[pos1 sh1] units1]| |] eqn:Hloop; [|done..].
    simpl. intros [= <-]. simpl.
    apply start_loop_result in Hloop as Hres. destruct Hres as [_ Hbal].
    apply start_loop_on_odd_board in Hloop as [Hfc Hnc]; [|done].
    simpl in *. split; [done|]. split; [done|].
    unfold balanced in Hbal. simpl in Hbal. lia.
Qed.

End OddBoards.

(** ** What the threads print *)

Section Console.
Context (cfg : Config).

(** One critical region, executed whole, prints the line of its thread. *)
Lemma region_prints tid (track : Track_t) (board : Board_t) ops sh :
  critical_ops cfg tid track board = Some ops →
  ∃ closed : bool,
    console (foldl exec_op (sh, 0) ops).1
      = console sh +:+ found_line tid closed ∧
    num_found (foldl exec_op (sh, 0) ops).1 = num_found sh + 1 ∧
    num_closed (foldl exec_op (sh, 0) ops).1
      = num_closed sh + (if closed then 1 else 0).
Proof.
  unfold critical_ops. intros H.
  destruct (rd track (cells cfg - 1)) as [last|]; [|done].
  destruct (rd track 0) as [first|]; [|done]. simpl in H.
  destruct (IsClosedTour _ _ _ _).
  - destruct (fPrintBoard cfg board) as [writes|]; [|done].
    simpl in H. injection H as <-. exists true.
    cbn [foldl exec_op counter set_counter num_found num_closed
         num_opened fc console].
    rewrite exec_Fprintf. cbn [fst num_found num_closed num_opened console].
    done.
  - injection H as <-. exists false.
    cbn [foldl exec_op counter set_counter num_found num_closed
         num_opened fc console fst].
    split; [done|]. split; [done|]. by rewrite Z.add_0_r.
Qed.

(** The regions of a history executed one by one print one line each, in
    the order of the history. *)
Lemma one_by_one_prints ids sh history :
  Forall (region_of cfg ids) history →
  ∃ events : list (Z * bool),
    length events = length history ∧
    Forall (λ e, e.1 ∈ ids) events ∧
    console (one_by_one sh history)
      = console sh +:+ cat ((λ e, found_line e.1 e.2) <$> events) ∧
    num_found (one_by_one sh history)
      = num_found sh + Z.of_nat (length events) ∧
    num_closed (one_by_one sh history)
      = num_closed sh
        + Z.of_nat (length (filter (λ e, Is_true e.2) events)).
Proof.
  induction history as [|ops history IH] using rev_ind; intros Hall.
  - exists []. simpl. rewrite append_empty_r.
    split; [done|]. split; [done|]. split; [done|]. split; lia.
  - apply Forall_app in Hall as [Hall Hops].
    apply Forall_singleton in Hops as (tid & track & board & Hin & Hops).
    destruct (IH Hall) as (events & Hlen & Hids & Hc & Hf & Hn).
    destruct (region_prints tid track board ops (one_by_one sh history) Hops)
      as (closed & Hc' & Hf' & Hn').
    exists (events ++ [(tid, closed)]). rewrite one_by_one_snoc.
    rewrite Hc', Hf', Hn', Hc, Hf, Hn.
    rewrite fmap_app, cat_app, filter_app, !length_app, append_assoc.
    split; [simpl; lia|]. split.
    { apply Forall_app. split; [done|]. by apply Forall_singleton. }
    split.
    { cbn [fmap list_fmap fst snd]. by rewrite cat_singleton. }
    split; [simpl; lia|].
    destruct closed.
    + assert (length (filter (λ e : Z * bool, Is_true e.2) [(tid, true)])
              = 1%nat) as -> by reflexivity. lia.
    + assert (length (filter (λ e : Z * bool, Is_true e.2) [(tid, false)])
              = 0%nat) as -> by reflexivity. lia.
Qed.

(** The regions entered are regions of the threads of the team, whose
    numbers no transition changes. *)
Lemma thread_step_team ids i g :
  th_id <$> threads g = ids → Forall (region_of cfg ids) (entered g) →
  th_id <$> threads (thread_step cfg i g) = ids
  ∧ Forall (region_of cfg ids) (entered (thread_step cfg i g)).
Proof.
  intros Hids Hent. unfold thread_step.
  destruct (threads g !! i) as [t|] eqn:Hti; [|done].
  assert (Hkeep : ∀ l later ops tmp,
    th_id <$> <[i := mkThread (th_id t) l later ops tmp]> (threads g) = ids).
  { intros l later ops tmp. rewrite list_fmap_insert. simpl.
    rewrite list_insert_id; [done|]. by rewrite list_lookup_fmap, Hti. }
  destruct (th_ops t) as [[|op ops]|] eqn:Hops.
  - simpl. by split.
  - destruct (exec_op (shared g, th_tmp t) op) as [sh' tmp']. simpl.
    by split.
  - destruct (next cfg (th_local t)) as [l'| | |].
    + unfold set_thread. simpl. by split.
    + destruct (owner g); [done|].
      destruct (critical_ops cfg (th_id t) (track (th_local t))
                  (board (th_local t))) as [ops|] eqn:Hcr; [|done].
      simpl. split; [done|]. apply Forall_app. split; [done|].
      apply Forall_singleton.
      exists (th_id t), (track (th_local t)), (board (th_local t)).
      split; [|done].
      rewrite <- Hids. apply list_elem_of_fmap. exists t. split; [done|].
      by eapply list_elem_of_lookup_2.
    + destruct (th_later t) as [|l' ls]; [done|].
      unfold set_thread. simpl. by split.
    + done.
Qed.

Lemma interleave_team ids schedule g :
  th_id <$> threads g = ids → Forall (region_of cfg ids) (entered g) →
  Forall (region_of cfg ids) (entered (interleave cfg schedule g)).
Proof.
  revert g. induction schedule as [|i schedule IH]; intros g Hids Hent;
    [done|].
  simpl. destruct (thread_step_team ids i g Hids Hent) as [Hids' Hent'].
  by apply IH.
Qed.

(** X14.  What the threads print.  Let the threads take their
    transitions in any order.  Whenever no thread is inside a critical
    region, the standard output holds what it held at the start followed
    by one whole line for every critical region entered, in the order in
    which they were entered; each line names the number of one of the
    threads and says whether the tour it found is closed or opened.
    [num_found] has grown by the number of these lines, [num_closed] by
    the number of those that say closed. *)
Theorem every_tour_prints_one_line schedule g0 :
  at_start g0 →
  owner (interleave cfg schedule g0) = None →
  ∃ events : list (Z * bool),
    length events = length (entered (interleave cfg schedule g0)) ∧
    Forall (λ e, e.1 ∈ th_id <$> threads g0) events ∧
    console (shared (interleave cfg schedule g0))
      = console (shared g0)
        +:+ cat ((λ e, found_line e.1 e.2) <$> events) ∧
    num_found (shared (interleave cfg schedule g0))
      = num_found (shared g0) + Z.of_nat (length events) ∧
    num_closed (shared (interleave cfg schedule g0))
      = num_closed (shared g0)
        + Z.of_nat (length (filter (λ e, Is_true e.2) events)).
Proof.
  intros Hstart Ho.
  pose proof (interleave_coherent cfg (shared g0) schedule g0
                (at_start_coherent cfg g0 Hstart)) as Hcoh.
  pose proof (coh_state _ _ _ Hcoh) as Hstate.
  rewrite Ho in Hstate. destruct Hstate as [_ Hsh]. rewrite Hsh.
  apply one_by_one_prints. apply interleave_team; [done|].
  destruct Hstart as (_ & -> & _). constructor.
Qed.

End Console.

(** ** The tours of one search *)

Section Tours.
Context (cfg : Config).

Lemma advances_decreases n l l' :
  wf cfg l → advances cfg (S n) l = Some l' →
  potential cfg l' < potential cfg l.
Proof.
  revert l. induction n as [|n IH]; intros l Hwf H.
  - simpl in H. destruct (advance cfg l) as [l1|] eqn:Ha; [|done].
    simpl in H. injection H as <-.
    apply advance_transition in Ha. by apply transition_decreases.
  - change (advances cfg (S (S n)) l)
      with (l1 ← advance cfg l; advances cfg (S n) l1) in H.
    destruct (advance cfg l) as [l1|] eqn:Ha; [|done]. simpl in H.
    assert (wf cfg l1) by (by eapply advance_wf).
    apply advance_transition in Ha.
    pose proof (transition_decreases cfg l l1 Hwf Ha).
    pose proof (IH l1 ltac:(done) H). lia.
Qed.

Lemma advances_last n l l' :
  advances cfg (S n) l = Some l' →
  ∃ l1, advances cfg n l = Some l1 ∧ advance cfg l1 = Some l'.
Proof.
  revert l. induction n as [|n IH]; intros l H.
  - simpl in H. destruct (advance cfg l) as [l1|] eqn:Ha; [|done].
    simpl in H. injection H as <-. by exists l.
  - change (advances cfg (S (S n)) l)
      with (l1 ← advance cfg l; advances cfg (S n) l1) in H.
    destruct (advance cfg l) as [l1|] eqn:Ha; [|done]. simpl in H.
    destruct (IH l1 H) as (l2 & Hl2 & Hl').
    exists l2. split; [|done]. simpl. by rewrite Ha.
Qed.

Lemma transition_to_full l l' :
  transition cfg l l' → pc l' = PcFull →
  ∃ f, rd (track l') (step l') = Some f ∧ fk f = 0.
Proof.
  intros [Hpc Hn|c t' Hpc Hc HT HI|c t' b' k' Hpc Hc HT HA
      |c p Hp Hc Hc8|p l1 Hp Hb|Hpc]; simpl; try done.
  - intros _.
    apply AcceptMove_Some in HA as (p' & m' & _ & _ & Hw & _ & _ & _).
    eexists. split; [by eapply rd_wr_eq|]. done.
  - intros ->. by destruct Hp as [[_ [=]]|[_ [=]]].
  - unfold back in Hb.
    destruct (BackTrace cfg _ _ _) as [[[? ?] ?]|]; [|done].
    simpl in Hb. injection Hb as <-. simpl. intros ->.
    by destruct Hp as [(_ & [=] & _)|[(_ & [=])|(_ & [=] & _)]].
Qed.

Lemma full_board_top_cursor (board0 : Board_t) (track0 : Track_t)
    (move0 : Move_t) l0 n l :
  attempt_start cfg board0 track0 move0 = Some l0 →
  advances cfg n l0 = Some l → pc l = PcFull →
  ∃ f, rd (track l) (step l) = Some f ∧ fk f = 0.
Proof.
  intros Hstart Hrun Hpc.
  destruct (attempt_start_state _ _ _ _ _ Hstart) as (_ & _ & Hpc0 & _).
  destruct n as [|n].
  - simpl in Hrun. injection Hrun as <-. congruence.
  - apply advances_last in Hrun as (l1 & _ & Ha).
    apply advance_transition in Ha. by eapply transition_to_full.
Qed.

Lemma knight_moves_NoDup : NoDup knight_moves.
Proof. by apply (bool_decide_unpack _). Qed.

Lemma same_board_same_cells l1 l2 :
  wf cfg l1 → wf cfg l2 → board l1 = board l2 →
  ∀ i f1 f2, 0 <= i <= step l1 →
    rd (track l1) i = Some f1 → rd (track l2) i = Some f2 →
    fx f1 = fx f2 ∧ fy f1 = fy f2.
Proof.
  intros Hwf1 Hwf2 Hboard i f1 f2 Hi Hf1 Hf2.
  destruct (wf_placed _ _ Hwf1 i f1 Hi Hf1) as [Hin1 Hv1].
  rewrite Hboard in Hv1.
  destruct (wf_free _ _ Hwf2 _ _ Hv1) as (j & g & Hj & Hg & Hcell); [lia|].
  destruct (wf_placed _ _ Hwf2 j g Hj Hg) as [Hing Hvg].
  rewrite Hcell, Hv1 in Hvg.
  assert (j = i) as -> by (injection Hvg; lia).
  rewrite Hf2 in Hg. injection Hg as <-.
  destruct (cell_inj cfg _ _ _ _ Hing Hin1 Hcell). done.
Qed.

(** X15.  One search reports no tour twice: with the move array a
    rearrangement of the eight knight moves, two full boards that the same
    search completes, one after the other, are different boards. *)
Theorem one_search_finds_no_tour_twice (board0 : Board_t) (track0 : Track_t)
    (move0 : Move_t) l0 n m l1 l2 :
  Z.of_nat (length board0) = cells cfg →
  Z.of_nat (length track0) = cells cfg →
  move0 ≡ₚ knight_moves →
  attempt_start cfg board0 track0 move0 = Some l0 →
  advances cfg n l0 = Some l1 → pc l1 = PcFull →
  advances cfg (S m) l1 = Some l2 → pc l2 = PcFull →
  board l1 ≠ board l2.
Proof.
  intros Hb Ht Hperm Hstart Hrun1 Hpc1 Hrun2 Hpc2 Hboard.
  destruct (reached_on_path _ _ _ _ _ _ _ Hb Ht Hstart Hrun1)
    as (Hwf1 & Hpath1 & Hmove1).
  assert (Hrun12 : advances cfg (n + S m) l0 = Some l2).
  { clear -Hrun1 Hrun2. revert l0 Hrun1. induction n as [|n IH]; intros l0.
    - intros [= ->]. done.
    - simpl. destruct (advance cfg l0) as [l|]; [|done]. simpl. apply IH. }
  destruct (reached_on_path _ _ _ _ _ _ _ Hb Ht Hstart Hrun12)
    as (Hwf2 & Hpath2 & Hmove2).
  pose proof (advances_decreases _ _ _ Hwf1 Hrun2) as Hless.
  assert (Hs1 : step l1 = cells cfg - 1) by (apply (wf_full _ _ Hwf1); auto).
  assert (Hs2 : step l2 = cells cfg - 1) by (apply (wf_full _ _ Hwf2); auto).
  pose proof (wf_step _ _ Hwf1) as Hstep.
  destruct (full_board_top_cursor _ _ _ _ _ _ Hstart Hrun1 Hpc1)
    as (t1 & Ht1 & Hk1).
  destruct (full_board_top_cursor _ _ _ _ _ _ Hstart Hrun12 Hpc2)
    as (t2 & Ht2 & Hk2).
  assert (HND : NoDup move0).
  { rewrite Hperm. apply knight_moves_NoDup. }
  assert (Hsame : progress cfg l1 = progress cfg l2).
  { unfold progress. rewrite Hs1, Hs2. apply odometer_ext. intros i Hi.
    rewrite Z2Nat.id in Hi by lia. unfold digit.
    destruct (rd_is_Some (track l1) i) as [f1 Hf1].
    { rewrite (wf_track _ _ Hwf1). lia. }
    destruct (rd_is_Some (track l2) i) as [f2 Hf2].
    { rewrite (wf_track _ _ Hwf2). lia. }
    rewrite Hf1, Hf2. f_equal.
    destruct (decide (i = cells cfg - 1)) as [->|Hne].
    - rewrite Hs1 in Ht1. rewrite Hs2 in Ht2. congruence.
    - destruct (rd_is_Some (track l1) (i + 1)) as [g1 Hg1].
      { rewrite (wf_track _ _ Hwf1). lia. }
      destruct (rd_is_Some (track l2) (i + 1)) as [g2 Hg2].
      { rewrite (wf_track _ _ Hwf2). lia. }
      destruct (Hpath1 i f1 g1 ltac:(lia) Hf1 Hg1) as (m1 & Hm1 & Hx1 & Hy1).
      destruct (Hpath2 i f2 g2 ltac:(lia) Hf2 Hg2) as (m2 & Hm2 & Hx2 & Hy2).
      destruct (same_board_same_cells l1 l2 Hwf1 Hwf2 Hboard i f1 f2
                  ltac:(lia) Hf1 Hf2) as [Hfx Hfy].
      destruct (same_board_same_cells l1 l2 Hwf1 Hwf2 Hboard (i + 1) g1 g2
                  ltac:(lia) Hg1 Hg2) as [Hgx Hgy].
      assert (m1 = m2) as ->.
      { destruct m1, m2. simpl in *. f_equal; lia. }
      rewrite Hmove1 in Hm1. rewrite Hmove2 in Hm2.
      apply rd_Some in Hm1 as [Hp1 Hm1]. apply rd_Some in Hm2 as [Hp2 Hm2].
      pose proof (NoDup_lookup _ _ _ _ HND Hm1 Hm2). lia. }
  unfold potential in Hless. rewrite Hsame, Hpc1, Hpc2 in Hless. lia.
Qed.

End Tours.

(** ** The further properties at concrete inputs *)

Lemma ResetBoard_zeroes_every_cell_witness :
  ResetBoard source_config closed_tour_board = Some (replicate 36 0).
Proof.
  apply (ResetBoard_zeroes_every_cell source_config closed_tour_board);
    reflexivity.
Defined.

Lemma PrintBoard_prints_rows_top_down_witness :
  ∃ rows writes,
    length rows = Z.to_nat (LY source_config) ∧
    (∀ r row, rows !! r = Some row →
       length row = Z.to_nat (LX source_config) ∧
       ∀ i v, row !! i = Some v →
         board_rd source_config closed_tour_board (Z.of_nat i)
           (LY source_config - 1 - Z.of_nat r) = Some v) ∧
    PrintBoard source_config closed_tour_board = Some writes ∧
    cat writes = text_printed rows.
Proof.
  apply (PrintBoard_prints_rows_top_down source_config closed_tour_board).
  reflexivity.
Defined.

Lemma swap_moves_twice_witness :
  swap_moves
    [(-2, -1); (-1, -2); (-2, 1); (-1, 2); (1, -2); (1, 2); (2, -1); (2, 1)]
    1 2 = Some knight_moves.
Proof.
  apply (swap_moves_twice knight_moves). reflexivity.
Defined.

Lemma start_cell_stays_in_frame_0_witness :
  ∃ l,
    advances source_config 265 (mkLocal (<[35%nat := 1]> zero_board)
      first_track knight_moves 0 0 0 PcBudget) = Some l ∧
    ∃ f, rd (track l) 0 = Some f ∧ fx f = 5 ∧ fy f = 5 ∧
         board_rd source_config (board l) 5 5 = Some 1.
Proof.
  eexists. split; [vm_compute; reflexivity|].
  eapply (start_cell_stays_in_frame_0 source_config zero_board first_track
            knight_moves (mkFrame 5 5 0) _ 265 _).
  - reflexivity.
  - reflexivity.
  - reflexivity.
  - vm_compute. reflexivity.
  - vm_compute. reflexivity.
Defined.

Lemma every_search_ends_witness :
  ∃ n l,
    Z.of_nat n <= 3 * 10 ^ cells small_board + 3 ∧
    advances small_board n
      (mkLocal (<[0%nat := 1]> (replicate 9 0)) (replicate 9 (mkFrame 0 0 0))
         knight_moves 0 0 0 PcBudget) = Some l ∧
    ((next small_board l = Halt ∧ pc l = PcBudget
      ∧ MAX_TRY small_board <= num_try l)
     ∨ (next small_board l = Fault ∧ step l = 0 ∧
        BackTrace small_board (step l) (track l) (board l) = None ∧
        rd (track l) (step l - 1) = None)).
Proof.
  apply (every_search_ends small_board (replicate 9 0)
           (replicate 9 (mkFrame 0 0 0)) knight_moves).
  - reflexivity.
  - reflexivity.
  - reflexivity.
  - left. simpl. lia.
  - reflexivity.
Defined.

Lemma track_is_a_knight_path_witness :
  ∃ l,
    advances source_config 265 (mkLocal (<[35%nat := 1]> zero_board)
      first_track knight_moves 0 0 0 PcBudget) = Some l ∧
    ∀ i, 0 <= i < step l →
      ∃ f g m,
        rd (track l) i = Some f ∧ rd (track l) (i + 1) = Some g ∧
        rd knight_moves (fk f) = Some m ∧
        fx g = fx f + m.1 ∧ fy g = fy f + m.2 ∧
        IsClosedTour (fx g) (fy g) (fx f) (fy f) = true.
Proof.
  eexists. split; [vm_compute; reflexivity|].
  eapply (track_is_a_knight_path source_config zero_board first_track
            knight_moves _ 265 _).
  - reflexivity.
  - reflexivity.
  - reflexivity.
  - vm_compute. reflexivity.
  - vm_compute. reflexivity.
Defined.

Lemma frames_visit_distinct_cells_witness :
  ∃ l,
    advances odd_board 184 (mkLocal (<[16%nat := 1]> (replicate 21 0))
      odd_board_track knight_moves 0 0 0 PcBudget) = Some l ∧
    step l = cells odd_board - 1 ∧
    (∀ i j f g, 0 <= i <= step l → 0 <= j <= step l →
       rd (track l) i = Some f → rd (track l) j = Some g →
       fx f = fx g → fy f = fy g → i = j) ∧
    (step l = cells odd_board - 1 →
     ∀ x y, 0 <= x < LX odd_board → 0 <= y < LY odd_board →
       ∃ i f, 0 <= i <= step l ∧ rd (track l) i = Some f ∧
              fx f = x ∧ fy f = y).
Proof.
  eexists. split; [vm_compute; reflexivity|]. split; [reflexivity|].
  eapply (frames_visit_distinct_cells odd_board (replicate 21 0)
            odd_board_track knight_moves _ 184 _).
  - reflexivity.
  - reflexivity.
  - vm_compute. reflexivity.
  - vm_compute. reflexivity.
Defined.

Lemma odd_board_has_no_closed_tour_witness :
  ∃ l,
    advances odd_board 184 (mkLocal (<[16%nat := 1]> (replicate 21 0))
      odd_board_track knight_moves 0 0 0 PcBudget) = Some l ∧
    pc l = PcFull ∧
    ∃ sh', critical odd_board 0 l (mkShared 0 0 0 "" "") = Some sh' ∧
      fc sh' = fc (mkShared 0 0 0 "" "") ∧
      num_closed sh' = num_closed (mkShared 0 0 0 "" "") ∧
      num_opened sh' = num_opened (mkShared 0 0 0 "" "") + 1 ∧
      num_found sh' = num_found (mkShared 0 0 0 "" "") + 1.
Proof.
  eexists. split; [vm_compute; reflexivity|]. split; [reflexivity|].
  eapply (odd_board_has_no_closed_tour odd_board (replicate 21 0)
            odd_board_track knight_moves _ 184 _ 0 (mkShared 0 0 0 "" "")).
  - reflexivity.
  - reflexivity.
  - reflexivity.
  - reflexivity.
  - vm_compute. reflexivity.
  - vm_compute. reflexivity.
  - reflexivity.
Defined.

Lemma main_appends_num_closed_dumps_witness :
  ∃ e,
    main ten_by_three 10000 (λ _, 0%nat) zero_stack_30 "old" = Done e ∧
    num_closed (final e) = 1 ∧
    ∃ texts,
      Forall (a_dump ten_by_three) texts ∧
      fc (final e) = "old" +:+ cat texts ∧
      num_closed (final e) = Z.of_nat (length texts).
Proof.
  eexists. split; [vm_compute; reflexivity|]. split; [reflexivity|].
  eapply (main_appends_num_closed_dumps ten_by_three 10000 (λ _, 0%nat)
            zero_stack_30 "old").
  vm_compute. reflexivity.
Defined.

Lemma board_numbers_trace_knight_moves_witness :
  ∃ l,
    advances source_config 265 (mkLocal (<[35%nat := 1]> zero_board)
      first_track knight_moves 0 0 0 PcBudget) = Some l ∧
    board_rd source_config (board l) 3 4 = Some 2 ∧
    board_rd source_config (board l) 1 3 = Some 3 ∧
    IsClosedTour 1 3 3 4 = true.
Proof.
  eexists. split; [vm_compute; reflexivity|].
  split; [vm_compute; reflexivity|]. split; [vm_compute; reflexivity|].
  eapply (board_numbers_trace_knight_moves source_config zero_board
            first_track knight_moves _ 265 _ 3 4 1 3 2).
  - reflexivity.
  - reflexivity.
  - reflexivity.
  - vm_compute. reflexivity.
  - vm_compute. reflexivity.
  - lia.
  - vm_compute. reflexivity.
  - vm_compute. reflexivity.
Defined.

Lemma num_try_counts_TryMove_calls_witness :
  ∃ l,
    advances source_config 265 (mkLocal (<[35%nat := 1]> zero_board)
      first_track knight_moves 0 0 0 PcBudget) = Some l ∧
    num_try l
    = tries_made source_config 265 (mkLocal (<[35%nat := 1]> zero_board)
        first_track knight_moves 0 0 0 PcBudget) mod 2 ^ 64.
Proof.
  eexists. split; [vm_compute; reflexivity|].
  eapply (num_try_counts_TryMove_calls source_config zero_board first_track
            knight_moves _ 265 _).
  - vm_compute. reflexivity.
  - vm_compute. reflexivity.
Defined.

Lemma search_without_full_board_changes_nothing_witness :
  ∃ l' sh',
    run budget_50 1000 0 (mkLocal (<[35%nat := 1]> zero_board)
      first_track knight_moves 0 0 0 PcBudget) (mkShared 0 0 0 "old" "")
    = Done (l', sh') ∧
    sh' = mkShared 0 0 0 "old" "".
Proof.
  do 2 eexists. split; [vm_compute; reflexivity|].
  eapply (search_without_full_board_changes_nothing budget_50 1000 0
            (mkLocal (<[35%nat := 1]> zero_board) first_track knight_moves
               0 0 0 PcBudget) (mkShared 0 0 0 "old" "")).
  - vm_compute. reflexivity.
  - reflexivity.
Defined.

Lemma main_on_odd_board_writes_nothing_witness :
  ∃ e,
    main odd_board 5000 (λ _, 0%nat) zero_stack_21 "old" = Done e ∧
    num_found (final e) = 6 ∧
    fc (final e) = "old" ∧ num_closed (final e) = 0 ∧
    num_opened (final e) = num_found (final e).
Proof.
  eexists. split; [vm_compute; reflexivity|]. split; [reflexivity|].
  eapply (main_on_odd_board_writes_nothing odd_board eq_refl 5000
            (λ _, 0%nat) zero_stack_21 "old").
  - intros s. split; reflexivity.
  - vm_compute. reflexivity.
Defined.

Lemma every_tour_prints_one_line_witness :
  console (shared (interleave source_config taking_turns two_threads))
    = found_line 0 true +:+ found_line 1 true ∧
  ∃ events : list (Z * bool),
    length events
      = length (entered (interleave source_config taking_turns two_threads)) ∧
    Forall (λ e, e.1 ∈ th_id <$> threads two_threads) events ∧
    console (shared (interleave source_config taking_turns two_threads))
      = console (shared two_threads)
        +:+ cat ((λ e, found_line e.1 e.2) <$> events) ∧
    num_found (shared (interleave source_config taking_turns two_threads))
      = num_found (shared two_threads) + Z.of_nat (length events) ∧
    num_closed (shared (interleave source_config taking_turns two_threads))
      = num_closed (shared two_threads)
        + Z.of_nat (length (filter (λ e, Is_true e.2) events)).
Proof.
  split; [vm_compute; reflexivity|].
  apply (every_tour_prints_one_line source_config taking_turns two_threads).
  - apply two_threads_at_start.
  - vm_compute. reflexivity.
Defined.

Lemma one_search_finds_no_tour_twice_witness :
  ∃ l1 l2,
    advances odd_board 184 (mkLocal (<[16%nat := 1]> (replicate 21 0))
      odd_board_track knight_moves 0 0 0 PcBudget) = Some l1 ∧
    advances odd_board 101 l1 = Some l2 ∧
    pc l1 = PcFull ∧ pc l2 = PcFull ∧
    board l1 ≠ board l2.
Proof.
  do 2 eexists. split; [vm_compute; reflexivity|].
  split; [vm_compute; reflexivity|].
  split; [reflexivity|]. split; [reflexivity|].
  eapply (one_search_finds_no_tour_twice odd_board (replicate 21 0)
            odd_board_track knight_moves _ 184 100 _ _).
  - reflexivity.
  - reflexivity.
  - reflexivity.
  - vm_compute. reflexivity.
  - vm_compute. reflexivity.
  - reflexivity.
  - vm_compute. reflexivity.
  - reflexivity.
Defined.
